(** * The constant evaluator and the static bounds checker of NVC

    A shallow embedding of the two middle-end phases of the VHDL compiler:
    the elaboration-time constant folder ([eval], source file part_000) and
    the static bounds and choice checker ([bounds_check], source file
    part_001), with the properties the specification states about them.

    Conventions of the embedding.
    - [int64_t] values are integers of [Z]; arithmetic that can leave the
      64-bit range is written with [wrap64] (two's complement).
    - [double] values are the kernel's binary64 floats.
    - A tree node is a record with one slot per item of the C object; a
      pointer that may be [NULL] is an [option].
    - The process can stop in three ways: a call returns ([Done]), the
      process is terminated by [fatal_at], a failed [assert] or a trap
      ([Fatal]), or the recursion budget of the embedding is used up
      ([OutOfFuel]).  The last one is an artefact of the embedding and
      stands for a computation that has not finished yet. *)

From Stdlib Require Import ZArith String Ascii Bool Lia Arith List.
From Stdlib Require Import Floats.PrimFloat Floats.SpecFloat Floats.FloatOps.
From Stdlib Require Import DecimalString.
Import ListNotations.

Open Scope string_scope.
Open Scope Z_scope.

(* ================================================================= *)
(** * Machine integers *)

Definition INT64_MAX : Z := 2 ^ 63 - 1.
Definition INT64_MIN : Z := - 2 ^ 63.
Definition INT32_MAX : Z := 2 ^ 31 - 1.

(** The value of a 64-bit two's complement word that holds [x]. *)
Definition wrap64 (x : Z) : Z := (x + 2 ^ 63) mod 2 ^ 64 - 2 ^ 63.

(** The value of a 32-bit two's complement word ([int]) that holds [x]. *)
Definition wrap32 (x : Z) : Z := (x + 2 ^ 31) mod 2 ^ 32 - 2 ^ 31.

Definition in_int64 (x : Z) : Prop := INT64_MIN <= x <= INT64_MAX.

(** util.h: [MAX] and [MIN]. *)
Definition MAX (x y : Z) : Z := if x >? y then x else y.
Definition MIN (x y : Z) : Z := if x <? y then x else y.

(** [(double)i] for a 64-bit integer: round to nearest binary64. *)
Definition double_of_int (i : Z) : float :=
  SF2Prim (binary_normalize 53 1024 i 0 false).

(** Truncation of a double toward zero; zero for infinities and NaN, where
    the C conversion is undefined. *)
Definition trunc_double (d : float) : Z :=
  match Prim2SF d with
  | S754_finite s m e => (if s then -1 else 1) * Z.shiftl (Zpos m) e
  | _ => 0
  end.

(* ================================================================= *)
(** * Outcomes and the state monad of both phases *)

Inductive outcome (A : Type) : Type :=
| Done (a : A)
| Fatal
| OutOfFuel.

Arguments Done {A} a.
Arguments Fatal {A}.
Arguments OutOfFuel {A}.

(** A computation over a mutable state [S]: the evaluation state for the
    evaluator, the diagnostics state for the checker. *)
Definition M (S A : Type) : Type := S -> outcome (A * S).

Definition ret {S A : Type} (a : A) : M S A := fun s => Done (a, s).

Definition bind {S A B : Type} (m : M S A) (k : A -> M S B) : M S B :=
  fun s =>
    match m s with
    | Done (a, s') => k a s'
    | Fatal => Fatal
    | OutOfFuel => OutOfFuel
    end.

(** A failed [assert], a [fatal_at] or a trap. *)
Definition abort {S A : Type} : M S A := fun _ => Fatal.

Definition out_of_fuel {S A : Type} : M S A := fun _ => OutOfFuel.

(** A C accessor that asserts its item is present. *)
Definition expect {S A : Type} (o : option A) : M S A :=
  match o with
  | Some a => ret a
  | None => abort
  end.

Definition assert {S : Type} (b : bool) : M S unit :=
  if b then ret tt else abort.

Definition get {S : Type} : M S S := fun s => Done (s, s).
Definition put {S : Type} (s : S) : M S unit := fun _ => Done (tt, s).
Definition modify {S : Type} (f : S -> S) : M S unit := fun s => Done (tt, f s).

Declare Scope monad_scope.
Delimit Scope monad_scope with monad.
Notation "x <- m ;; k" := (bind m (fun x => k))
  (at level 61, m at next level, right associativity) : monad_scope.
Notation "' p <- m ;; k" := (bind m (fun p => k))
  (at level 61, p pattern, m at next level, right associativity) : monad_scope.
Notation "m ;;; k" := (bind m (fun _ => k))
  (at level 61, right associativity) : monad_scope.
Open Scope monad_scope.

(** Binding in [option], for the pure helpers that can only abort. *)
Notation "x <-? m ;; k" := (match m with Some x => k | None => None end)
  (at level 61, m at next level, right associativity) : monad_scope.

(** [for (i = 0; i < n; i++) body(l[i])] over the items of a list. *)
Fixpoint for_each {S A : Type} (l : list A) (body : A -> M S unit) : M S unit :=
  match l with
  | [] => ret tt
  | x :: rest => body x ;;; for_each rest body
  end.

(** The same loop when it collects one value per item. *)
Fixpoint map_each {S A B : Type} (l : list A) (body : A -> M S B) : M S (list B) :=
  match l with
  | [] => ret []
  | x :: rest => y <- body x ;; ys <- map_each rest body ;; ret (y :: ys)
  end.

(* ================================================================= *)
(** * The tree and type model *)

(** An interned identifier; equality of identifiers is equality of their
    spelling. *)
Definition ident_t : Type := string.

Definition ident_eq (a b : ident_t) : bool := String.eqb a b.

(** [icmp(i, s)]: does the identifier spell [s]. *)
Definition icmp (i : ident_t) (s : string) : bool := String.eqb i s.

Definition istr (i : ident_t) : string := i.

Record loc_t : Type := Loc { first_line : nat; first_column : nat }.

Inductive tree_kind_t : Type :=
| T_AGGREGATE | T_ALIAS | T_ARRAY_REF | T_ARRAY_SLICE | T_ASSERT | T_ASSOC
| T_ATTR_REF | T_BLOCK | T_CASE | T_CONST_DECL | T_ENUM_LIT | T_EXIT
| T_FCALL | T_FOR | T_FUNC_BODY | T_FUNC_DECL | T_IF | T_LITERAL | T_NULL
| T_PARAM | T_PCALL | T_PORT_DECL | T_REF | T_RETURN | T_SIGNAL_ASSIGN
| T_SIGNAL_DECL | T_TYPE_CONV | T_VAR_ASSIGN | T_VAR_DECL | T_WAVEFORM
| T_WHILE.

(** The secondary tag of a node: the kind of a literal, of an association
    or of a parameter. *)
Inductive subkind_t : Type :=
| L_INT | L_REAL | L_STRING | L_PHYSICAL
| A_POS | A_NAMED | A_RANGE | A_OTHERS
| P_POS | P_NAMED.

Inductive range_kind_t : Type :=
| RANGE_TO | RANGE_DOWNTO | RANGE_EXPR.

Inductive type_kind_t : Type :=
| T_INTEGER | T_REAL | T_ENUM | T_PHYSICAL | T_ACCESS | T_FILE | T_RECORD
| T_CARRAY | T_UARRAY | T_SUBTYPE.

Inductive attr_t : Type :=
| A_INT (i : Z)
| A_STRING (s : ident_t).

#[warnings="-register-all"]
Inductive tree_t : Type := Tree {
  tree_kind : tree_kind_t;
  tree_subkind : subkind_t;
  tree_loc : loc_t;
  t_ident : option ident_t;
  t_ident2 : option ident_t;
  tree_ival : Z;
  tree_dval : float;
  tree_pos : Z;
  t_attrs : list (ident_t * attr_t);
  t_type : option type_t;
  t_value : option tree_t;
  t_target : option tree_t;
  t_name : option tree_t;
  t_ref : option tree_t;
  t_range : option range_t;
  t_params : list tree_t;
  t_ports : list tree_t;
  t_decls : list tree_t;
  t_stmts : list tree_t;
  t_else_stmts : list tree_t;
  t_assocs : list tree_t;
  t_chars : list tree_t;
  t_waveforms : list tree_t
}
with type_t : Type := Type_ {
  type_kind : type_kind_t;
  type_ident : ident_t;
  ty_dims : list range_t;
  ty_base : option type_t;
  ty_elem : option type_t;
  ty_enum_literals : list tree_t;
  ty_index_constrs : list type_t
}
with range_t : Type := Range {
  r_left : tree_t;
  r_right : tree_t;
  r_kind : range_kind_t
}.

(** A node of the given kind with every item empty ([tree_new]). *)
Definition tree_new (k : tree_kind_t) : tree_t :=
  Tree k L_INT (Loc 0 0) None None 0 0%float 0 [] None None None None None None
       [] [] [] [] [] [] [] [].

(** ** Accessors of tree.h.  An accessor of an item the node does not hold
    is an assertion failure. *)

Section Accessors.
Context {S : Type}.

Definition tree_ident (t : tree_t) : M S ident_t := expect (t_ident t).
Definition tree_ident2 (t : tree_t) : M S ident_t := expect (t_ident2 t).
Definition tree_type (t : tree_t) : M S type_t := expect (t_type t).
Definition tree_value (t : tree_t) : M S tree_t := expect (t_value t).
Definition tree_target (t : tree_t) : M S tree_t := expect (t_target t).
Definition tree_name (t : tree_t) : M S tree_t := expect (t_name t).
Definition tree_ref (t : tree_t) : M S tree_t := expect (t_ref t).
Definition tree_range (t : tree_t) : M S range_t := expect (t_range t).

Definition nth_item (l : list tree_t) (n : nat) : M S tree_t :=
  expect (nth_error l n).

Definition tree_param (t : tree_t) (n : nat) : M S tree_t := nth_item (t_params t) n.
Definition tree_port (t : tree_t) (n : nat) : M S tree_t := nth_item (t_ports t) n.
Definition tree_decl (t : tree_t) (n : nat) : M S tree_t := nth_item (t_decls t) n.

End Accessors.

Definition tree_has_value (t : tree_t) : bool :=
  match t_value t with Some _ => true | None => false end.

Definition tree_has_type (t : tree_t) : bool :=
  match t_type t with Some _ => true | None => false end.

Definition tree_params (t : tree_t) : nat := length (t_params t).
Definition tree_ports (t : tree_t) : nat := length (t_ports t).
Definition tree_decls (t : tree_t) : nat := length (t_decls t).
Definition tree_assocs (t : tree_t) : nat := length (t_assocs t).
Definition tree_chars (t : tree_t) : nat := length (t_chars t).

Fixpoint find_attr (name : ident_t) (l : list (ident_t * attr_t)) : option attr_t :=
  match l with
  | [] => None
  | (n, a) :: rest => if ident_eq n name then Some a else find_attr name rest
  end.

(** [tree_attr_str]: the string attribute [name], [NULL] when absent. *)
Definition tree_attr_str (t : tree_t) (name : ident_t) : option ident_t :=
  match find_attr name (t_attrs t) with
  | Some (A_STRING s) => Some s
  | _ => None
  end.

(** [tree_attr_int]: the integer attribute [name], [def] when absent. *)
Definition tree_attr_int (t : tree_t) (name : ident_t) (def : Z) : Z :=
  match find_attr name (t_attrs t) with
  | Some (A_INT i) => i
  | _ => def
  end.

Definition builtin_i : ident_t := "builtin".
Definition elide_bounds_i : ident_t := "elide_bounds".
Definition unconstrained_i : ident_t := "unconstrained".
Definition std_bool_i : ident_t := "STD.STANDARD.BOOLEAN".

(* ================================================================= *)
(** * Types (type.h) *)

(** Modelled from the spec: type.h and type.c are not among the sources.
    Section 3 gives a type its kind, its range or dimension ranges, its
    enumeration literals, its element type, its index constraints and, for
    a subtype, its base; the queries below read those items, a subtype
    standing for its base where the question is about the kind of type. *)
Fixpoint type_base_recur (t : type_t) : type_t :=
  match t with
  | Type_ T_SUBTYPE _ _ (Some b) _ _ _ => type_base_recur b
  | _ => t
  end.

Definition type_is_array (t : type_t) : bool :=
  match type_kind (type_base_recur t) with
  | T_CARRAY | T_UARRAY => true
  | _ => false
  end.

Definition type_is_integer (t : type_t) : bool :=
  match type_kind (type_base_recur t) with T_INTEGER => true | _ => false end.

Definition type_is_real (t : type_t) : bool :=
  match type_kind (type_base_recur t) with T_REAL => true | _ => false end.

Definition type_is_enum (t : type_t) : bool :=
  match type_kind (type_base_recur t) with T_ENUM => true | _ => false end.

Definition type_is_record (t : type_t) : bool :=
  match type_kind (type_base_recur t) with T_RECORD => true | _ => false end.

(** Modelled from the spec: an unconstrained array is one whose index range
    is deferred to the object declaration; a subtype that adds no range of
    its own is as unconstrained as its base. *)
Fixpoint type_is_unconstrained (t : type_t) : bool :=
  match t with
  | Type_ T_SUBTYPE _ [] (Some b) _ _ _ => type_is_unconstrained b
  | Type_ T_SUBTYPE _ _ _ _ _ _ => false
  | Type_ T_UARRAY _ _ _ _ _ _ => true
  | _ => false
  end.

Definition type_dims (t : type_t) : nat := length (ty_dims t).

Definition type_enum_literals (t : type_t) : nat := length (ty_enum_literals t).

Fixpoint type_elem_opt (t : type_t) : option type_t :=
  match t with
  | Type_ T_SUBTYPE _ _ (Some b) _ _ _ => type_elem_opt b
  | _ => ty_elem t
  end.

Section TypeAccessors.
Context {S : Type}.

Definition type_dim (t : type_t) (n : nat) : M S range_t :=
  expect (nth_error (ty_dims t) n).

Definition type_elem (t : type_t) : M S type_t := expect (type_elem_opt t).

Definition type_enum_literal (t : type_t) (n : nat) : M S tree_t :=
  expect (nth_error (ty_enum_literals t) n).

Definition type_index_constr (t : type_t) (n : nat) : M S type_t :=
  expect (nth_error (ty_index_constrs t) n).

End TypeAccessors.

(** Modelled from the spec: [type_pp] is declared in type.h, which is not
    among the sources; a type is shown by its name. *)
Definition type_pp (t : type_t) : string := istr (type_ident t).

(* ================================================================= *)
(** * Folding predicates (common.h) *)

(** Modelled from the spec: common.c is not among the sources.  Section 4.1:
    each predicate returns true exactly when the node is a literal of the
    expected kind, after following trivial references, and then yields the
    value.  The out-parameter is the [Some]. *)
Definition folded_int (t : tree_t) : option Z :=
  match tree_kind t, tree_subkind t with
  | T_LITERAL, L_INT => Some (tree_ival t)
  | _, _ => None
  end.

(** Modelled from the spec: see [folded_int]. *)
Definition folded_real (t : tree_t) : option float :=
  match tree_kind t, tree_subkind t with
  | T_LITERAL, L_REAL => Some (tree_dval t)
  | _, _ => None
  end.

(** Modelled from the spec: a reference to an enumeration literal folds to
    the position of the literal. *)
Definition folded_enum (t : tree_t) : option Z :=
  match tree_kind t, t_ref t with
  | T_REF, Some decl =>
      match tree_kind decl with
      | T_ENUM_LIT => Some (tree_pos decl)
      | _ => None
      end
  | _, _ => None
  end.

(** Modelled from the spec: a reference to a literal of the standard boolean
    type folds to a boolean, [TRUE] being the literal at position one. *)
Definition folded_bool (t : tree_t) : option bool :=
  match tree_kind t, t_ref t with
  | T_REF, Some decl =>
      match tree_kind decl, t_type decl with
      | T_ENUM_LIT, Some ty =>
          if ident_eq (type_ident ty) std_bool_i
          then Some (tree_pos decl =? 1)
          else None
      | _, _ => None
      end
  | _, _ => None
  end.

(** Modelled from the spec: [folded_length(range)] returns [right-left+1]
    for [to], [left-right+1] for [downto], zero for null ranges, and false
    for non-numeric endpoints. *)
Definition folded_length (r : range_t) : option Z :=
  match folded_int (r_left r), folded_int (r_right r) with
  | Some lft, Some rgt =>
      match r_kind r with
      | RANGE_TO => Some (Z.max 0 (rgt - lft + 1))
      | RANGE_DOWNTO => Some (Z.max 0 (lft - rgt + 1))
      | RANGE_EXPR => None
      end
  | _, _ => None
  end.

(** Modelled from the spec: [folded_bounds(range)] normalises direction,
    returning [(low, high)]. *)
Definition folded_bounds (r : range_t) : option (Z * Z) :=
  match folded_int (r_left r), folded_int (r_right r) with
  | Some lft, Some rgt =>
      match r_kind r with
      | RANGE_TO => Some (lft, rgt)
      | RANGE_DOWNTO => Some (rgt, lft)
      | RANGE_EXPR => None
      end
  | _, _ => None
  end.

(** Modelled from the spec: [assume_int] is declared in common.h, which is
    not among the sources; it is the integer a choice has been folded to,
    and a fatal error when the expression is not folded. *)
Definition assume_int {S : Type} (t : tree_t) : M S Z := expect (folded_int t).

(** Modelled from the spec: [range_bounds] is declared in common.h; it is
    [folded_bounds] for a range whose endpoints are known to be literals,
    and an assertion failure otherwise. *)
Definition range_bounds {S : Type} (r : range_t) : M S (Z * Z) :=
  lft <- assume_int (r_left r) ;;
  rgt <- assume_int (r_right r) ;;
  ret (match r_kind r with
       | RANGE_DOWNTO => (rgt, lft)
       | _ => (lft, rgt)
       end).

(** ** Literal constructors (common.h) *)

(** Modelled from the spec: the literal the evaluator substitutes for a
    call takes the location and the type of the node it replaces. *)
Definition get_int_lit (t : tree_t) (i : Z) : tree_t :=
  Tree T_LITERAL L_INT (tree_loc t) None None i 0%float 0 [] (t_type t)
       None None None None None [] [] [] [] [] [] [] [].

(** Modelled from the spec: see [get_int_lit]. *)
Definition get_real_lit (t : tree_t) (r : float) : tree_t :=
  Tree T_LITERAL L_REAL (tree_loc t) None None 0 r 0 [] (t_type t)
       None None None None None [] [] [] [] [] [] [] [].

(** The standard boolean type as an enumeration literal sees it. *)
Definition std_bool_type : type_t :=
  Type_ T_ENUM std_bool_i [] None None [] [].

Definition std_bool_literal (b : bool) : tree_t :=
  Tree T_ENUM_LIT L_INT (Loc 0 0) (Some (if b then "TRUE" else "FALSE")) None
       0 0%float (if b then 1 else 0) [] (Some std_bool_type)
       None None None None None [] [] [] [] [] [] [] [].

(** Modelled from the spec: a boolean result is a reference to the literal
    [FALSE] or [TRUE] of the standard boolean type. *)
Definition get_bool_lit (t : tree_t) (v : bool) : tree_t :=
  Tree T_REF L_INT (tree_loc t) (t_ident (std_bool_literal v)) None
       0 0%float 0 [] (Some std_bool_type)
       None None None (Some (std_bool_literal v)) None [] [] [] [] [] [] [] [].

(** Modelled from the spec: [ipow] is declared in util.h and defined in
    util.c, which is not among the sources; section 4.3 uses it for
    [alphabet^length].  The result is held in an [int64_t]. *)
Definition ipow (x y : Z) : Z := wrap64 (x ^ y).

(* ================================================================= *)
(** * The constant evaluator (part_000) *)

Definition VTABLE_SZ : nat := 16.
Definition MAX_ITERS : Z := 1000.

(** A frame holds the first [size] entries of its [binding] array; [down]
    is the rest of the stack the frame stands on. *)
Record vtframe_t : Type := VtFrame { binding : list (ident_t * tree_t) }.

Definition size (f : vtframe_t) : nat := length (binding f).

(** The evaluation state; [top] is the stack of frames, the empty list
    being the [NULL] frame pointer. *)
Record vtable_t : Type := VTable {
  top : list vtframe_t;
  failed : bool;
  exit : option ident_t;
  result : option tree_t
}.

Definition set_top (f : list vtframe_t) (v : vtable_t) : vtable_t :=
  VTable f (failed v) (exit v) (result v).
Definition set_failed (b : bool) (v : vtable_t) : vtable_t :=
  VTable (top v) b (exit v) (result v).
Definition set_exit (e : option ident_t) (v : vtable_t) : vtable_t :=
  VTable (top v) (failed v) e (result v).
Definition set_result (r : option tree_t) (v : vtable_t) : vtable_t :=
  VTable (top v) (failed v) (exit v) r.

(** Computations of the evaluator. *)
Definition E (A : Type) : Type := M vtable_t A.

Definition is_some {A : Type} (o : option A) : bool :=
  match o with Some _ => true | None => false end.

(** The [eval_error] macro: the warning it may print goes to the diagnostic
    stream only; the macro then sets [failed] and returns from the function
    that uses it. *)
Definition eval_error : E unit := modify (set_failed true).

Definition vtable_push : E unit :=
  modify (fun v => set_top (VtFrame [] :: top v) v).

Definition vtable_pop : E unit :=
  v <- get ;;
  match top v with
  | [] => abort
  | f :: down => put (set_result None (set_top down v))
  end.

(** The first loop of [vtable_bind]: overwrite the entry of [name]. *)
Fixpoint rebind (name : ident_t) (value : tree_t) (bs : list (ident_t * tree_t))
  : option (list (ident_t * tree_t)) :=
  match bs with
  | [] => None
  | (n, x) :: rest =>
      if ident_eq n name then Some ((n, value) :: rest)
      else match rebind name value rest with
           | Some rest' => Some ((n, x) :: rest')
           | None => None
           end
  end.

Definition vtable_bind (name : ident_t) (value : tree_t) : E unit :=
  v <- get ;;
  match top v with
  | [] => ret tt
  | f :: down =>
      match rebind name value (binding f) with
      | Some bs => put (set_top (VtFrame bs :: down) v)
      | None =>
          assert (size f <? VTABLE_SZ)%nat ;;;
          put (set_top (VtFrame (binding f ++ [(name, value)]) :: down) v)
      end
  end.

Fixpoint binding_get (bs : list (ident_t * tree_t)) (name : ident_t) : option tree_t :=
  match bs with
  | [] => None
  | (n, x) :: rest => if ident_eq n name then Some x else binding_get rest name
  end.

Fixpoint vtframe_get (f : list vtframe_t) (name : ident_t) : option tree_t :=
  match f with
  | [] => None
  | fr :: down =>
      match binding_get (binding fr) name with
      | Some x => Some x
      | None => vtframe_get down name
      end
  end.

Definition vtable_get (v : vtable_t) (name : ident_t) : option tree_t :=
  vtframe_get (top v) name.

Definition folded (t : tree_t) : bool :=
  match tree_kind t with
  | T_LITERAL => true
  | T_REF => is_some (folded_bool t)
  | _ => false
  end.

(** ** Built-in operators.  The reducers return [None] where the C code
    stops the process: [fatal_at], a failed [assert], a division trap, or a
    read past the end of the argument array. *)

Definition arg {A : Type} (args : list A) (i : nat) : option A := nth_error args i.

Definition eval_fcall_log (t : tree_t) (builtin : ident_t) (args : list bool)
  : option tree_t :=
  if icmp builtin "not" then
    a0 <-? arg args 0 ;; Some (get_bool_lit t (negb a0))
  else if icmp builtin "and" then
    a0 <-? arg args 0 ;; a1 <-? arg args 1 ;; Some (get_bool_lit t (a0 && a1))
  else if icmp builtin "nand" then
    a0 <-? arg args 0 ;; a1 <-? arg args 1 ;; Some (get_bool_lit t (negb (a0 && a1)))
  else if icmp builtin "or" then
    a0 <-? arg args 0 ;; a1 <-? arg args 1 ;; Some (get_bool_lit t (a0 || a1))
  else if icmp builtin "nor" then
    a0 <-? arg args 0 ;; a1 <-? arg args 1 ;; Some (get_bool_lit t (negb (a0 || a1)))
  else if icmp builtin "xor" then
    a0 <-? arg args 0 ;; a1 <-? arg args 1 ;; Some (get_bool_lit t (xorb a0 a1))
  else if icmp builtin "xnor" then
    a0 <-? arg args 0 ;; a1 <-? arg args 1 ;; Some (get_bool_lit t (negb (xorb a0 a1)))
  else if icmp builtin "eq" then
    a0 <-? arg args 0 ;; a1 <-? arg args 1 ;; Some (get_bool_lit t (Bool.eqb a0 a1))
  else if icmp builtin "neq" then
    a0 <-? arg args 0 ;; a1 <-? arg args 1 ;; Some (get_bool_lit t (negb (Bool.eqb a0 a1)))
  else Some t.

Definition eval_fcall_real (t : tree_t) (builtin : ident_t) (args : list float)
  : option tree_t :=
  if icmp builtin "mul" then
    a0 <-? arg args 0 ;; a1 <-? arg args 1 ;; Some (get_real_lit t (a0 * a1)%float)
  else if icmp builtin "div" then
    a0 <-? arg args 0 ;; a1 <-? arg args 1 ;; Some (get_real_lit t (a0 / a1)%float)
  else if icmp builtin "add" then
    a0 <-? arg args 0 ;; a1 <-? arg args 1 ;; Some (get_real_lit t (a0 + a1)%float)
  else if icmp builtin "sub" then
    a0 <-? arg args 0 ;; a1 <-? arg args 1 ;; Some (get_real_lit t (a0 - a1)%float)
  else if icmp builtin "neg" then
    a0 <-? arg args 0 ;; Some (get_real_lit t (- a0)%float)
  else if icmp builtin "identity" then
    a0 <-? arg args 0 ;; Some (get_real_lit t a0)
  else if icmp builtin "eq" then
    a0 <-? arg args 0 ;; a1 <-? arg args 1 ;; Some (get_bool_lit t (a0 =? a1)%float)
  else if icmp builtin "neq" then
    a0 <-? arg args 0 ;; a1 <-? arg args 1 ;; Some (get_bool_lit t (negb (a0 =? a1)%float))
  else if icmp builtin "gt" then
    a0 <-? arg args 0 ;; a1 <-? arg args 1 ;; Some (get_bool_lit t (a1 <? a0)%float)
  else if icmp builtin "lt" then
    a0 <-? arg args 0 ;; a1 <-? arg args 1 ;; Some (get_bool_lit t (a0 <? a1)%float)
  else Some t.

(** The [while (b != 0)] loop of [exp]; a positive 64-bit [b] is shifted
    to zero within 63 rounds, so [n = 64] rounds never run short. *)
Fixpoint exp_loop (n : nat) (result a b : Z) : Z :=
  match n with
  | O => result
  | S n' =>
      if b =? 0 then result
      else
        let result := if Z.testbit b 0 then wrap64 (result * a) else result in
        exp_loop n' result (wrap64 (a * a)) (Z.shiftr b 1)
  end.

(** [/] and [%] on [int64_t]: the division instruction traps when the
    divisor is zero and when the quotient overflows. *)
Definition div_traps (a b : Z) : bool :=
  (b =? 0) || ((a =? INT64_MIN) && (b =? -1)).

(** [llabs]: the absolute value as a 64-bit word. *)
Definition llabs (a : Z) : Z := wrap64 (Z.abs a).

Definition eval_fcall_int (t : tree_t) (builtin : ident_t) (args : list Z)
  : option tree_t :=
  if icmp builtin "mul" then
    a0 <-? arg args 0 ;; a1 <-? arg args 1 ;; Some (get_int_lit t (wrap64 (a0 * a1)))
  else if icmp builtin "div" then
    a0 <-? arg args 0 ;; a1 <-? arg args 1 ;;
    if div_traps a0 a1 then None else Some (get_int_lit t (Z.quot a0 a1))
  else if icmp builtin "add" then
    a0 <-? arg args 0 ;; a1 <-? arg args 1 ;; Some (get_int_lit t (wrap64 (a0 + a1)))
  else if icmp builtin "sub" then
    a0 <-? arg args 0 ;; a1 <-? arg args 1 ;; Some (get_int_lit t (wrap64 (a0 - a1)))
  else if icmp builtin "neg" then
    a0 <-? arg args 0 ;; Some (get_int_lit t (wrap64 (- a0)))
  else if icmp builtin "identity" then
    a0 <-? arg args 0 ;; Some (get_int_lit t a0)
  else if icmp builtin "eq" then
    a0 <-? arg args 0 ;; a1 <-? arg args 1 ;; Some (get_bool_lit t (a0 =? a1))
  else if icmp builtin "neq" then
    a0 <-? arg args 0 ;; a1 <-? arg args 1 ;; Some (get_bool_lit t (negb (a0 =? a1)))
  else if icmp builtin "gt" then
    a0 <-? arg args 0 ;; a1 <-? arg args 1 ;; Some (get_bool_lit t (a0 >? a1))
  else if icmp builtin "lt" then
    a0 <-? arg args 0 ;; a1 <-? arg args 1 ;; Some (get_bool_lit t (a0 <? a1))
  else if icmp builtin "leq" then
    a0 <-? arg args 0 ;; a1 <-? arg args 1 ;; Some (get_bool_lit t (a0 <=? a1))
  else if icmp builtin "geq" then
    a0 <-? arg args 0 ;; a1 <-? arg args 1 ;; Some (get_bool_lit t (a0 >=? a1))
  else if icmp builtin "exp" then
    a <-? arg args 0 ;; b <-? arg args 1 ;;
    if a =? 0 then Some (get_int_lit t 0)
    else if b =? 0 then Some (get_int_lit t 1)
    else if b <? 0 then Some t
    else Some (get_int_lit t (exp_loop 64 1 a b))
  else if icmp builtin "min" then
    match args with
    | [] => None
    | a0 :: rest => Some (get_int_lit t (fold_left MIN rest a0))
    end
  else if icmp builtin "max" then
    match args with
    | [] => None
    | a0 :: rest => Some (get_int_lit t (fold_left MAX rest a0))
    end
  else if icmp builtin "mod" then
    a0 <-? arg args 0 ;; a1 <-? arg args 1 ;;
    if div_traps (llabs a0) (llabs a1) then None
    else Some (get_int_lit t (Z.rem (llabs a0) (llabs a1)))
  else if icmp builtin "rem" then
    a0 <-? arg args 0 ;; a1 <-? arg args 1 ;;
    if div_traps a0 a1 then None else Some (get_int_lit t (Z.rem a0 a1))
  else Some t.

(** The arguments are positions of enumeration literals ([unsigned]). *)
Definition eval_fcall_enum (t : tree_t) (builtin : ident_t) (args : list Z)
  : option tree_t :=
  if icmp builtin "min" then
    match args with
    | [] => None
    | a0 :: rest => Some (get_int_lit t (fold_left MIN rest a0))
    end
  else if icmp builtin "max" then
    match args with
    | [] => None
    | a0 :: rest => Some (get_int_lit t (fold_left MAX rest a0))
    end
  else if icmp builtin "eq" then
    a0 <-? arg args 0 ;; a1 <-? arg args 1 ;; Some (get_bool_lit t (a0 =? a1))
  else if icmp builtin "neq" then
    a0 <-? arg args 0 ;; a1 <-? arg args 1 ;; Some (get_bool_lit t (negb (a0 =? a1)))
  else Some t.

(** [folded_real(args[r], &rval) && folded_int(args[i], &ival)]. *)
Definition universal_args (args : list tree_t) (r i : nat) : option (float * Z) :=
  a <-? arg args r ;; b <-? arg args i ;;
  rval <-? folded_real a ;; ival <-? folded_int b ;; Some (rval, ival).

(** The last branch is the [fatal_at] of the source. *)
Definition eval_fcall_universal (t : tree_t) (builtin : ident_t) (args : list tree_t)
  : option tree_t :=
  match (if icmp builtin "mulri" then universal_args args 0 1 else None) with
  | Some (rval, ival) => Some (get_real_lit t (rval * double_of_int ival)%float)
  | None =>
  match (if icmp builtin "mulir" then universal_args args 1 0 else None) with
  | Some (rval, ival) => Some (get_real_lit t (rval * double_of_int ival)%float)
  | None =>
  match (if icmp builtin "divri" then universal_args args 0 1 else None) with
  | Some (rval, ival) => Some (get_real_lit t (rval / double_of_int ival)%float)
  | None => None
  end end end.

(** The character loop of [eval_fcall_str], over two strings of one
    length: [Some false] at the first pair of characters that differ. *)
Fixpoint chars_equal (l r : list tree_t) : option bool :=
  match l, r with
  | c0 :: l', c1 :: r' =>
      i0 <-? t_ident c0 ;; i1 <-? t_ident c1 ;;
      if negb (ident_eq i0 i1) then Some false else chars_equal l' r'
  | _, _ => Some true
  end.

Definition eval_fcall_str (t : tree_t) (builtin : ident_t) (args : list tree_t)
  : option tree_t :=
  if icmp builtin "aeq" || icmp builtin "aneq" then
    a0 <-? arg args 0 ;; a1 <-? arg args 1 ;;
    let lchars := tree_chars a0 in
    let rchars := tree_chars a1 in
    let invert := icmp builtin "aneq" in
    if negb (lchars =? rchars)%nat then Some (get_bool_lit t invert)
    else
      same <-? chars_equal (t_chars a0) (t_chars a1) ;;
      Some (get_bool_lit t (if same then negb invert else invert))
  else Some t.

(** [can_fold_x = can_fold_x && folded_x(targs[i], &xargs[i])] over all
    the arguments. *)
Fixpoint fold_all {A : Type} (f : tree_t -> option A) (targs : list tree_t)
  : option (list A) :=
  match targs with
  | [] => Some []
  | x :: rest => a <-? f x ;; l <-? fold_all f rest ;; Some (a :: l)
  end.

Definition is_string_literal (t : tree_t) : option unit :=
  match tree_kind t, tree_subkind t with
  | T_LITERAL, L_STRING => Some tt
  | _, _ => None
  end.

(** ** Expressions and statements.  The source declares [eval_stmt] and
    [eval_expr] ahead of the functions that call them; here they are the
    two variables of the section, and the knot is tied below by recursion
    on the depth of calls. *)

Section Evaluator.

Variable eval_expr : tree_t -> E tree_t.
Variable eval_stmt : tree_t -> E unit.

(** [eval_stmts(t, count, get, v)]: [stmts] is the list the pair
    [(count, get)] selects, the statements or the else-statements of [t]. *)
Fixpoint eval_stmts (stmts : list tree_t) : E unit :=
  match stmts with
  | [] => ret tt
  | s :: rest =>
      eval_stmt s ;;;
      v <- get ;;
      if failed v || is_some (result v) || is_some (exit v) then ret tt
      else eval_stmts rest
  end.

Definition eval_func_body (t : tree_t) : E unit :=
  for_each (t_decls t) (fun decl =>
    match tree_kind decl with
    | T_VAR_DECL =>
        if tree_has_value decl then
          e <- tree_value decl ;;
          x <- eval_expr e ;;
          name <- tree_ident decl ;;
          vtable_bind name x
        else ret tt
    | _ => ret tt
    end) ;;;
  eval_stmts (t_stmts t).

(** The first loop of the user-defined branch of [eval_fcall], over the
    port indexes: [None] when a parameter does not fold. *)
Fixpoint eval_params (t : tree_t) (ports : list nat) : E (option (list tree_t)) :=
  match ports with
  | [] => ret (Some [])
  | i :: rest =>
      p <- tree_param t i ;;
      e <- tree_value p ;;
      x <- eval_expr e ;;
      if negb (folded x) then ret None
      else
        r <- eval_params t rest ;;
        ret (match r with Some xs => Some (x :: xs) | None => None end)
  end.

Definition is_universal (builtin : ident_t) : bool :=
  icmp builtin "mulri" || icmp builtin "mulir" || icmp builtin "divri".

Definition eval_fcall (t : tree_t) : E tree_t :=
  decl <- tree_ref t ;;
  assert (match tree_kind decl with
          | T_FUNC_DECL | T_FUNC_BODY => true
          | _ => false
          end) ;;;
  match tree_attr_str decl builtin_i with
  | None =>
      match tree_kind decl with
      | T_FUNC_BODY =>
          ty <- tree_type t ;;
          if type_is_array ty then ret t
          else
            let nports := tree_ports decl in
            folded_params <- eval_params t (seq 0 nports) ;;
            match folded_params with
            | None => ret t
            | Some params =>
                vtable_push ;;;
                for_each (combine (seq 0 nports) params) (fun '(i, p) =>
                  port <- tree_port decl i ;;
                  name <- tree_ident port ;;
                  vtable_bind name p) ;;;
                eval_func_body decl ;;;
                v <- get ;;
                vtable_pop ;;;
                ret (match result v with
                     | Some r => if folded r then r else t
                     | None => t
                     end)
            end
      | _ => ret t
      end
  | Some builtin =>
      targs <- map_each (t_params t) (fun p => e <- tree_value p ;; eval_expr e) ;;
      if is_universal builtin then expect (eval_fcall_universal t builtin targs)
      else
        match fold_all folded_int targs with
        | Some iargs => expect (eval_fcall_int t builtin iargs)
        | None =>
        match fold_all folded_bool targs with
        | Some bargs => expect (eval_fcall_log t builtin bargs)
        | None =>
        match fold_all folded_real targs with
        | Some rargs => expect (eval_fcall_real t builtin rargs)
        | None =>
        match fold_all folded_enum targs with
        | Some eargs => expect (eval_fcall_enum t builtin eargs)
        | None =>
        match fold_all is_string_literal targs with
        | Some _ => expect (eval_fcall_str t builtin targs)
        | None => ret t
        end end end end end
  end.

Definition eval_ref (t : tree_t) : E tree_t :=
  decl <- tree_ref t ;;
  match tree_kind decl with
  | T_CONST_DECL => e <- tree_value decl ;; eval_expr e
  | _ =>
      name <- tree_ident decl ;;
      v <- get ;;
      ret (match vtable_get v name with
           | Some binding => binding
           | None => t
           end)
  end.

(** [(int)l] is undefined outside the range of [int]; the embedding keeps
    the low 32 bits of the truncated value. *)
Definition eval_type_conv (t : tree_t) : E tree_t :=
  p <- tree_param t 0 ;;
  e <- tree_value p ;;
  value <- eval_expr e ;;
  from <- tree_type value ;;
  to <- tree_type t ;;
  match type_kind from, type_kind to with
  | T_INTEGER, T_REAL =>
      match folded_int value with
      | Some l => ret (get_real_lit t (double_of_int l))
      | None => ret t
      end
  | T_REAL, T_INTEGER =>
      match folded_real value with
      | Some l => ret (get_int_lit t (wrap32 (trunc_double l)))
      | None => ret t
      end
  | _, _ => ret t
  end.

Definition eval_expr_body (t : tree_t) : E tree_t :=
  match tree_kind t with
  | T_FCALL => eval_fcall t
  | T_REF => eval_ref t
  | T_TYPE_CONV => eval_type_conv t
  | _ => ret t
  end.

Definition eval_return (t : tree_t) : E unit :=
  assert (tree_has_value t) ;;;
  v <- get ;;
  assert (negb (is_some (result v))) ;;;
  e <- tree_value t ;;
  r <- eval_expr e ;;
  modify (set_result (Some r)).

Definition eval_if (t : tree_t) : E unit :=
  e <- tree_value t ;;
  cond <- eval_expr e ;;
  match folded_bool cond with
  | None => eval_error
  | Some cond_b =>
      if cond_b then eval_stmts (t_stmts t)
      else eval_stmts (t_else_stmts t)
  end.

(** The loop of [eval_case] over the associations. *)
Fixpoint eval_case_assocs (value_int : Z) (assocs : list tree_t) : E unit :=
  match assocs with
  | [] => ret tt
  | a :: rest =>
      match tree_subkind a with
      | A_NAMED =>
          name <- tree_name a ;;
          c <- eval_expr name ;;
          match folded_int c with
          | None => eval_error
          | Some cmp =>
              if cmp =? value_int then s <- tree_value a ;; eval_stmt s
              else eval_case_assocs value_int rest
          end
      | A_OTHERS =>
          s <- tree_value a ;;
          eval_stmt s ;;;
          eval_case_assocs value_int rest
      | _ => abort
      end
  end.

Definition eval_case (t : tree_t) : E unit :=
  value <- tree_value t ;;
  ty <- tree_type value ;;
  if type_is_array ty then eval_error
  else
    x <- eval_expr value ;;
    match folded_int x with
    | None => eval_error
    | Some value_int => eval_case_assocs value_int (t_assocs t)
    end.

(** The [while] loop of [eval_while], entered with the counter at [iters].
    [n] bounds the rounds of the embedding; the value returned is the
    number of times the loop has run the body (line 543 of the source). *)
Fixpoint while_loop (t : tree_t) (n : nat) (iters : Z) : E nat :=
  match n with
  | O => out_of_fuel
  | S n' =>
      v <- get ;;
      match result v with
      | Some _ => ret O
      | None =>
          cond_b <- match t_value t with
                    | None => ret (Some true)
                    | Some value => cond <- eval_expr value ;; ret (folded_bool cond)
                    end ;;
          match cond_b with
          | None => eval_error ;;; ret O
          | Some cond_b =>
              v <- get ;;
              if negb cond_b || failed v then ret O
              else if iters + 1 =? MAX_ITERS then
                modify (set_failed true) ;;; ret O
              else
                eval_stmts (t_stmts t) ;;;
                v <- get ;;
                match exit v with
                | Some e =>
                    label <- tree_ident t ;;
                    (if ident_eq e label then modify (set_exit None) else ret tt) ;;;
                    ret 1%nat
                | None =>
                    k <- while_loop t n' (iters + 1) ;;
                    ret (Datatypes.S k)
                end
          end
      end
  end.

Definition eval_while (t : tree_t) : E unit :=
  while_loop t (Z.to_nat MAX_ITERS) 0 ;;; ret tt.

(** The [do ... while] loop of [eval_for], entered with the loop variable
    at [ival]; [n] bounds the rounds of the embedding.  Stepping past the
    end of the 64-bit range wraps around. *)
Fixpoint for_loop (t idecl left : tree_t) (kind : range_kind_t) (righti : Z)
                  (n : nat) (ival : Z) : E unit :=
  match n with
  | O => out_of_fuel
  | S n' =>
      name <- tree_ident idecl ;;
      vtable_bind name (get_int_lit left ival) ;;;
      eval_stmts (t_stmts t) ;;;
      if ival =? righti then ret tt
      else
        let ival := wrap64 (ival + match kind with RANGE_TO => 1 | _ => -1 end) in
        v <- get ;;
        match result v with
        | None => for_loop t idecl left kind righti n' ival
        | Some _ => ret tt
        end
  end.

(** The number of values from [lefti] to [righti] in the direction of the
    range, in 64-bit arithmetic: the loop variable reaches [righti] within
    that many rounds. *)
Definition for_rounds (kind : range_kind_t) (lefti righti : Z) : nat :=
  Datatypes.S (Z.to_nat (match kind with
                         | RANGE_TO => (righti - lefti) mod 2 ^ 64
                         | _ => (lefti - righti) mod 2 ^ 64
                         end)).

Definition eval_for (t : tree_t) : E unit :=
  r <- tree_range t ;;
  match r_kind r with
  | RANGE_EXPR => modify (set_failed true)
  | kind =>
      left <- eval_expr (r_left r) ;;
      right <- eval_expr (r_right r) ;;
      match folded_int left, folded_int right with
      | Some lefti, Some righti =>
          if match kind with
             | RANGE_TO => lefti >? righti
             | RANGE_DOWNTO => righti <? lefti
             | RANGE_EXPR => false
             end
          then ret tt
          else
            idecl <- tree_decl t 0 ;;
            for_loop t idecl left kind righti (for_rounds kind lefti righti) lefti
      | _, _ => modify (set_failed true)
      end
  end.

Definition eval_var_assign (t : tree_t) : E unit :=
  target <- tree_target t ;;
  match tree_kind target with
  | T_REF =>
      value <- tree_value t ;;
      updated <- eval_expr value ;;
      if negb (folded updated) then eval_error
      else
        decl <- tree_ref target ;;
        name <- tree_ident decl ;;
        vtable_bind name updated
  | _ => eval_error
  end.

Definition eval_block (t : tree_t) : E unit :=
  assert (tree_decls t =? 0)%nat ;;;
  eval_stmts (t_stmts t).

Definition eval_exit (t : tree_t) : E unit :=
  match t_value t with
  | Some value =>
      cond <- eval_expr value ;;
      match folded_bool cond with
      | None => eval_error
      | Some cond_b =>
          if negb cond_b then ret tt
          else label <- tree_ident2 t ;; modify (set_exit (Some label))
      end
  | None => label <- tree_ident2 t ;; modify (set_exit (Some label))
  end.

Definition eval_stmt_body (t : tree_t) : E unit :=
  match tree_kind t with
  | T_RETURN => eval_return t
  | T_WHILE => eval_while t
  | T_FOR => eval_for t
  | T_IF => eval_if t
  | T_VAR_ASSIGN => eval_var_assign t
  | T_BLOCK => eval_block t
  | T_EXIT => eval_exit t
  | T_CASE => eval_case t
  | _ => eval_error
  end.

End Evaluator.

(** The two mutually recursive entry points; [fuel] bounds the depth of
    nested calls of [eval_expr] and [eval_stmt]. *)
Fixpoint eval_expr (fuel : nat) (t : tree_t) {struct fuel} : E tree_t :=
  match fuel with
  | O => out_of_fuel
  | S f => eval_expr_body (eval_expr f) (eval_stmt f) t
  end
with eval_stmt (fuel : nat) (t : tree_t) {struct fuel} : E unit :=
  match fuel with
  | O => out_of_fuel
  | S f => eval_stmt_body (eval_expr f) (eval_stmt f) t
  end.

Definition vt_init : vtable_t := VTable [] false None None.

(** [eval(fcall)]; the [NVC_EVAL_DEBUG] switch only gates warnings. *)
Definition eval (fuel : nat) (fcall : tree_t) : outcome tree_t :=
  match tree_kind fcall with
  | T_FCALL =>
      match eval_fcall (eval_expr fuel) (eval_stmt fuel) fcall vt_init with
      | Done (r, vt) => Done (if failed vt then fcall else r)
      | Fatal => Fatal
      | OutOfFuel => OutOfFuel
      end
  | _ => Fatal
  end.

(* ================================================================= *)
(** * The bounds checker (part_001) *)

(** The arguments of a diagnostic, before [error_at] formats them. *)
Inductive fmt_arg : Type :=
| ArgInt (i : Z)
| ArgStr (s : string)
| ArgReal (d : float).

Record diag_t : Type := Diag {
  diag_loc : loc_t;
  diag_fmt : string;
  diag_args : list fmt_arg
}.

(** The state of the checker: the counter [errors] and what [error_at] has
    been handed so far, oldest first. *)
Record bounds_t : Type := Bounds {
  errors : Z;
  reported : list diag_t
}.

Definition B (A : Type) : Type := M bounds_t A.

(** The [bounds_error] macro. *)
Definition bounds_error (t : tree_t) (fmt : string) (args : list fmt_arg) : B unit :=
  modify (fun s => Bounds (errors s + 1) (reported s ++ [Diag (tree_loc t) fmt args])).

(** inttypes.h: the conversion of an [int64_t]. *)
Definition PRIi64 : string := "li".

Definition nl : string := String (ascii_of_nat 10) EmptyString.

(** The decimal text [printf] gives an integer. *)
Definition string_of_Z (z : Z) : string := NilZero.string_of_int (Z.to_int z).

Definition dir_str (kind : range_kind_t) : string :=
  match kind with RANGE_TO => "to" | _ => "downto" end.

Definition is_to (kind : range_kind_t) : bool :=
  match kind with RANGE_TO => true | _ => false end.

Definition is_downto (kind : range_kind_t) : bool :=
  match kind with RANGE_DOWNTO => true | _ => false end.

Definition is_kind_ref (t : tree_t) : bool :=
  match tree_kind t with T_REF => true | _ => false end.

Definition is_kind_literal (t : tree_t) : bool :=
  match tree_kind t with T_LITERAL => true | _ => false end.

(** Modelled from the spec: tree.h is not among the sources; the attributes
    of a node are a small mapping from attribute name to value, so adding
    an attribute replaces the value the name had. *)
Fixpoint set_attr (name : ident_t) (a : attr_t) (l : list (ident_t * attr_t))
  : list (ident_t * attr_t) :=
  match l with
  | [] => [(name, a)]
  | (n, x) :: rest =>
      if ident_eq n name then (n, a) :: rest else (n, x) :: set_attr name a rest
  end.

Definition tree_add_attr_int (t : tree_t) (name : ident_t) (n : Z) : tree_t :=
  match t with
  | Tree k sk loc id id2 iv dv pos attrs ty value target name' ref range
         params ports decls stmts else_stmts assocs chars waveforms =>
      Tree k sk loc id id2 iv dv pos (set_attr name (A_INT n) attrs) ty value
           target name' ref range params ports decls stmts else_stmts assocs
           chars waveforms
  end.

Definition bounds_check_string_literal (t : tree_t) : B unit :=
  type <- tree_type t ;;
  if type_is_unconstrained type then ret tt
  else
    r <- type_dim type 0 ;;
    match folded_length r with
    | Some expect =>
        if negb (expect =? Z.of_nat (tree_chars t)) then
          bounds_error t ("expected %" ++ PRIi64 ++ " elements in string literal but "
                          ++ "have %d")
                       [ArgInt expect; ArgInt (Z.of_nat (tree_chars t))]
        else ret tt
    | None => ret tt
    end.

Definition bounds_check_literal (t : tree_t) : B unit :=
  match tree_subkind t with
  | L_STRING => bounds_check_string_literal t
  | _ => ret tt
  end.

(** One round of the loop over the dimensions in
    [bounds_check_call_args]. *)
Definition bounds_check_call_dim (param : tree_t) (ftype atype : type_t)
                                 (ndims j : nat) : B unit :=
  formal_r <- type_dim ftype j ;;
  actual_r <- type_dim atype j ;;
  match folded_int (r_left formal_r), folded_int (r_right formal_r),
        folded_int (r_left actual_r), folded_int (r_right actual_r) with
  | Some f_left, Some f_right, Some a_left, Some a_right =>
      let f_len := wrap32 (if is_to (r_kind actual_r)
                           then a_right - a_left + 1 else a_left - a_right + 1) in
      let a_len := wrap32 (if is_to (r_kind formal_r)
                           then f_right - f_left + 1 else f_left - f_right + 1) in
      if negb (f_len =? a_len) then
        if (1 <? ndims)%nat then
          bounds_error param ("actual length %d for dimension %d does "
                              ++ "not match formal length %d")
                       [ArgInt a_len; ArgInt (Z.of_nat j + 1); ArgInt f_len]
        else
          bounds_error param ("actual length %d does not match formal "
                              ++ "length %d")
                       [ArgInt a_len; ArgInt f_len]
      else ret tt
  | _, _, _, _ => ret tt
  end.

(** One round of the loop over the parameters. *)
Definition bounds_check_call_arg (t decl : tree_t) (i : nat) : B unit :=
  param <- tree_param t i ;;
  assert (match tree_subkind param with P_POS => true | _ => false end) ;;;
  value <- tree_value param ;;
  port <- tree_port decl (Z.to_nat (tree_pos param)) ;;
  ftype <- tree_type port ;;
  atype <- tree_type value ;;
  if type_is_array ftype then
    if type_is_unconstrained atype || type_is_unconstrained ftype then ret tt
    else
      let ndims := type_dims ftype in
      for_each (seq 0 ndims) (bounds_check_call_dim param ftype atype ndims)
  else if type_is_integer ftype then
    match folded_int value with
    | None => ret tt
    | Some ival =>
        r <- type_dim ftype 0 ;;
        match folded_bounds r with
        | None => ret tt
        | Some (low, high) =>
            if (ival <? low) || (ival >? high) then
              name <- tree_ident port ;;
              bounds_error value ("value %" ++ PRIi64 ++ " out of bounds %" ++ PRIi64
                                  ++ " %s " ++ "%" ++ PRIi64 ++ " for parameter %s")
                           [ArgInt ival;
                            ArgInt (if is_to (r_kind r) then low else high);
                            ArgStr (if is_to (r_kind r) then "to" else "downto");
                            ArgInt (if is_to (r_kind r) then high else low);
                            ArgStr (istr name)]
            else ret tt
        end
    end
  else ret tt.

Definition bounds_check_call_args (t : tree_t) : B tree_t :=
  decl <- tree_ref t ;;
  let nparams := tree_params t in
  let nports := tree_ports decl in
  for_each (seq 0 (Nat.min nparams nports)) (bounds_check_call_arg t decl) ;;;
  ret t.

(** The name a diagnostic gives the array: [NULL] unless the prefix is a
    plain reference. *)
Definition array_name (value : tree_t) : B (option string) :=
  if is_kind_ref value then name <- tree_ident value ;; ret (Some (istr name))
  else ret None.

Definition name_args (name : option string) : list fmt_arg :=
  match name with
  | Some n => [ArgStr n; ArgStr " "]
  | None => [ArgStr ""; ArgStr ""]
  end.

(** One round of the loop of [bounds_check_array_ref]; the result is the
    new value of [nstatic]. *)
Definition bounds_check_index (t value : tree_t) (value_type : type_t)
                              (nstatic : nat) (i : nat) : B nat :=
  p <- tree_param t i ;;
  e <- tree_value p ;;
  match folded_int e with
  | None => ret nstatic
  | Some index =>
      b <- type_dim value_type i ;;
      match r_kind b with
      | RANGE_EXPR => ret nstatic
      | _ =>
          match folded_int (r_left b), folded_int (r_right b) with
          | Some lft, Some rgt =>
              let low := if is_to (r_kind b) then lft else rgt in
              let high := if is_to (r_kind b) then rgt else lft in
              if (index <? low) || (index >? high) then
                name <- array_name value ;;
                bounds_error t ("array %s%sindex %" ++ PRIi64 ++ " out of bounds "
                                ++ "%" ++ PRIi64 ++ " %s %" ++ PRIi64)
                             (name_args name ++
                              [ArgInt index; ArgInt lft;
                               ArgStr (dir_str (r_kind b)); ArgInt rgt]) ;;;
                ret nstatic
              else ret (S nstatic)
          | _, _ => ret nstatic
          end
      end
  end.

(** A loop that carries one local variable from round to round. *)
Fixpoint fold_each {S A C : Type} (l : list A) (acc : C) (body : C -> A -> M S C)
  : M S C :=
  match l with
  | [] => ret acc
  | x :: rest => acc' <- body acc x ;; fold_each rest acc' body
  end.

(** The node is returned with the attribute it may have been given. *)
Definition bounds_check_array_ref (t : tree_t) : B tree_t :=
  value <- tree_value t ;;
  if negb (tree_has_type value) then ret t
  else
    value_type <- tree_type value ;;
    if type_is_unconstrained value_type then ret t
    else
      let nparams := tree_params t in
      nstatic <- fold_each (seq 0 nparams) O (bounds_check_index t value value_type) ;;
      if (nstatic =? nparams)%nat then ret (tree_add_attr_int t elide_bounds_i 1)
      else ret t.

(** Where the source prints a variable it has not assigned, the embedding
    prints zero. *)
Definition bounds_check_array_slice (t : tree_t) : B unit :=
  value <- tree_value t ;;
  if negb (tree_has_type value) then ret tt
  else
    value_type <- tree_type value ;;
    if type_is_unconstrained value_type then ret tt
    else
      b <- type_dim value_type 0 ;;
      r <- tree_range t ;;
      match r_kind b, r_kind r with
      | RANGE_EXPR, _ => ret tt
      | _, RANGE_EXPR => ret tt
      | _, _ =>
          let left_error :=
            match folded_int (r_left b), folded_int (r_left r) with
            | Some b_left, Some r_left =>
                (is_to (r_kind b) && (r_left <? b_left))
                || (is_downto (r_kind b) && (r_left >? b_left))
            | _, _ => false
            end in
          let right_error :=
            match folded_int (r_right b), folded_int (r_right r) with
            | Some b_right, Some r_right =>
                (is_to (r_kind b) && (r_right >? b_right))
                || (is_downto (r_kind b) && (r_right <? b_right))
            | _, _ => false
            end in
          if left_error || right_error then
            name <- array_name value ;;
            let val (e : tree_t) := match folded_int e with Some x => x | None => 0 end in
            bounds_error t ("%s%sslice %s index %" ++ PRIi64 ++ " out of bounds "
                            ++ "%" ++ PRIi64 ++ " %s %" ++ PRIi64)
                         (name_args name ++
                          [ArgStr (if left_error then "left" else "right");
                           ArgInt (if left_error then val (r_left r) else val (r_right r));
                           ArgInt (val (r_left b));
                           ArgStr (dir_str (r_kind b));
                           ArgInt (val (r_right b))])
          else ret tt
      end.

Definition bounds_within (i : tree_t) (kind : range_kind_t) (what : string)
                         (low high : Z) : B unit :=
  match folded_int i with
  | Some folded =>
      if (folded <? low) || (folded >? high) then
        bounds_error i ("%s index %" ++ PRIi64 ++ " out of bounds %" ++ PRIi64
                        ++ " %s %" ++ PRIi64)
                     [ArgStr what; ArgInt folded;
                      ArgInt (if is_to kind then low else high);
                      ArgStr (if is_to kind then "to" else "downto");
                      ArgInt (if is_to kind then high else low)]
      else ret tt
  | None => ret tt
  end.

(** The local variables of the first loop of [bounds_check_aggregate]. *)
Record agg_count : Type := AggCount { known_elem_count : bool; nelems : Z }.

Definition bounds_check_agg_assoc (type_r : range_t) (low high : Z)
                                  (c : agg_count) (a : tree_t) : B agg_count :=
  match tree_subkind a with
  | A_NAMED =>
      name <- tree_name a ;;
      bounds_within name (r_kind type_r) "aggregate" low high ;;;
      ret (AggCount (known_elem_count c) (wrap32 (nelems c + 1)))
  | A_RANGE =>
      r <- tree_range a ;;
      bounds_within (r_left r) (r_kind r) "aggregate" low high ;;;
      bounds_within (r_right r) (r_kind r) "aggregate" low high ;;;
      match folded_length r with
      | Some length => ret (AggCount (known_elem_count c) (wrap32 (nelems c + length)))
      | None => ret (AggCount false (nelems c))
      end
  | A_OTHERS => ret (AggCount false (nelems c))
  | _ => ret (AggCount (known_elem_count c) (wrap32 (nelems c + 1)))
  end.

(** The second loop of [bounds_check_aggregate]; [length] is [-1] until the
    first sub-aggregate has been measured, and the loop ends at the first
    sub-aggregate whose length does not fold. *)
Fixpoint bounds_check_sub_aggregates (assocs : list tree_t) (length : Z) : B unit :=
  match assocs with
  | [] => ret tt
  | a :: rest =>
      value <- tree_value a ;;
      value_type <- tree_type value ;;
      r <- type_dim value_type 0 ;;
      match folded_length r with
      | None => ret tt
      | Some this_length =>
          if length =? -1 then bounds_check_sub_aggregates rest this_length
          else if negb (length =? this_length) then
            bounds_error a ("length of sub-aggregate %" ++ PRIi64 ++ " does not match "
                            ++ "expected length %" ++ PRIi64)
                         [ArgInt this_length; ArgInt length] ;;;
            bounds_check_sub_aggregates rest length
          else bounds_check_sub_aggregates rest length
      end
  end.

Definition bounds_check_aggregate (t : tree_t) : B unit :=
  type <- tree_type t ;;
  if negb (type_is_array type) then ret tt
  else
    assert (match type_kind type with T_UARRAY => false | _ => true end) ;;;
    type_r <- type_dim type 0 ;;
    let unconstrained := negb (tree_attr_int t unconstrained_i 0 =? 0) in
    bounds <-
      (if unconstrained then
         let base := type_base_recur type in
         assert (match type_kind base with T_UARRAY => true | _ => false end) ;;;
         index <- type_index_constr base 0 ;;
         match type_kind index with
         | T_ENUM => ret None
         | _ =>
             base_r <- type_dim index 0 ;;
             if is_kind_literal (r_left base_r) && is_kind_literal (r_right base_r)
             then b <- range_bounds base_r ;; ret (Some b)
             else ret (Some (- INT64_MAX, INT64_MAX))
         end
       else if is_kind_literal (r_left type_r) && is_kind_literal (r_right type_r)
       then b <- range_bounds type_r ;; ret (Some b)
       else ret (Some (- INT64_MAX, INT64_MAX))) ;;
    match bounds with
    | None => ret tt
    | Some (low, high) =>
        if (low =? - INT64_MAX) && (high =? INT64_MAX) then ret tt
        else
          c <- fold_each (t_assocs t) (AggCount true 0)
                         (bounds_check_agg_assoc type_r low high) ;;
          let ndims := type_dims type in
          (if known_elem_count c then
             r <- type_dim type 0 ;;
             match folded_length r with
             | Some expect =>
                 if negb (expect =? nelems c) then
                   bounds_error t ("expected %" ++ PRIi64
                                   ++ " elements in aggregate but have %d")
                                [ArgInt expect; ArgInt (nelems c)]
                 else ret tt
             | None => ret tt
             end
           else ret tt) ;;;
          if (1 <? ndims)%nat && unconstrained
          then bounds_check_sub_aggregates (t_assocs t) (-1)
          else ret tt
    end.

(** One round of the loop of [bounds_check_decl]. *)
Definition bounds_check_decl_dim (type : type_t) (i : nat) : B unit :=
  dim <- type_dim type i ;;
  cons <- tree_type (r_left dim) ;;
  match type_kind cons with
  | T_ENUM => ret tt
  | _ =>
      bounds <- type_dim cons 0 ;;
      match folded_int (r_left dim), folded_int (r_left bounds),
            folded_int (r_right dim), folded_int (r_right bounds) with
      | Some dim_left, Some bounds_left, Some dim_right, Some bounds_right =>
          let is_null :=
            (is_to (r_kind dim) && (dim_left >? dim_right))
            || (is_downto (r_kind dim) && (dim_left <? dim_right)) in
          if negb is_null then
            (if dim_left <? bounds_left then
               bounds_error (r_left dim) ("left index %" ++ PRIi64 ++ " violates "
                                          ++ "constraint %s")
                            [ArgInt dim_left; ArgStr (type_pp cons)]
             else ret tt) ;;;
            (if dim_right >? bounds_right then
               bounds_error (r_right dim) ("right index %" ++ PRIi64 ++ " violates "
                                           ++ "constraint %s")
                            [ArgInt dim_right; ArgStr (type_pp cons)]
             else ret tt)
          else ret tt
      | _, _, _, _ => ret tt
      end
  end.

Definition bounds_check_decl (t : tree_t) : B unit :=
  type <- tree_type t ;;
  if type_is_array type
     && match type_kind type with T_UARRAY => false | _ => true end
  then for_each (seq 0 (type_dims type)) (bounds_check_decl_dim type)
  else ret tt.

(** One round of the first loop of [bounds_check_assignment]. *)
Definition bounds_check_assign_dim (value : tree_t) (target_type value_type : type_t)
                                   (i : nat) : B unit :=
  target_r <- type_dim target_type i ;;
  match folded_length target_r with
  | None => ret tt
  | Some target_w =>
      value_r <- type_dim value_type i ;;
      match folded_length value_r with
      | None => ret tt
      | Some value_w =>
          if negb (target_w =? value_w) then
            if (0 <? i)%nat then
              bounds_error value ("length of dimension %d of value %" ++ PRIi64
                                  ++ " does not match length of target %" ++ PRIi64)
                           [ArgInt (Z.of_nat i + 1); ArgInt value_w; ArgInt target_w]
            else
              bounds_error value ("length of value %" ++ PRIi64 ++ " does not "
                                  ++ "match length of target %" ++ PRIi64)
                           [ArgInt value_w; ArgInt target_w]
          else ret tt
      end
  end.

Definition bounds_check_assignment (target value : tree_t) : B unit :=
  target_type <- tree_type target ;;
  value_type <- tree_type value ;;
  let check_array_length :=
    type_is_array target_type
    && negb (type_is_unconstrained target_type)
    && negb (type_is_unconstrained value_type) in
  (if check_array_length then
     for_each (seq 0 (type_dims target_type))
              (bounds_check_assign_dim value target_type value_type)
   else ret tt) ;;;
  let check_scalar_subtype_range :=
    negb (type_is_array target_type)
    && negb (type_is_record target_type)
    && match type_kind target_type with T_SUBTYPE => true | _ => false end in
  if check_scalar_subtype_range then
    r <- type_dim target_type 0 ;;
    match folded_int value, folded_int (r_left r), folded_int (r_right r) with
    | Some ivalue, Some lft, Some rgt =>
        match r_kind r with
        | RANGE_TO =>
            if (ivalue <? lft) || (ivalue >? rgt) then
              bounds_error value ("value %" ++ PRIi64 ++ " out of target bounds %"
                                  ++ PRIi64 ++ " to %" ++ PRIi64)
                           [ArgInt ivalue; ArgInt lft; ArgInt rgt]
            else ret tt
        | RANGE_DOWNTO =>
            if (ivalue >? lft) || (ivalue <? rgt) then
              bounds_error value ("value %" ++ PRIi64 ++ " out of target bounds %"
                                  ++ PRIi64 ++ " downto %" ++ PRIi64)
                           [ArgInt ivalue; ArgInt lft; ArgInt rgt]
            else ret tt
        | RANGE_EXPR => ret tt
        end
    | _, _, _ => ret tt
    end ;;;
    match folded_enum value, folded_enum (r_left r), folded_enum (r_right r) with
    | Some pos, Some lft, Some rgt =>
        let value_base := type_base_recur value_type in
        let target_base := type_base_recur target_type in
        value_lit <- type_enum_literal value_base (Z.to_nat pos) ;;
        left_lit <- type_enum_literal target_base (Z.to_nat lft) ;;
        right_lit <- type_enum_literal target_base (Z.to_nat rgt) ;;
        match r_kind r with
        | RANGE_TO =>
            if (pos <? lft) || (pos >? rgt) then
              vn <- tree_ident value_lit ;;
              ln <- tree_ident left_lit ;;
              rn <- tree_ident right_lit ;;
              bounds_error value "value %s out of target bounds %s to %s"
                           [ArgStr (istr vn); ArgStr (istr ln); ArgStr (istr rn)]
            else ret tt
        | RANGE_DOWNTO =>
            if (pos >? lft) || (pos <? rgt) then
              vn <- tree_ident value_lit ;;
              ln <- tree_ident left_lit ;;
              rn <- tree_ident right_lit ;;
              bounds_error value ("value %s out of target bounds %s "
                                  ++ "downto %s")
                           [ArgStr (istr vn); ArgStr (istr ln); ArgStr (istr rn)]
            else ret tt
        | RANGE_EXPR => ret tt
        end
    | _, _, _ => ret tt
    end
  else ret tt.

Definition bounds_check_signal_assign (t : tree_t) : B unit :=
  target <- tree_target t ;;
  for_each (t_waveforms t) (fun w =>
    value <- tree_value w ;;
    bounds_check_assignment target value).

Definition bounds_check_var_assign (t : tree_t) : B unit :=
  target <- tree_target t ;;
  value <- tree_value t ;;
  bounds_check_assignment target value.

(** ** Case statements *)

(** A node of the covered-interval list; [next] is the rest of the list. *)
Record interval_t : Type := Interval { i_low : Z; i_high : Z }.

(** The list is returned as the call leaves it behind [*isp]: the walk
    stops at the first interval that starts above [high], and a new node is
    linked in front of that interval. *)
Fixpoint bounds_case_cover (isp : list interval_t) (t : tree_t) (low high : Z)
  : B (list interval_t) :=
  match isp with
  | [] => ret [Interval low high]
  | it :: next =>
      if i_low it <=? high then
        if (low <=? i_high it) && (i_low it <=? high) then
          let rlow := MAX low (i_low it) in
          let rhigh := MIN high (i_high it) in
          (if rlow =? rhigh then
             bounds_error t ("value %" ++ PRIi64 ++ " is already covered") [ArgInt rlow]
           else
             bounds_error t ("range %" ++ PRIi64 ++ " to %" ++ PRIi64
                             ++ " is already covered")
                          [ArgInt rlow; ArgInt rhigh]) ;;;
          ret isp
        else if high =? wrap64 (i_low it - 1) then
          ret (Interval low (i_high it) :: next)
        else if low =? wrap64 (i_high it + 1) then
          ret (Interval (i_low it) high :: next)
        else
          next' <- bounds_case_cover next t low high ;;
          ret (it :: next')
      else ret (Interval low high :: isp)
  end.

(** [tb] is the text the buffer holds; the result is the text after the
    [tb_printf]. *)
Definition bounds_fmt_case_missing (tb : string) (low high : Z) : string :=
  if low =? high then tb ++ nl ++ "    " ++ string_of_Z low
  else tb ++ nl ++ "    " ++ string_of_Z low ++ " to " ++ string_of_Z high.

Definition set_nth {A : Type} (n : nat) (x : A) (l : list A) : list A :=
  firstn n l ++ match skipn n l with [] => [] | _ :: rest => x :: rest end.

(** The positions [low], [low + 1], ..., [high] of an [unsigned] loop. *)
Definition positions (low high : Z) : list Z :=
  map (fun k => low + Z.of_nat k) (seq 0 (Z.to_nat (high - low + 1))).

(** The loop over the literals for one named choice of an enumeration
    case; [have] is the presence bitmap. *)
Definition bounds_case_enum_choice (a : tree_t) (base : type_t) (low : Z)
                                   (name : ident_t) (have : list bool) (j : Z)
  : B (list bool) :=
  lit <- type_enum_literal base (Z.to_nat j) ;;
  id <- tree_ident lit ;;
  if ident_eq id name then
    h <- expect (nth_error have (Z.to_nat (j - low))) ;;
    if h : bool then
      choice <- tree_name a ;;
      bounds_error choice ("choice %s appears multiple times "
                           ++ "in case statement") [ArgStr (istr name)] ;;;
      ret have
    else ret (set_nth (Z.to_nat (j - low)) true have)
  else ret have.

Definition bounds_check_case_enum (t : tree_t) (type : type_t) : B unit :=
  range <-
    match type_kind type with
    | T_SUBTYPE =>
        assert (type_dims type =? 1)%nat ;;;
        r <- type_dim type 0 ;;
        assert (is_to (r_kind r)) ;;;
        if negb (is_kind_ref (r_left r)) || negb (is_kind_ref (r_right r))
        then ret None
        else
          ldecl <- tree_ref (r_left r) ;;
          rdecl <- tree_ref (r_right r) ;;
          assert (match tree_kind ldecl with T_ENUM_LIT => true | _ => false end) ;;;
          assert (match tree_kind rdecl with T_ENUM_LIT => true | _ => false end) ;;;
          let low := tree_pos ldecl in
          let high := tree_pos rdecl in
          ret (Some (low, high, (high - low + 1) mod 2 ^ 32))
    | _ =>
        let nlits := Z.of_nat (type_enum_literals type) in
        ret (Some (0, (nlits - 1) mod 2 ^ 32, nlits))
    end ;;
  match range with
  | None => ret tt
  | Some (low, high, nlits) =>
      let base := type_base_recur type in
      '(have, have_others) <-
        fold_each (t_assocs t) (repeat false (Z.to_nat nlits), false)
          (fun '(have, have_others) a =>
             match tree_subkind a with
             | A_OTHERS => ret (have, true)
             | _ =>
                 choice <- tree_name a ;;
                 name <- tree_ident choice ;;
                 have' <- fold_each (positions low high) have
                                    (bounds_case_enum_choice a base low name) ;;
                 ret (have', have_others)
             end) ;;
      for_each (positions low high) (fun i =>
        h <- expect (nth_error have (Z.to_nat (i - low))) ;;
        if negb h && negb have_others then
          lit <- type_enum_literal base (Z.to_nat i) ;;
          id <- tree_ident lit ;;
          bounds_error t "missing choice %s in case statement" [ArgStr (istr id)]
        else ret tt)
  end.

(** The local variables of the loop over the choices of an integer case. *)
Record case_cover : Type := CaseCover {
  have_others : bool;
  covered : list interval_t
}.

Definition bounds_case_int_choice (type : type_t) (tlow thigh : Z)
                                  (c : case_cover) (a : tree_t) : B case_cover :=
  match tree_subkind a with
  | A_OTHERS => ret (CaseCover true (covered c))
  | sk =>
      '(low, high) <-
        match sk with
        | A_NAMED =>
            name <- tree_name a ;;
            x <- assume_int name ;;
            ret (x, x)
        | A_RANGE =>
            r <- tree_range a ;;
            assert (is_to (r_kind r)) ;;;
            low <- assume_int (r_left r) ;;
            high <- assume_int (r_right r) ;;
            ret (low, high)
        | _ => ret (INT64_MIN, INT64_MAX)
        end ;;
      if (low <? tlow) || (high >? thigh) then
        bounds_error a ("value %" ++ PRIi64 ++ " outside %s bounds %" ++ PRIi64
                        ++ " to %" ++ PRIi64)
                     [ArgInt (if low <? tlow then low else high);
                      ArgStr (type_pp type); ArgInt tlow; ArgInt thigh] ;;;
        ret c
      else
        covered' <- bounds_case_cover (covered c) a low high ;;
        ret (CaseCover (have_others c) covered')
  end.

(** The walk over the covered intervals: the text buffer, the flag
    [missing] and the variable [walk] after the loop. *)
Fixpoint bounds_case_walk (covered : list interval_t) (tb : string)
                          (missing : bool) (walk : Z) : string * bool * Z :=
  match covered with
  | [] => (tb, missing, walk)
  | it :: next =>
      let '(tb, missing) :=
        if negb (i_low it =? walk)
        then (bounds_fmt_case_missing tb walk (wrap64 (i_low it - 1)), true)
        else (tb, missing) in
      bounds_case_walk next tb missing (wrap64 (i_high it + 1))
  end.

Definition bounds_check_case_int (t : tree_t) (type : type_t) : B unit :=
  r <- type_dim type 0 ;;
  match folded_bounds r with
  | None => ret tt
  | Some (tlow, thigh) =>
      c <- fold_each (t_assocs t) (CaseCover false [])
                     (bounds_case_int_choice type tlow thigh) ;;
      if negb (have_others c) then
        let tb := "case choices do not cover the following "
                  ++ "values of " ++ type_pp type ++ ":" in
        let '(tb, missing, walk) := bounds_case_walk (covered c) tb false tlow in
        let '(tb, missing) :=
          if negb (walk =? wrap64 (thigh + 1))
          then (bounds_fmt_case_missing tb walk thigh, true)
          else (tb, missing) in
        if missing then bounds_error t "%s" [ArgStr tb] else ret tt
      else ret tt
  end.

(** The loop over the choices of an array case: the new value of [have]. *)
Definition bounds_case_array_choice (expect : Z) (have : Z) (a : tree_t) : B Z :=
  match tree_subkind a with
  | A_OTHERS => ret expect
  | A_NAMED => ret (wrap64 (have + 1))
  | A_RANGE => abort
  | _ => ret have
  end.

Definition bounds_check_case_array (t : tree_t) (type : type_t) : B unit :=
  elem <- type_elem type ;;
  elemsz <-
    match type_kind elem with
    | T_SUBTYPE | T_CARRAY | T_INTEGER =>
        r <- type_dim elem 0 ;;
        match folded_bounds r with
        | None => ret None
        | Some (low, high) => ret (Some (wrap64 (high - low + 1)))
        end
    | T_ENUM => ret (Some (Z.of_nat (type_enum_literals elem)))
    | _ => ret None
    end ;;
  match elemsz with
  | None => ret tt
  | Some elemsz =>
      r <- type_dim type 0 ;;
      match folded_length r with
      | None => ret tt
      | Some length =>
          let expect := if elemsz >? INT32_MAX then INT64_MAX else ipow elemsz length in
          have <- fold_each (t_assocs t) 0 (bounds_case_array_choice expect) ;;
          if negb (have =? expect) then
            if expect =? INT64_MAX then
              bounds_error t "choices do not cover all possible values" []
            else
              bounds_error t ("choices cover only %" ++ PRIi64 ++ " of %" ++ PRIi64
                              ++ " possible values")
                           [ArgInt have; ArgInt expect]
          else ret tt
      end
  end.

Definition bounds_check_case (t : tree_t) : B unit :=
  value <- tree_value t ;;
  type <- tree_type value ;;
  if type_is_enum type then bounds_check_case_enum t type
  else if type_is_integer type then bounds_check_case_int t type
  else if type_is_array type then bounds_check_case_array t type
  else ret tt.

(** [(int64_t)rval] keeps the low 64 bits of the truncated value; the text
    of the argument is kept as the number it prints. *)
Definition bounds_check_type_conv (t : tree_t) : B unit :=
  p <- tree_param t 0 ;;
  value <- tree_value p ;;
  from <- tree_type value ;;
  to <- tree_type t ;;
  if type_is_integer to then
    let folded :=
      if type_is_real from then
        match folded_real value with
        | Some rval => Some (wrap64 (trunc_double rval), ArgReal rval)
        | None => None
        end
      else if type_is_integer from then
        match folded_int value with
        | Some ival => Some (ival, ArgInt ival)
        | None => None
        end
      else None in
    match folded with
    | Some (ival, argstr) =>
        r <- type_dim to 0 ;;
        match folded_bounds r with
        | Some (b_low, b_high) =>
            if (ival <? b_low) || (ival >? b_high) then
              bounds_error value ("type conversion argument %s out of "
                                  ++ "bounds %" ++ PRIi64 ++ " to %" ++ PRIi64)
                           [argstr; ArgInt b_low; ArgInt b_high]
            else ret tt
        | None => ret tt
        end
    | None => ret tt
    end
  else ret tt.

(** Modelled from the spec: the numbering of [predef_attr_t] is in a header
    that is not among the sources; the five attributes that take a
    dimension are [length], [low], [high], [left] and [right]. *)
Definition ATTR_LENGTH : Z := 10.
Definition ATTR_LEFT : Z := 11.
Definition ATTR_LOW : Z := 12.
Definition ATTR_HIGH : Z := 13.
Definition ATTR_RIGHT : Z := 14.

Definition bounds_check_attr_ref (t : tree_t) : B unit :=
  let predef := tree_attr_int t builtin_i (-1) in
  if (predef =? ATTR_LENGTH) || (predef =? ATTR_LOW) || (predef =? ATTR_HIGH)
     || (predef =? ATTR_LEFT) || (predef =? ATTR_RIGHT)
  then
    if (0 <? tree_params t)%nat then
      name <- tree_name t ;;
      type <- tree_type name ;;
      if type_is_array type && negb (type_is_unconstrained type) then
        p <- tree_param t 0 ;;
        dim_tree <- tree_value p ;;
        dim <- expect (folded_int dim_tree) ;;
        if (dim <? 1) || (dim >? Z.of_nat (type_dims type)) then
          bounds_error dim_tree ("invalid dimension %" ++ PRIi64 ++ " for type %s")
                       [ArgInt dim; ArgStr (type_pp type)]
        else ret tt
      else ret tt
    else ret tt
  else ret tt.

(** The node is returned as the check leaves it. *)
Definition bounds_visit_fn (t : tree_t) : B tree_t :=
  match tree_kind t with
  | T_PCALL | T_FCALL => bounds_check_call_args t
  | T_ARRAY_REF => bounds_check_array_ref t
  | T_ARRAY_SLICE => bounds_check_array_slice t ;;; ret t
  | T_AGGREGATE => bounds_check_aggregate t ;;; ret t
  | T_SIGNAL_DECL | T_CONST_DECL | T_VAR_DECL => bounds_check_decl t ;;; ret t
  | T_SIGNAL_ASSIGN => bounds_check_signal_assign t ;;; ret t
  | T_VAR_ASSIGN => bounds_check_var_assign t ;;; ret t
  | T_CASE => bounds_check_case t ;;; ret t
  | T_LITERAL => bounds_check_literal t ;;; ret t
  | T_TYPE_CONV => bounds_check_type_conv t ;;; ret t
  | T_ATTR_REF => bounds_check_attr_ref t ;;; ret t
  | _ => ret t
  end.

(** Modelled from the spec: [tree_visit] is declared in tree.h, which is not
    among the sources.  The visit reaches every node below [t] through the
    child slots of section 3 (a single node or an ordered sequence of
    nodes, and the two ends of a range), children before their parent, and
    calls [fn] once on each; declarations reached through [ref] and the
    trees inside types belong to other parts of the design and are left
    alone.  The result is the tree with every node as [fn] left it. *)
Fixpoint tree_visit (fn : tree_t -> B tree_t) (t : tree_t) {struct t} : B tree_t :=
  match t with
  | Tree k sk loc id id2 iv dv pos attrs ty value target name ref range
         params ports decls stmts else_stmts assocs chars waveforms =>
      let visit_list :=
        fix visit_list (l : list tree_t) : B (list tree_t) :=
          match l with
          | [] => ret []
          | c :: rest =>
              c' <- tree_visit fn c ;;
              rest' <- visit_list rest ;;
              ret (c' :: rest')
          end in
      value' <- match value with
                | Some c => c' <- tree_visit fn c ;; ret (Some c')
                | None => ret None
                end ;;
      target' <- match target with
                 | Some c => c' <- tree_visit fn c ;; ret (Some c')
                 | None => ret None
                 end ;;
      name' <- match name with
               | Some c => c' <- tree_visit fn c ;; ret (Some c')
               | None => ret None
               end ;;
      range' <- match range with
                | Some (Range l r kind) =>
                    l' <- tree_visit fn l ;;
                    r' <- tree_visit fn r ;;
                    ret (Some (Range l' r' kind))
                | None => ret None
                end ;;
      params' <- visit_list params ;;
      ports' <- visit_list ports ;;
      decls' <- visit_list decls ;;
      stmts' <- visit_list stmts ;;
      else_stmts' <- visit_list else_stmts ;;
      assocs' <- visit_list assocs ;;
      chars' <- visit_list chars ;;
      waveforms' <- visit_list waveforms ;;
      fn (Tree k sk loc id id2 iv dv pos attrs ty value' target' name' ref range'
               params' ports' decls' stmts' else_stmts' assocs' chars' waveforms')
  end.

Definition bounds_check (top : tree_t) : B tree_t :=
  tree_visit bounds_visit_fn top.

Definition bounds_errors (s : bounds_t) : Z := errors s.

(* ================================================================= *)
(** * Sample trees *)

(** The trees of the scenarios of section 8 of the specification and of
    the test design of the repository (test/simp/ffold.vhd). *)

Definition node (k : tree_kind_t) (sk : subkind_t) (id id2 : option ident_t)
  (attrs : list (ident_t * attr_t)) (ty : option type_t)
  (value target name ref : option tree_t) (range : option range_t)
  (params ports decls stmts else_stmts assocs : list tree_t) : tree_t :=
  Tree k sk (Loc 0 0) id id2 0 0%float 0 attrs ty value target name ref range
       params ports decls stmts else_stmts assocs [] [].

Definition std_integer : type_t := Type_ T_INTEGER "INTEGER" [] None None [] [].
Definition std_real : type_t := Type_ T_REAL "REAL" [] None None [] [].

Definition lit_int (i : Z) : tree_t :=
  get_int_lit (node T_LITERAL L_INT None None [] (Some std_integer)
                    None None None None None [] [] [] [] [] []) i.

Definition lit_real (r : float) : tree_t :=
  get_real_lit (node T_LITERAL L_REAL None None [] (Some std_real)
                     None None None None None [] [] [] [] [] []) r.

Definition lit_bool (b : bool) : tree_t := get_bool_lit (tree_new T_REF) b.

Definition mk_builtin (name : string) : tree_t :=
  node T_FUNC_DECL L_INT (Some name) None [(builtin_i, A_STRING name)] None
       None None None None None [] [] [] [] [] [].

Definition mk_param (e : tree_t) : tree_t :=
  node T_PARAM P_POS None None [] None (Some e) None None None None
       [] [] [] [] [] [].

Definition mk_fcall (decl : tree_t) (ty : type_t) (args : list tree_t) : tree_t :=
  node T_FCALL L_INT (t_ident decl) None [] (Some ty) None None None (Some decl)
       None (map mk_param args) [] [] [] [] [].

(** A call of the built-in operator [name]. *)
Definition mk_op (name : string) (args : list tree_t) : tree_t :=
  mk_fcall (mk_builtin name) std_integer args.

Definition mk_port (name : string) : tree_t :=
  node T_PORT_DECL L_INT (Some name) None [] (Some std_integer)
       None None None None None [] [] [] [] [] [].

Definition mk_var (name : string) (init : option tree_t) : tree_t :=
  node T_VAR_DECL L_INT (Some name) None [] (Some std_integer) init
       None None None None [] [] [] [] [] [].

Definition mk_ref (decl : tree_t) : tree_t :=
  node T_REF L_INT (t_ident decl) None [] (t_type decl) None None None
       (Some decl) None [] [] [] [] [] [].

Definition mk_func_body (name : string) (ports decls stmts : list tree_t) : tree_t :=
  node T_FUNC_BODY L_INT (Some name) None [] None None None None None None
       [] ports decls stmts [] [].

Definition mk_return (e : tree_t) : tree_t :=
  node T_RETURN L_INT None None [] None (Some e) None None None None
       [] [] [] [] [] [].

Definition mk_if (c : tree_t) (stmts else_stmts : list tree_t) : tree_t :=
  node T_IF L_INT None None [] None (Some c) None None None None
       [] [] [] stmts else_stmts [].

Definition mk_while (label : string) (c : option tree_t) (stmts : list tree_t) : tree_t :=
  node T_WHILE L_INT (Some label) None [] None c None None None None
       [] [] [] stmts [] [].

Definition mk_range (l r : Z) (kind : range_kind_t) : range_t :=
  Range (lit_int l) (lit_int r) kind.

Definition mk_for (label : string) (i : tree_t) (r : range_t) (stmts : list tree_t) : tree_t :=
  node T_FOR L_INT (Some label) None [] None None None None None (Some r)
       [] [] [i] stmts [] [].

Definition mk_assign (target e : tree_t) : tree_t :=
  node T_VAR_ASSIGN L_INT None None [] None (Some e) (Some target) None None None
       [] [] [] [] [] [].

Definition mk_exit (label : string) : tree_t :=
  node T_EXIT L_INT None (Some label) [] None None None None None None
       [] [] [] [] [] [].

Definition mk_null : tree_t := tree_new T_NULL.

Definition mk_assoc (sk : subkind_t) (name : option tree_t) (range : option range_t)
                    (value : tree_t) : tree_t :=
  node T_ASSOC sk None None [] None (Some value) None name None range
       [] [] [] [] [] [].

Definition mk_named (choice : tree_t) (value : tree_t) : tree_t :=
  mk_assoc A_NAMED (Some choice) None value.

Definition mk_ranged (l r : Z) (value : tree_t) : tree_t :=
  mk_assoc A_RANGE None (Some (mk_range l r RANGE_TO)) value.

Definition mk_others (value : tree_t) : tree_t :=
  mk_assoc A_OTHERS None None value.

Definition mk_case (v : tree_t) (assocs : list tree_t) : tree_t :=
  node T_CASE L_INT None None [] None (Some v) None None None None
       [] [] [] [] [] assocs.

Definition mk_subtype (name : string) (base : type_t) (r : range_t) : type_t :=
  Type_ T_SUBTYPE name [r] (Some base) None [] [].

Definition mk_carray (name : string) (dims : list range_t) (elem : type_t) : type_t :=
  Type_ T_CARRAY name dims None (Some elem) [] [].

Definition std_bit : type_t :=
  Type_ T_ENUM "BIT" [] None None
        [node T_ENUM_LIT L_INT (Some "'0'") None [] None None None None None None
              [] [] [] [] [] [];
         node T_ENUM_LIT L_INT (Some "'1'") None [] None None None None None None
              [] [] [] [] [] []] [].

Definition mk_signal (name : string) (ty : type_t) : tree_t :=
  node T_SIGNAL_DECL L_INT (Some name) None [] (Some ty) None None None None None
       [] [] [] [] [] [].

Definition mk_array_ref (v : tree_t) (indexes : list tree_t) : tree_t :=
  node T_ARRAY_REF L_INT None None [] None (Some v) None None None None
       (map mk_param indexes) [] [] [] [] [].

(** [function add1(x : in integer) return integer] of ffold.vhd. *)
Definition port_x : tree_t := mk_port "X".

Definition add1 : tree_t :=
  mk_func_body "ADD1" [port_x] []
    [mk_return (mk_op "add" [mk_ref port_x; lit_int 1])].

(** [function log2(x : in integer) return integer] of ffold.vhd. *)
Definition var_r : tree_t := mk_var "R" (Some (lit_int 0)).
Definition var_c : tree_t := mk_var "C" (Some (lit_int 1)).

Definition log2 : tree_t :=
  mk_func_body "LOG2" [port_x] [var_r; var_c]
    [mk_if (mk_op "leq" [mk_ref port_x; lit_int 1])
       [mk_assign (mk_ref var_r) (lit_int 1)]
       [mk_while "L1" (Some (mk_op "lt" [mk_ref var_c; mk_ref port_x]))
          [mk_assign (mk_ref var_r) (mk_op "add" [mk_ref var_r; lit_int 1]);
           mk_assign (mk_ref var_c) (mk_op "mul" [mk_ref var_c; lit_int 2])]];
     mk_return (mk_ref var_r)].

(** [function case1(x : in integer) return integer] of ffold.vhd. *)
Definition case1 : tree_t :=
  mk_func_body "CASE1" [port_x] []
    [mk_case (mk_ref port_x)
       [mk_named (lit_int 1) (mk_return (lit_int 2));
        mk_named (lit_int 2) (mk_return (lit_int 3));
        mk_others (mk_return (lit_int 5))]].

(* ================================================================= *)
(** * Predicates of the statements below *)

(** [m] keeps the property [P] of the evaluation state, whenever it
    returns. *)
Definition preserves (P : vtable_t -> Prop) {A : Type} (m : E A) : Prop :=
  forall v a v', P v -> m v = Done (a, v') -> P v'.

(** No frame of the stack holds more than [VTABLE_SZ] bindings. *)
Definition frames_ok (v : vtable_t) : Prop :=
  Forall (fun f => (size f <= VTABLE_SZ)%nat) (top v).

(** A function with [n] formal parameters [X1] ... [Xn] that returns the
    first one, and a call of it with [n] integer literals. *)
Definition wide_ports (n : nat) : list tree_t :=
  map (fun i => mk_port ("X" ++ string_of_Z (Z.of_nat i))) (seq 1 n).

Definition wide_func (n : nat) : tree_t :=
  mk_func_body "WIDE" (wide_ports n) []
    [mk_return (mk_ref (mk_port "X1"))].

Definition wide_call (n : nat) : tree_t :=
  mk_fcall (wide_func n) std_integer (map (fun i => lit_int (Z.of_nat i)) (seq 1 n)).

(** [mulri] applied to two integer literals. *)
Definition mulri_call : tree_t := mk_op "mulri" [lit_int 1; lit_int 2].

(** [variable r : integer := 0; for i in l dir h loop r := r + 1; end loop;
    return r;], called without arguments. *)
Definition loop_var_i : tree_t := mk_var "I" None.

Definition count_rounds (l h : Z) (kind : range_kind_t) : tree_t :=
  mk_fcall
    (mk_func_body "COUNT" [] [var_r]
       [mk_for "L2" loop_var_i (mk_range l h kind)
          [mk_assign (mk_ref var_r) (mk_op "add" [mk_ref var_r; lit_int 1])];
        mk_return (mk_ref var_r)])
    std_integer [].

(** [for i in l dir h loop return i; end loop;], called without arguments. *)
Definition first_round (l h : Z) (kind : range_kind_t) : tree_t :=
  mk_fcall
    (mk_func_body "FIRST" [] []
       [mk_for "L2" loop_var_i (mk_range l h kind) [mk_return (mk_ref loop_var_i)]])
    std_integer [].

(** [for i in 1 to 3 loop r := r + 1; exit; end loop;] and a state in which
    [r] is bound to 0. *)
Definition for_exit : tree_t :=
  mk_for "L2" loop_var_i (mk_range 1 3 RANGE_TO)
    [mk_assign (mk_ref var_r) (mk_op "add" [mk_ref var_r; lit_int 1]);
     mk_exit "L2"].

Definition vt_r0 : vtable_t := VTable [VtFrame [("R", lit_int 0)]] false None None.

(** ** Array references *)

(** The [i]-th index of the array reference [t] when it is static: the
    index folds to an integer and the [i]-th dimension of the array type
    has a direction and two folded bounds. *)
Definition static_index (t : tree_t) (value_type : type_t) (i : nat)
  : option (Z * range_t) :=
  p <-? nth_error (t_params t) i ;;
  e <-? t_value p ;;
  index <-? folded_int e ;;
  b <-? nth_error (ty_dims value_type) i ;;
  match r_kind b, folded_int (r_left b), folded_int (r_right b) with
  | RANGE_EXPR, _, _ => None
  | _, Some _, Some _ => Some (index, b)
  | _, _, _ => None
  end.

Definition all_static (t : tree_t) (value_type : type_t) : bool :=
  forallb (fun i => is_some (static_index t value_type i)) (seq 0 (tree_params t)).

(** Is the static index [i] outside the bounds of its dimension. *)
Definition index_out_of_bounds (t : tree_t) (value_type : type_t) (i : nat) : bool :=
  match static_index t value_type i with
  | Some (index, b) =>
      match folded_bounds b with
      | Some (low, high) => (index <? low) || (index >? high)
      | None => false
      end
  | None => false
  end.

Definition out_of_bounds_count (t : tree_t) (value_type : type_t) : nat :=
  length (filter (index_out_of_bounds t value_type) (seq 0 (tree_params t))).

(** [signal a : bit_vector(0 to 7)] and [signal m] of a two-dimensional
    array type over [0 to 7] in both dimensions. *)
Definition sig_a : tree_t :=
  mk_signal "A" (mk_carray "BIT_VECTOR" [mk_range 0 7 RANGE_TO] std_bit).

Definition sig_m : tree_t :=
  mk_signal "M" (mk_carray "MATRIX" [mk_range 0 7 RANGE_TO; mk_range 0 7 RANGE_TO]
                           std_bit).

Definition bounds_init : bounds_t := Bounds 0 [].

(** The state after [n] more errors. *)
Definition errors_added (s s' : bounds_t) (n : nat) : Prop :=
  errors s' = errors s + Z.of_nat n /\
  exists ds : list diag_t, reported s' = (reported s ++ ds)%list /\ length ds = n.

(** ** Array case statements *)

(** The number of values of the element type of an array: the length of
    the range of an integer element type, the number of literals of an
    enumeration. *)
Definition elem_cardinality (elem : type_t) : option Z :=
  match type_kind elem with
  | T_SUBTYPE | T_CARRAY | T_INTEGER =>
      r <-? nth_error (ty_dims elem) 0 ;;
      match folded_bounds r with
      | Some (low, high) => Some (wrap64 (high - low + 1))
      | None => None
      end
  | T_ENUM => Some (Z.of_nat (type_enum_literals elem))
  | _ => None
  end.

(** [signal w] of an array of 32 bits, and a case statement over it with a
    single named choice. *)
Definition sig_w : tree_t :=
  mk_signal "W" (mk_carray "WORD" [mk_range 0 31 RANGE_TO] std_bit).

Definition case_w : tree_t :=
  mk_case (mk_ref sig_w) [mk_named (tree_new T_LITERAL) mk_null].

(** ** Integer case statements *)

(** The values a choice names: a single value for a named choice whose name
    folds to an integer, the two ends of an ascending range whose ends
    fold. *)
Definition choice_of (a : tree_t) : option (Z * Z) :=
  match tree_subkind a with
  | A_NAMED =>
      name <-? t_name a ;;
      x <-? folded_int name ;;
      Some (x, x)
  | A_RANGE =>
      r <-? t_range a ;;
      match r_kind r with
      | RANGE_TO =>
          l <-? folded_int (r_left r) ;;
          h <-? folded_int (r_right r) ;;
          Some (l, h)
      | _ => None
      end
  | _ => None
  end.

(** [x] is one of the values from [fst c] to [snd c]. *)
Definition in_choice (x : Z) (c : Z * Z) : Prop := fst c <= x <= snd c.

(** No two intervals of the list share a value. *)
Fixpoint disjoint_choices (cs : list (Z * Z)) : Prop :=
  match cs with
  | [] => True
  | c :: rest =>
      Forall (fun d => forall x, ~ (in_choice x c /\ in_choice x d)) rest
      /\ disjoint_choices rest
  end.

(** Each interval of the list ends below the start of the next one. *)
Fixpoint increasing (ms : list (Z * Z)) : Prop :=
  match ms with
  | [] => True
  | m :: rest =>
      match rest with
      | [] => True
      | m' :: _ => snd m < fst m'
      end /\ increasing rest
  end.

(** The text of the report after the intervals [ms] have been printed, one
    [bounds_fmt_case_missing] each. *)
Definition fmt_missing (tb : string) (ms : list (Z * Z)) : string :=
  fold_left (fun tb m => bounds_fmt_case_missing tb (fst m) (snd m)) ms tb.

Definition case_missing_header (type : type_t) : string :=
  "case choices do not cover the following values of " ++ type_pp type ++ ":".

(** The covered-interval list is sorted, its intervals are not empty and no
    two of them share a value. *)
Fixpoint sorted_cover (l : list interval_t) : Prop :=
  match l with
  | [] => True
  | it :: rest =>
      i_low it <= i_high it
      /\ match rest with
         | [] => True
         | next :: _ => i_high it < i_low next
         end
      /\ sorted_cover rest
  end.

(** Every interval of the list starts above [b]. *)
Definition starts_above (b : Z) (l : list interval_t) : Prop :=
  match l with
  | [] => True
  | it :: _ => b < i_low it
  end.

Definition in_cover (x : Z) (l : list interval_t) : Prop :=
  Exists (fun it => i_low it <= x <= i_high it) l.

(** The gaps the walk of [bounds_check_case] finds below and between the
    covered intervals, and the value of [walk] after the loop. *)
Fixpoint case_gaps (covered : list interval_t) (walk : Z) : list (Z * Z) * Z :=
  match covered with
  | [] => ([], walk)
  | it :: next =>
      let (g, w) := case_gaps next (i_high it + 1) in
      (if i_low it =? walk then g else (walk, i_low it - 1) :: g, w)
  end.

(** [signal i : integer range 0 to 7] and the case statement of scenario 6,
    [when 0 => ...; when 2 to 5 => ...]. *)
Definition sig_i : tree_t :=
  mk_signal "I" (mk_subtype "SMALL" std_integer (mk_range 0 7 RANGE_TO)).

Definition case_i (assocs : list tree_t) : tree_t := mk_case (mk_ref sig_i) assocs.

Definition case_scenario : tree_t :=
  case_i [mk_named (lit_int 0) mk_null; mk_ranged 2 5 mk_null].

(** Every interval of the covered list lies within the bounds of the type. *)
Definition within (tlow thigh : Z) (l : list interval_t) : Prop :=
  Forall (fun it => tlow <= i_low it /\ i_high it <= thigh) l.

(** ** Running the checker again *)

(** The state after the diagnostics [ds] have been reported. *)
Definition report (s : bounds_t) (ds : list diag_t) : bounds_t :=
  Bounds (errors s + Z.of_nat (length ds)) (reported s ++ ds).

(** A computation of the checker that only reports: from any state it
    gives the same value and adds the same diagnostics. *)
Definition uniform {A : Type} (m : B A) : Prop :=
  forall s a s', m s = Done (a, s') ->
    exists ds, s' = report s ds /\ forall s2, m s2 = Done (a, report s2 ds).

(** Running [run] on its own result gives that result back and reports the
    same diagnostics once more. *)
Definition stable_at {X : Type} (run : X -> B X) (x : X) : Prop :=
  forall s x1 s1, run x s = Done (x1, s1) ->
    exists ds, s1 = report s ds /\ forall s2, run x1 s2 = Done (x1, report s2 ds).

(** The visits of the child slots of a node in [tree_visit]. *)
Definition visit_opt (fn : tree_t -> B tree_t) (o : option tree_t) : B (option tree_t) :=
  match o with
  | Some c => c' <- tree_visit fn c ;; ret (Some c')
  | None => ret None
  end.

Definition visit_range (fn : tree_t -> B tree_t) (o : option range_t)
  : B (option range_t) :=
  match o with
  | Some (Range l r kind) =>
      l' <- tree_visit fn l ;;
      r' <- tree_visit fn r ;;
      ret (Some (Range l' r' kind))
  | None => ret None
  end.

Definition visit_list (fn : tree_t -> B tree_t) : list tree_t -> B (list tree_t) :=
  fix visit_list (l : list tree_t) : B (list tree_t) :=
    match l with
    | [] => ret []
    | c :: rest =>
        c' <- tree_visit fn c ;;
        rest' <- visit_list rest ;;
        ret (c' :: rest')
    end.

(** [P] holds of every node in a child slot of [t]. *)
Definition children_all (P : tree_t -> Prop) (t : tree_t) : Prop :=
  (match t_value t with Some c => P c | None => True end)
  /\ (match t_target t with Some c => P c | None => True end)
  /\ (match t_name t with Some c => P c | None => True end)
  /\ (match t_range t with Some r => P (r_left r) /\ P (r_right r) | None => True end)
  /\ Forall P (t_params t) /\ Forall P (t_ports t) /\ Forall P (t_decls t)
  /\ Forall P (t_stmts t) /\ Forall P (t_else_stmts t) /\ Forall P (t_assocs t)
  /\ Forall P (t_chars t) /\ Forall P (t_waveforms t).

(** [signal a : bit_vector(0 to 7)] indexed at 9. *)
Definition ref_a_9 : tree_t := mk_array_ref (mk_ref sig_a) [lit_int 9].

(** ** The stack of frames *)

(** The state [v] has the frames of [f0] below its top frame, and a stack as
    deep as [f0]: only the bindings of the top frame may differ. *)
Definition same_below (f0 : list vtframe_t) (v : vtable_t) : Prop :=
  tl (top v) = tl f0 /\ length (top v) = length f0.

(** A state with one frame that binds [X] to 1, and the call [add1(5)]. *)
Definition vt_x1 : vtable_t := VTable [VtFrame [("X", lit_int 1)]] false None None.

Definition call_add1_5 : tree_t := mk_fcall add1 std_integer [lit_int 5].

(** ** Samples for the statements of the evaluator *)

(** A string literal with the given characters. *)
Definition mk_char (c : string) : tree_t :=
  node T_REF L_INT (Some c) None [] None None None None None None [] [] [] [] [] [].

Definition lit_string (cs : list string) : tree_t :=
  Tree T_LITERAL L_STRING (Loc 0 0) None None 0 0%float 0 [] None
       None None None None None [] [] [] [] [] [] (map mk_char cs) [].

(** [case ... when 1 => r := 10; when 2 => r := 20; when 3 => r := 30]. *)
Definition case_assocs_123 : list tree_t :=
  [mk_named (lit_int 1) (mk_assign (mk_ref var_r) (lit_int 10));
   mk_named (lit_int 2) (mk_assign (mk_ref var_r) (lit_int 20));
   mk_named (lit_int 3) (mk_assign (mk_ref var_r) (lit_int 30))].

(** ** What the checker leaves of a tree *)

(** The tree without the attribute [name], on the node and on every node
    below it in the child slots [tree_visit] walks. *)
Fixpoint drop_attr (name : ident_t) (t : tree_t) {struct t} : tree_t :=
  match t with
  | Tree k sk loc id id2 iv dv pos attrs ty value target nm ref range
         params ports decls stmts else_stmts assocs chars waveforms =>
      Tree k sk loc id id2 iv dv pos
           (filter (fun na => negb (ident_eq (fst na) name)) attrs) ty
           (option_map (drop_attr name) value)
           (option_map (drop_attr name) target)
           (option_map (drop_attr name) nm)
           ref
           (match range with
            | Some (Range l r kind) =>
                Some (Range (drop_attr name l) (drop_attr name r) kind)
            | None => None
            end)
           (map (drop_attr name) params) (map (drop_attr name) ports)
           (map (drop_attr name) decls) (map (drop_attr name) stmts)
           (map (drop_attr name) else_stmts) (map (drop_attr name) assocs)
           (map (drop_attr name) chars) (map (drop_attr name) waveforms)
  end.

Definition drop_attr_range (name : ident_t) (o : option range_t) : option range_t :=
  match o with
  | Some (Range l r kind) => Some (Range (drop_attr name l) (drop_attr name r) kind)
  | None => None
  end.

(** [return a(3)] for [signal a : bit_vector(0 to 7)]. *)
Definition ref_a_3 : tree_t := mk_array_ref (mk_ref sig_a) [lit_int 3].

Definition return_a_3 : tree_t := mk_return ref_a_3.

(** A visit with [fn] gives [t] back up to the attribute [name]. *)
Definition kept (fn : tree_t -> B tree_t) (name : ident_t) (t : tree_t) : Prop :=
  forall s t1 s1, tree_visit fn t s = Done (t1, s1) -> drop_attr name t1 = drop_attr name t.

(** ** Samples for the assignments *)

(** [variable n : small] with [subtype small is integer range 0 to 7]. *)
Definition var_n : tree_t :=
  node T_VAR_DECL L_INT (Some "N") None
       [] (Some (mk_subtype "SMALL" std_integer (mk_range 0 7 RANGE_TO)))
       None None None None None [] [] [] [] [] [].

(** ** Enumeration case statements *)

(** What a choice of an enumeration case names: [Some None] for [others],
    the identifier of the name of any other choice. *)
Definition enum_choice (a : tree_t) : option (option ident_t) :=
  match tree_subkind a with
  | A_OTHERS => Some None
  | _ => c <-? t_name a ;; n <-? t_ident c ;; Some (Some n)
  end.

Definition choice_names (cs : list (option ident_t)) : list ident_t :=
  fold_right (fun c acc => match c with Some n => n :: acc | None => acc end) [] cs.

Definition others_given (cs : list (option ident_t)) : bool :=
  existsb (fun c => match c with None => true | Some _ => false end) cs.

(** [id] is one of [names]. *)
Definition named (names : list ident_t) (id : ident_t) : bool :=
  existsb (ident_eq id) names.

(** One diagnostic for each literal of [ids] that is not among [names], in
    the order of the literals. *)
Definition missing_choices (t : tree_t) (ids names : list ident_t) : list diag_t :=
  map (fun id => Diag (tree_loc t) "missing choice %s in case statement" [ArgStr (istr id)])
      (filter (fun id => negb (named names id)) ids).

(** The presence bitmap [have] records which literals are among [names]. *)
Definition have_marks (ids names : list ident_t) (have : list bool) : Prop :=
  length have = length ids
  /\ forall j id, nth_error ids j = Some id -> nth_error have j = Some (named names id).

(** [signal b : bit] and a case statement over it. *)
Definition sig_b : tree_t := mk_signal "B" std_bit.

Definition case_b (assocs : list tree_t) : tree_t := mk_case (mk_ref sig_b) assocs.

(** ** Samples for aggregates and array parameters *)

(** The aggregate [(x, y, z)] of type [bit_vector(0 to 7)]. *)
Definition mk_pos (value : tree_t) : tree_t := mk_assoc A_POS None None value.

Definition agg_3_of_8 : tree_t :=
  node T_AGGREGATE L_INT None None []
       (Some (mk_carray "BIT_VECTOR" [mk_range 0 7 RANGE_TO] std_bit))
       None None None None None [] [] [] [] []
       [mk_pos mk_null; mk_pos mk_null; mk_pos mk_null].

(** ** Samples for slices *)

(** [a(l to r)] for [signal a : bit_vector(0 to 7)]. *)
Definition mk_slice (v : tree_t) (r : range_t) : tree_t :=
  node T_ARRAY_SLICE L_INT None None [] None (Some v) None None None (Some r)
       [] [] [] [] [] [].

(** ** Diagnostics of the case checks, as the messages read *)

(** The report of a choice that shares the values [rlow .. rhigh] with an
    interval covered before: a value when the two ends agree, a range
    otherwise. *)
Definition already_covered (a : tree_t) (rlow rhigh : Z) : diag_t :=
  if rlow =? rhigh
  then Diag (tree_loc a) "value %li is already covered" [ArgInt rlow]
  else Diag (tree_loc a) "range %li to %li is already covered"
            [ArgInt rlow; ArgInt rhigh].

(** The two comparisons of a slice against the array it is taken from: the
    left end of the slice with the left bound of the array, the right end
    with the right bound, in the direction of the array. *)
Definition slice_left_out (kind : range_kind_t) (bl l : Z) : bool :=
  match kind with RANGE_TO => l <? bl | _ => bl <? l end.

Definition slice_right_out (kind : range_kind_t) (br rr : Z) : bool :=
  match kind with RANGE_TO => br <? rr | _ => rr <? br end.

(** The report of a slice [l .. rr] of the array [value] with the bounds
    [bl .. br]: it names the left index when that one is out of bounds and
    the right index otherwise. *)
Definition slice_diag (t value : tree_t) (name : ident_t) (kind : range_kind_t)
                      (bl br l rr : Z) : diag_t :=
  Diag (tree_loc t) "%s%sslice %s index %li out of bounds %li %s %li"
       ((if is_kind_ref value then [ArgStr (istr name); ArgStr " "]
         else [ArgStr EmptyString; ArgStr EmptyString])
        ++ [ArgStr (if slice_left_out kind bl l then "left" else "right");
            ArgInt (if slice_left_out kind bl l then l else rr);
            ArgInt bl;
            ArgStr (match kind with RANGE_TO => "to" | _ => "downto" end);
            ArgInt br]).

(** One line of the list of missing values, as the message reads: a line
    break and four spaces, then the value when the interval holds a single
    one, and its two ends with [to] between them otherwise. *)
Definition missing_line (m : Z * Z) : string :=
  nl ++ "    "
     ++ (if fst m =? snd m then string_of_Z (fst m)
         else string_of_Z (fst m) ++ " to " ++ string_of_Z (snd m)).

Fixpoint missing_lines (ms : list (Z * Z)) : string :=
  match ms with
  | [] => EmptyString
  | m :: rest => missing_line m ++ missing_lines rest
  end.

(** The text of the error that lists the missing values of a case
    statement. *)
Definition missing_report (type : type_t) (ms : list (Z * Z)) : string :=
  "case choices do not cover the following values of "
    ++ type_pp type ++ ":" ++ missing_lines ms.

(** A choice that leaves the bounds [tlow .. thigh] of the type. *)
Definition choice_outside (tlow thigh : Z) (c : Z * Z) : bool :=
  (fst c <? tlow) || (thigh <? snd c).

(** The choices that count as covering: those within the bounds. *)
Definition inside_choices (tlow thigh : Z) (cs : list (Z * Z)) : list (Z * Z) :=
  filter (fun c => negb (choice_outside tlow thigh c)) cs.

(** The report of a choice that leaves the bounds: it names the low end of
    the choice when that one is below the bounds and the high end
    otherwise. *)
Definition outside_diag (type : type_t) (tlow thigh : Z) (a : tree_t) (c : Z * Z)
  : diag_t :=
  Diag (tree_loc a) "value %li outside %s bounds %li to %li"
       [ArgInt (if fst c <? tlow then fst c else snd c);
        ArgStr (type_pp type); ArgInt tlow; ArgInt thigh].

(** The reports of the choices of a case statement that leave the bounds,
    in the order of the choices. *)
Definition outside_diags (type : type_t) (tlow thigh : Z) (assocs : list tree_t)
  : list diag_t :=
  flat_map (fun a =>
              match choice_of a with
              | Some c => if choice_outside tlow thigh c
                          then [outside_diag type tlow thigh a c] else []
              | None => []
              end) assocs.

(** The case statement of scenario 6 with one more choice, [when 9], that
    leaves the bounds of the type. *)
Definition case_scenario_9 : tree_t :=
  case_i [mk_named (lit_int 0) mk_null; mk_ranged 2 5 mk_null;
          mk_named (lit_int 9) mk_null].

(** A case statement over the whole 64-bit range without a choice. *)
Definition sig_full : tree_t :=
  mk_signal "I" (mk_subtype "FULL" std_integer (mk_range INT64_MIN INT64_MAX RANGE_TO)).

(** ** One activation of a [while] loop, by its executions of the body *)

Section WhileRuns.

Variable eval_expr : tree_t -> E tree_t.
Variable eval_stmt : tree_t -> E unit.
Variable t : tree_t.

(** The test at the head of the loop: a loop without a condition goes on,
    a condition is evaluated and read as a boolean. *)
Definition while_test (v : vtable_t) : outcome (option bool * vtable_t) :=
  match t_value t with
  | None => Done (Some true, v)
  | Some c =>
      match eval_expr c v with
      | Done (cond, v1) => Done (folded_bool cond, v1)
      | Fatal => Fatal
      | OutOfFuel => OutOfFuel
      end
  end.

(** One execution of the body: the loop is at its head with no result, the
    test gives true, nothing has failed, and the statements of the body are
    evaluated, once. *)
Definition body_run (v v' : vtable_t) : Prop :=
  result v = None
  /\ exists v1, while_test v = Done (Some true, v1)
                /\ failed v1 = false
                /\ eval_stmts eval_stmt (t_stmts t) v1 = Done (tt, v').

(** [n] executions of the body, one after the other; only the last of them
    may leave an exit pending. *)
Inductive body_runs : nat -> vtable_t -> vtable_t -> Prop :=
| body_runs_O v : body_runs O v v
| body_runs_S n v v1 v' :
    body_run v v1 -> exit v1 = None \/ n = O -> body_runs n v1 v' ->
    body_runs (S n) v v'.

(** How a loop that was entered with its counter at [iters] is left in
    [v'], [k] executions of the body having brought it to [vn]: by the exit
    that the last execution left pending, cleared when it names this loop;
    or at the head of the loop, by a result, by a test that is not boolean
    ([failed] is set), by a test that is false or a failure, or because the
    counter reaches [MAX_ITERS] ([failed] is set).  The body is not
    executed again on any of these ways. *)
Definition while_leaves (iters : Z) (k : nat) (vn v' : vtable_t) : Prop :=
  (k <> O
   /\ exists e label, exit vn = Some e /\ t_ident t = Some label
                      /\ v' = if ident_eq e label then set_exit None vn else vn)
  \/ ((k = O \/ exit vn = None)
      /\ match result vn with
         | Some _ => v' = vn
         | None =>
             exists c v1,
               while_test vn = Done (c, v1)
               /\ match c with
                  | None => v' = set_failed true v1
                  | Some b =>
                      if negb b || failed v1 then v' = v1
                      else iters + Z.of_nat k + 1 = MAX_ITERS
                           /\ v' = set_failed true v1
                  end
         end).

End WhileRuns.

(** [while true loop r := r + 1; end loop;] without a condition. *)
Definition counting_loop : tree_t :=
  mk_while "L1" None [mk_assign (mk_ref var_r) (mk_op "add" [mk_ref var_r; lit_int 1])].

(* ================================================================= *)
(** * Reasoning about computations *)

Lemma bind_done {S A C : Type} (m : M S A) (k : A -> M S C) s c s' :
  bind m k s = Done (c, s') ->
  exists a s1, m s = Done (a, s1) /\ k a s1 = Done (c, s').
Proof.
  unfold bind. destruct (m s) as [[a s1]| |]; try discriminate.
  intros H. exists a, s1. split; [reflexivity | exact H].
Qed.

Lemma bind_run {S A C : Type} (m : M S A) (k : A -> M S C) s a s1 :
  m s = Done (a, s1) -> bind m k s = k a s1.
Proof. intros H. unfold bind. rewrite H. reflexivity. Qed.

Lemma ret_done {S A : Type} (a b : A) (s s' : S) :
  ret a s = Done (b, s') -> b = a /\ s' = s.
Proof. unfold ret. intros H. inversion H. split; reflexivity. Qed.

Lemma expect_done {S A : Type} (o : option A) (a : A) (s s' : S) :
  expect o s = Done (a, s') -> o = Some a /\ s' = s.
Proof.
  destruct o; simpl; unfold ret, abort; intros H; inversion H.
  split; reflexivity.
Qed.

Lemma assert_done {S : Type} (b : bool) u (s s' : S) :
  assert b s = Done (u, s') -> b = true /\ s' = s.
Proof.
  destruct b; simpl; unfold ret, abort; intros H; inversion H.
  split; reflexivity.
Qed.

Lemma get_done {S : Type} (a s s' : S) :
  get s = Done (a, s') -> a = s /\ s' = s.
Proof. unfold get. intros H. inversion H. split; reflexivity. Qed.

Lemma put_done {S : Type} (x : S) u (s s' : S) :
  put x s = Done (u, s') -> s' = x.
Proof. unfold put. intros H. inversion H. reflexivity. Qed.

Lemma modify_done {S : Type} (f : S -> S) u (s s' : S) :
  modify f s = Done (u, s') -> s' = f s.
Proof. unfold modify. intros H. inversion H. reflexivity. Qed.

(** One step of inversion on a computation known to have returned. *)
Ltac minv1 :=
  match goal with
  | H : bind _ _ _ = Done _ |- _ =>
      let a := fresh "a" in let s := fresh "s" in
      let H1 := fresh "H" in let H2 := fresh "H" in
      apply bind_done in H; destruct H as (a & s & H1 & H2)
  | H : ret _ _ = Done _ |- _ => apply ret_done in H; destruct H; subst
  | H : expect _ _ = Done _ |- _ => apply expect_done in H; destruct H; subst
  | H : assert _ _ = Done _ |- _ => apply assert_done in H; destruct H; subst
  | H : get _ = Done _ |- _ => apply get_done in H; destruct H; subst
  | H : put _ _ = Done _ |- _ => apply put_done in H; subst
  | H : modify _ _ = Done _ |- _ => apply modify_done in H; subst
  | H : abort _ = Done _ |- _ => discriminate H
  | H : out_of_fuel _ = Done _ |- _ => discriminate H
  | H : Fatal = Done _ |- _ => discriminate H
  | H : OutOfFuel = Done _ |- _ => discriminate H
  end.

Ltac minv := repeat minv1.
Lemma folded_get_int_lit t i : folded (get_int_lit t i) = true.
Proof. reflexivity. Qed.

Lemma folded_get_real_lit t r : folded (get_real_lit t r) = true.
Proof. reflexivity. Qed.

Lemma folded_get_bool_lit t b : folded (get_bool_lit t b) = true.
Proof. destruct b; reflexivity. Qed.

Create HintDb folded_db.
#[local] Hint Resolve folded_get_int_lit folded_get_real_lit folded_get_bool_lit : folded_db.

(** Case analysis of a reducer, from the outermost test inwards: split on
    the test of the operator name or on the argument read at the head. *)
Ltac reducer_cases :=
  repeat match goal with
         | |- (if ?c then _ else _) = _ -> _ => destruct c
         | |- (match ?x with _ => _ end) = _ -> _ => destruct x
         end.

Lemma some_eq_inv {A : Type} (a b : A) : Some a = Some b -> a = b.
Proof.
  intros H. exact (f_equal (fun o => match o with Some x => x | None => a end) H).
Qed.

Ltac reducer_done :=
  intros H;
  match type of H with
  | None = Some _ => discriminate H
  | Some _ = Some ?r => apply some_eq_inv in H; subst r; auto with folded_db
  end.

Lemma eval_fcall_log_result t builtin args r :
  eval_fcall_log t builtin args = Some r -> r = t \/ folded r = true.
Proof. unfold eval_fcall_log. reducer_cases; reducer_done. Qed.

Lemma eval_fcall_real_result t builtin args r :
  eval_fcall_real t builtin args = Some r -> r = t \/ folded r = true.
Proof. unfold eval_fcall_real. reducer_cases; reducer_done. Qed.

Lemma eval_fcall_int_result t builtin args r :
  eval_fcall_int t builtin args = Some r -> r = t \/ folded r = true.
Proof. unfold eval_fcall_int. reducer_cases; reducer_done. Qed.

Lemma eval_fcall_enum_result t builtin args r :
  eval_fcall_enum t builtin args = Some r -> r = t \/ folded r = true.
Proof. unfold eval_fcall_enum. reducer_cases; reducer_done. Qed.

Lemma eval_fcall_universal_result t builtin args r :
  eval_fcall_universal t builtin args = Some r -> r = t \/ folded r = true.
Proof. unfold eval_fcall_universal. reducer_cases; reducer_done. Qed.

Lemma eval_fcall_str_result t builtin args r :
  eval_fcall_str t builtin args = Some r -> r = t \/ folded r = true.
Proof. unfold eval_fcall_str. reducer_cases; reducer_done. Qed.

#[local] Hint Resolve eval_fcall_log_result eval_fcall_real_result eval_fcall_int_result
  eval_fcall_enum_result eval_fcall_universal_result eval_fcall_str_result : folded_db.

Lemma eval_fcall_result eval_expr eval_stmt t v r v' :
  eval_fcall eval_expr eval_stmt t v = Done (r, v') ->
  r = t \/ folded r = true.
Proof.
  unfold eval_fcall. intros H. minv.
  match goal with H : context [tree_attr_str ?d _] |- _ =>
    destruct (tree_attr_str d builtin_i) as [builtin|]; [| destruct (tree_kind d)] end;
  minv; auto;
  repeat match goal with
         | H : (if ?c then _ else _) _ = Done _ |- _ => destruct c
         | H : (match ?x with _ => _ end) _ = Done _ |- _ => destruct x eqn:?
         | _ => minv1
         end; auto;
  try solve [ eapply eval_fcall_universal_result; eassumption
            | eapply eval_fcall_int_result; eassumption
            | eapply eval_fcall_log_result; eassumption
            | eapply eval_fcall_real_result; eassumption
            | eapply eval_fcall_enum_result; eassumption
            | eapply eval_fcall_str_result; eassumption ].
  match goal with |- context [result ?s] => destruct (result s) as [res|] end; auto.
  destruct (folded res) eqn:Hf; auto.
Qed.

(** C1. For every function-call node [c], what [eval] returns is [c] itself
    or a node the evaluator's own predicate [folded] accepts: a literal
    node, or a reference that [folded_bool] recognises as a boolean
    literal.  It is never a partially reduced internal node. *)
Theorem eval_returns_call_or_literal (fuel : nat) (c r : tree_t) :
  eval fuel c = Done r ->
  r = c \/
  (tree_kind r = T_LITERAL /\ folded r = true) \/
  (tree_kind r = T_REF /\ (exists b, folded_bool r = Some b) /\ folded r = true).
Proof.
  unfold eval. destruct (tree_kind c); try discriminate.
  destruct (eval_fcall _ _ c vt_init) as [[r0 vt]| |] eqn:He; try discriminate.
  intros H. apply (f_equal (fun o => match o with Done x => x | _ => c end)) in H.
  subst r. destruct (failed vt); auto.
  apply eval_fcall_result in He. destruct He as [He|He]; auto.
  right. unfold folded in *.
  destruct (tree_kind r0); try discriminate; auto.
  right. split; auto. destruct (folded_bool r0); try discriminate. eauto.
Qed.

Lemma eval_returns_call_or_literal_witness :
  eval 4 (mk_fcall add1 std_integer [lit_int 5])
  = Done (get_int_lit (mk_op "add" [mk_ref port_x; lit_int 1]) 6)
  /\ (get_int_lit (mk_op "add" [mk_ref port_x; lit_int 1]) 6
      = mk_fcall add1 std_integer [lit_int 5]
      \/ (tree_kind (get_int_lit (mk_op "add" [mk_ref port_x; lit_int 1]) 6) = T_LITERAL
          /\ folded (get_int_lit (mk_op "add" [mk_ref port_x; lit_int 1]) 6) = true)
      \/ (tree_kind (get_int_lit (mk_op "add" [mk_ref port_x; lit_int 1]) 6) = T_REF
          /\ (exists b, folded_bool (get_int_lit (mk_op "add" [mk_ref port_x; lit_int 1]) 6)
                        = Some b)
          /\ folded (get_int_lit (mk_op "add" [mk_ref port_x; lit_int 1]) 6) = true)).
Proof.
  split.
  - vm_compute. reflexivity.
  - apply (eval_returns_call_or_literal 4 (mk_fcall add1 std_integer [lit_int 5])).
    vm_compute. reflexivity.
Defined.

(** ** Invariants of the evaluation state *)

Section Preservation.

Variable P : vtable_t -> Prop.

Lemma preserves_ret {A : Type} (a : A) : preserves P (ret a).
Proof. intros v b v' HP H. minv. exact HP. Qed.

Lemma preserves_bind {A C : Type} (m : E A) (k : A -> E C) :
  preserves P m -> (forall a, preserves P (k a)) -> preserves P (bind m k).
Proof.
  intros Hm Hk v c v' HP H. minv. eapply Hk; [|eassumption]. eapply Hm; eassumption.
Qed.

Lemma preserves_abort {A : Type} : preserves P (@abort vtable_t A).
Proof. intros v a v' _ H. discriminate. Qed.

Lemma preserves_out_of_fuel {A : Type} : preserves P (@out_of_fuel vtable_t A).
Proof. intros v a v' _ H. discriminate. Qed.

Lemma preserves_expect {A : Type} (o : option A) : preserves P (expect o).
Proof. intros v a v' HP H. minv. exact HP. Qed.

Lemma preserves_assert (b : bool) : preserves P (assert b).
Proof. intros v a v' HP H. minv. exact HP. Qed.

Lemma preserves_get : preserves P get.
Proof. intros v a v' HP H. minv. exact HP. Qed.

Lemma preserves_for_each {A : Type} (l : list A) (body : A -> E unit) :
  (forall x, preserves P (body x)) -> preserves P (for_each l body).
Proof.
  intros Hb. induction l as [|x l IH]; simpl.
  - apply preserves_ret.
  - apply preserves_bind; [apply Hb | intros _; exact IH].
Qed.

Lemma preserves_map_each {A C : Type} (l : list A) (body : A -> E C) :
  (forall x, preserves P (body x)) -> preserves P (map_each l body).
Proof.
  intros Hb. induction l as [|x l IH]; simpl.
  - apply preserves_ret.
  - apply preserves_bind; [apply Hb | intros y].
    apply preserves_bind; [exact IH | intros ys; apply preserves_ret].
Qed.

(** What the state operations of the evaluator must respect. *)
Hypothesis P_failed : forall v, P v -> P (set_failed true v).
Hypothesis P_result : forall v r, P v -> P (set_result r v).
Hypothesis P_exit : forall v e, P v -> P (set_exit e v).
Hypothesis P_push : forall v, P v -> P (set_top (VtFrame [] :: top v) v).
Hypothesis P_pop : forall v f down, P v -> top v = f :: down -> P (set_top down v).
Hypothesis P_bind : forall name value, preserves P (vtable_bind name value).

Lemma preserves_eval_error : preserves P eval_error.
Proof. intros v a v' HP H. unfold eval_error in H. minv. auto. Qed.

Lemma preserves_set_failed : preserves P (modify (set_failed true)).
Proof. intros v a v' HP H. minv. auto. Qed.

Lemma preserves_set_result r : preserves P (modify (set_result r)).
Proof. intros v a v' HP H. minv. auto. Qed.

Lemma preserves_set_exit e : preserves P (modify (set_exit e)).
Proof. intros v a v' HP H. minv. auto. Qed.

Lemma preserves_push : preserves P vtable_push.
Proof. intros v a v' HP H. unfold vtable_push in H. minv. auto. Qed.

Lemma preserves_pop : preserves P vtable_pop.
Proof.
  intros v a v' HP H. unfold vtable_pop in H. minv.
  match goal with H : context [top ?x] |- _ => destruct (top x) eqn:Ht end; minv.
  apply P_result. eapply P_pop; eassumption.
Qed.

Variable eval_expr : tree_t -> E tree_t.
Variable eval_stmt : tree_t -> E unit.
Hypothesis P_expr : forall t, preserves P (eval_expr t).
Hypothesis P_stmt : forall t, preserves P (eval_stmt t).

Ltac pres_step :=
  match goal with
  | |- preserves _ (bind _ _) => apply preserves_bind; [| intros ?]
  | |- preserves _ (ret _) => apply preserves_ret
  | |- preserves _ abort => apply preserves_abort
  | |- preserves _ out_of_fuel => apply preserves_out_of_fuel
  | |- preserves _ (expect _) => apply preserves_expect
  | |- preserves _ (assert _) => apply preserves_assert
  | |- preserves _ get => apply preserves_get
  | |- preserves _ eval_error => apply preserves_eval_error
  | |- preserves _ (modify (set_failed true)) => apply preserves_set_failed
  | |- preserves _ (modify (set_result _)) => apply preserves_set_result
  | |- preserves _ (modify (set_exit _)) => apply preserves_set_exit
  | |- preserves _ vtable_push => apply preserves_push
  | |- preserves _ vtable_pop => apply preserves_pop
  | |- preserves _ (vtable_bind _ _) => apply P_bind
  | |- preserves _ (eval_expr _) => apply P_expr
  | |- preserves _ (eval_stmt _) => apply P_stmt
  | |- preserves _ (for_each _ _) => apply preserves_for_each; intros ?
  | |- preserves _ (map_each _ _) => apply preserves_map_each; intros ?
  | |- preserves _ (match ?x with _ => _ end) => destruct x
  | |- preserves _ (if ?x then _ else _) => destruct x
  end.

Ltac pres :=
  unfold tree_ident, tree_ident2, tree_type, tree_value, tree_target, tree_name,
    tree_ref, tree_range, tree_param, tree_port, tree_decl, nth_item;
  repeat pres_step.

Lemma preserves_eval_stmts stmts : preserves P (eval_stmts eval_stmt stmts).
Proof. induction stmts as [|s rest IH]; simpl; pres. exact IH. Qed.

Lemma preserves_eval_func_body t : preserves P (eval_func_body eval_expr eval_stmt t).
Proof. unfold eval_func_body. pres. apply preserves_eval_stmts. Qed.

Lemma preserves_eval_params t ports : preserves P (eval_params eval_expr t ports).
Proof. induction ports as [|i rest IH]; simpl; pres. exact IH. Qed.

Lemma preserves_eval_fcall t : preserves P (eval_fcall eval_expr eval_stmt t).
Proof.
  unfold eval_fcall. pres; try apply preserves_eval_params; try apply preserves_eval_func_body.
Qed.

Lemma preserves_eval_expr_body t : preserves P (eval_expr_body eval_expr eval_stmt t).
Proof.
  unfold eval_expr_body, eval_ref, eval_type_conv.
  pres; apply preserves_eval_fcall.
Qed.

Lemma preserves_eval_case_assocs value_int assocs :
  preserves P (eval_case_assocs eval_expr eval_stmt value_int assocs).
Proof. induction assocs as [|a rest IH]; simpl; pres; exact IH. Qed.

Lemma preserves_while_loop t n iters :
  preserves P (while_loop eval_expr eval_stmt t n iters).
Proof.
  revert iters. induction n as [|n IH]; intros iters; simpl; pres;
    try apply preserves_eval_stmts. apply IH.
Qed.

Lemma preserves_for_loop t idecl left kind righti n ival :
  preserves P (for_loop eval_stmt t idecl left kind righti n ival).
Proof.
  revert ival. induction n as [|n IH]; intros ival; simpl; pres;
    try apply preserves_eval_stmts; apply IH.
Qed.

Lemma preserves_eval_stmt_body t : preserves P (eval_stmt_body eval_expr eval_stmt t).
Proof.
  unfold eval_stmt_body, eval_return, eval_while, eval_for, eval_if,
    eval_var_assign, eval_block, eval_exit, eval_case.
  pres;
    first [ apply preserves_eval_stmts | apply preserves_while_loop
          | apply preserves_for_loop | apply preserves_eval_case_assocs ].
Qed.

End Preservation.

(** An invariant of the state operations is an invariant of evaluation. *)
Lemma preserves_eval (P : vtable_t -> Prop) :
  (forall v, P v -> P (set_failed true v)) ->
  (forall v r, P v -> P (set_result r v)) ->
  (forall v e, P v -> P (set_exit e v)) ->
  (forall v, P v -> P (set_top (VtFrame [] :: top v) v)) ->
  (forall v f down, P v -> top v = f :: down -> P (set_top down v)) ->
  (forall name value, preserves P (vtable_bind name value)) ->
  forall fuel t, preserves P (eval_expr fuel t) /\ preserves P (eval_stmt fuel t).
Proof.
  intros H1 H2 H3 H4 H5 H6. induction fuel as [|fuel IH]; intros t; simpl.
  - split; apply preserves_out_of_fuel.
  - split.
    + apply preserves_eval_expr_body; auto; intros t'; apply IH.
    + apply preserves_eval_stmt_body; auto; intros t'; apply IH.
Qed.

(** ** [failed] is sticky *)

Lemma vtable_bind_failed name value v a v' :
  vtable_bind name value v = Done (a, v') -> failed v' = failed v.
Proof.
  unfold vtable_bind. intros H. minv.
  destruct (top v) as [|f down]; minv; auto.
  destruct (rebind name value (binding f)); minv; reflexivity.
Qed.

Lemma failed_sticky fuel t :
  preserves (fun v => failed v = true) (eval_expr fuel t) /\
  preserves (fun v => failed v = true) (eval_stmt fuel t).
Proof.
  apply preserves_eval; auto.
  intros name value v a v' Hf H. apply vtable_bind_failed in H. congruence.
Qed.

(** ** Frames never hold more than [VTABLE_SZ] bindings *)

Lemma rebind_length name value bs bs' :
  rebind name value bs = Some bs' -> length bs' = length bs.
Proof.
  revert bs'. induction bs as [|[n x] rest IH]; simpl; intros bs' H; [discriminate|].
  destruct (ident_eq n name).
  - inversion H; reflexivity.
  - destruct (rebind name value rest); [|discriminate].
    inversion H; simpl. f_equal. apply IH. reflexivity.
Qed.

Lemma rebind_get name value bs :
  match binding_get bs name with
  | Some _ => exists bs', rebind name value bs = Some bs' /\
                          binding_get bs' name = Some value /\
                          forall n, ident_eq n name = false ->
                                    binding_get bs' n = binding_get bs n
  | None => rebind name value bs = None
  end.
Proof.
  induction bs as [|[n x] rest IH]; simpl; [reflexivity|].
  destruct (ident_eq n name) eqn:E.
  - eexists. split; [reflexivity|]. simpl. rewrite E. split; [reflexivity|].
    intros n' Hn'. unfold ident_eq in *. apply String.eqb_eq in E. subst n.
    destruct (String.eqb name n') eqn:E'; [|reflexivity].
    apply String.eqb_eq in E'. subst n'. rewrite String.eqb_refl in Hn'. discriminate.
  - destruct (binding_get rest name).
    + destruct IH as (bs' & Hr & Hg & Ho). rewrite Hr. eexists. split; [reflexivity|].
      simpl. rewrite E. split; [exact Hg|].
      intros n' Hn'. destruct (ident_eq n n'); [reflexivity | apply Ho; exact Hn'].
    + rewrite IH. reflexivity.
Qed.

Lemma vtable_bind_frames name value : preserves frames_ok (vtable_bind name value).
Proof.
  intros v a v' Hok H. unfold vtable_bind in H. minv.
  unfold frames_ok in *. destruct (top v) as [|f down] eqn:Ht; minv; [rewrite Ht; exact Hok|].
  inversion Hok as [|? ? Hf Hdown]; subst.
  destruct (rebind name value (binding f)) as [bs|] eqn:Hr; minv; simpl.
  - constructor; [|exact Hdown]. unfold size; simpl.
    rewrite (rebind_length _ _ _ _ Hr). exact Hf.
  - constructor; [|exact Hdown]. unfold size in *; simpl.
    rewrite length_app; simpl. apply Nat.ltb_lt in H. unfold VTABLE_SZ in *. lia.
Qed.

Lemma frames_ok_eval fuel t :
  preserves frames_ok (eval_expr fuel t) /\ preserves frames_ok (eval_stmt fuel t).
Proof.
  apply preserves_eval; unfold frames_ok; simpl; auto.
  - intros v Hok. constructor; [unfold size, VTABLE_SZ; simpl; lia | exact Hok].
  - intros v f down Hok Ht. rewrite Ht in Hok. inversion Hok; assumption.
  - apply vtable_bind_frames.
Qed.
(** C10. Every binding frame of the evaluator holds at most 16 bindings:
    evaluation keeps every frame within [VTABLE_SZ] entries; [vtable_bind]
    replaces the value of a name the top frame already holds, appends a new
    name while the frame has fewer than 16 entries, and stops the process on
    its assertion when the frame is full; a call of a function with 17
    formal parameters is therefore stopped, while one with 16 folds. *)
Theorem vtable_bind_capacity :
  (forall fuel t, preserves frames_ok (eval_expr fuel t)) /\
  (forall fuel t, preserves frames_ok (eval_stmt fuel t)) /\
  (forall v f down name value,
      top v = f :: down ->
      match binding_get (binding f) name with
      | Some _ =>
          exists bs,
            vtable_bind name value v = Done (tt, set_top (VtFrame bs :: down) v) /\
            length bs = size f /\
            binding_get bs name = Some value /\
            (forall n, ident_eq n name = false ->
                       binding_get bs n = binding_get (binding f) n)
      | None =>
          if (size f <? VTABLE_SZ)%nat
          then vtable_bind name value v =
               Done (tt, set_top (VtFrame (binding f ++ [(name, value)]) :: down) v)
          else vtable_bind name value v = Fatal
      end) /\
  eval 3 (wide_call 16) = Done (get_int_lit (mk_ref (mk_port "X1")) 1) /\
  eval 3 (wide_call 17) = Fatal.
Proof.
  split; [intros; apply frames_ok_eval|].
  split; [intros; apply frames_ok_eval|].
  split.
  - intros v f down name value Ht.
    pose proof (rebind_get name value (binding f)) as Hr.
    unfold vtable_bind, bind, get. rewrite Ht.
    destruct (binding_get (binding f) name).
    + destruct Hr as (bs & Hr & Hg & Ho). exists bs. rewrite Hr.
      split; [reflexivity|]. split; [|split; assumption].
      unfold size. eapply rebind_length; eassumption.
    + rewrite Hr. destruct (size f <? VTABLE_SZ)%nat; reflexivity.
  - split; vm_compute; reflexivity.
Qed.

Lemma vtable_bind_capacity_witness :
  vtable_bind "X17" (lit_int 17)
    (VTable [VtFrame (map (fun i => ("X" ++ string_of_Z (Z.of_nat i), lit_int 0))
                          (seq 1 16))] false None None) = Fatal.
Proof.
  pose proof vtable_bind_capacity as (_ & _ & H & _).
  exact (H (VTable [VtFrame (map (fun i => ("X" ++ string_of_Z (Z.of_nat i), lit_int 0))
                          (seq 1 16))] false None None) _ _ "X17" (lit_int 17) eq_refl).
Defined.

(** ** Universal operators *)

Lemma eval_fcall_universal_none t builtin args :
  is_universal builtin = true ->
  (eval_fcall_universal t builtin args = None <->
   universal_args args (if icmp builtin "mulir" then 1 else 0)%nat
                       (if icmp builtin "mulir" then 0 else 1)%nat = None).
Proof.
  unfold is_universal, eval_fcall_universal, icmp. intros Hu.
  destruct (String.eqb builtin "mulri") eqn:E1.
  - apply String.eqb_eq in E1. subst builtin. simpl.
    destruct (universal_args args 0 1) as [[? ?]|]; split; intros H;
      try discriminate; reflexivity.
  - destruct (String.eqb builtin "mulir") eqn:E2.
    + apply String.eqb_eq in E2. subst builtin. simpl.
      destruct (universal_args args 1 0) as [[? ?]|]; split; intros H;
        try discriminate; reflexivity.
    + destruct (String.eqb builtin "divri") eqn:E3; [|discriminate].
      apply String.eqb_eq in E3. subst builtin. simpl.
      destruct (universal_args args 0 1) as [[? ?]|]; split; intros H;
        try discriminate; reflexivity.
Qed.

(** C2, as the code has it.  The flag [failed] is sticky: no expression and
    no statement clears it.  When the evaluation of a call ends with
    [failed] set, [eval] returns the call intact.  Every statement that
    cannot be folded sets [failed] and returns: a statement of a kind the
    evaluator does not know; an [if], a [while] or an [exit] whose
    condition does not fold to a boolean; a [case] over an array, a [case]
    whose selector or whose choice does not fold to an integer; a [for]
    whose range is not [to] or [downto] or whose ends do not fold to
    integers; an assignment whose target is not a reference or whose value
    does not fold.  A call of a universal mixed operator ([mulri], [mulir],
    [divri]) is different: when its operands do not fold to the real and
    the integer it expects, the process is stopped by [fatal_at] and
    nothing is returned. *)
Theorem eval_failed_sticky_universal_fatal :
  (forall fuel t, preserves (fun v => failed v = true) (eval_expr fuel t)) /\
  (forall fuel t, preserves (fun v => failed v = true) (eval_stmt fuel t)) /\
  (forall fuel c r v',
      tree_kind c = T_FCALL ->
      eval_fcall (eval_expr fuel) (eval_stmt fuel) c vt_init = Done (r, v') ->
      failed v' = true ->
      eval fuel c = Done c) /\
  (forall fuel t v,
      match tree_kind t with
      | T_RETURN | T_WHILE | T_FOR | T_IF | T_VAR_ASSIGN | T_BLOCK | T_EXIT
      | T_CASE => True
      | _ => eval_stmt (S fuel) t v = Done (tt, set_failed true v)
      end) /\
  (forall fuel t c v cond v1,
      tree_kind t = T_IF ->
      t_value t = Some c ->
      eval_expr fuel c v = Done (cond, v1) ->
      folded_bool cond = None ->
      eval_stmt (S fuel) t v = Done (tt, set_failed true v1)) /\
  (forall fuel t value ty v,
      tree_kind t = T_CASE ->
      t_value t = Some value -> t_type value = Some ty ->
      type_is_array ty = true ->
      eval_stmt (S fuel) t v = Done (tt, set_failed true v)) /\
  (forall fuel t value ty v x v1,
      tree_kind t = T_CASE ->
      t_value t = Some value -> t_type value = Some ty ->
      type_is_array ty = false ->
      eval_expr fuel value v = Done (x, v1) ->
      folded_int x = None ->
      eval_stmt (S fuel) t v = Done (tt, set_failed true v1)) /\
  (forall fuel (es : tree_t -> E unit) value_int a rest name v c v1,
      tree_subkind a = A_NAMED ->
      t_name a = Some name ->
      eval_expr fuel name v = Done (c, v1) ->
      folded_int c = None ->
      eval_case_assocs (eval_expr fuel) es value_int (a :: rest) v
      = Done (tt, set_failed true v1)) /\
  (forall fuel (es : tree_t -> E unit) t n iters c v cond v1,
      result v = None ->
      t_value t = Some c ->
      eval_expr fuel c v = Done (cond, v1) ->
      folded_bool cond = None ->
      while_loop (eval_expr fuel) es t (S n) iters v = Done (O, set_failed true v1)) /\
  (forall fuel t c v cond v1,
      tree_kind t = T_WHILE ->
      result v = None ->
      t_value t = Some c ->
      eval_expr fuel c v = Done (cond, v1) ->
      folded_bool cond = None ->
      eval_stmt (S fuel) t v = Done (tt, set_failed true v1)) /\
  (forall fuel t r v,
      tree_kind t = T_FOR ->
      t_range t = Some r -> r_kind r = RANGE_EXPR ->
      eval_stmt (S fuel) t v = Done (tt, set_failed true v)) /\
  (forall fuel t r v lft v1 rgt v2,
      tree_kind t = T_FOR ->
      t_range t = Some r -> r_kind r <> RANGE_EXPR ->
      eval_expr fuel (r_left r) v = Done (lft, v1) ->
      eval_expr fuel (r_right r) v1 = Done (rgt, v2) ->
      folded_int lft = None \/ folded_int rgt = None ->
      eval_stmt (S fuel) t v = Done (tt, set_failed true v2)) /\
  (forall fuel t target v,
      tree_kind t = T_VAR_ASSIGN ->
      t_target t = Some target -> tree_kind target <> T_REF ->
      eval_stmt (S fuel) t v = Done (tt, set_failed true v)) /\
  (forall fuel t target value v updated v1,
      tree_kind t = T_VAR_ASSIGN ->
      t_target t = Some target -> tree_kind target = T_REF ->
      t_value t = Some value ->
      eval_expr fuel value v = Done (updated, v1) ->
      folded updated = false ->
      eval_stmt (S fuel) t v = Done (tt, set_failed true v1)) /\
  (forall fuel t c v cond v1,
      tree_kind t = T_EXIT ->
      t_value t = Some c ->
      eval_expr fuel c v = Done (cond, v1) ->
      folded_bool cond = None ->
      eval_stmt (S fuel) t v = Done (tt, set_failed true v1)) /\
  (forall fuel c decl builtin targs v',
      tree_kind c = T_FCALL ->
      t_ref c = Some decl ->
      tree_kind decl = T_FUNC_DECL ->
      tree_attr_str decl builtin_i = Some builtin ->
      is_universal builtin = true ->
      map_each (t_params c) (fun p => e <- tree_value p ;; eval_expr fuel e) vt_init
      = Done (targs, v') ->
      universal_args targs (if icmp builtin "mulir" then 1 else 0)%nat
                           (if icmp builtin "mulir" then 0 else 1)%nat = None ->
      eval fuel c = Fatal).
Proof.
  assert (Hwhile : forall fuel (es : tree_t -> E unit) t n iters c v cond v1,
             result v = None -> t_value t = Some c ->
             eval_expr fuel c v = Done (cond, v1) -> folded_bool cond = None ->
             while_loop (eval_expr fuel) es t (S n) iters v
             = Done (O, set_failed true v1)).
  { intros fuel es t n iters c v cond v1 Hr Hv He Hb. cbn [while_loop].
    erewrite bind_run by reflexivity. cbv beta. rewrite Hr, Hv.
    erewrite bind_run
      by (erewrite bind_run by exact He; cbv beta; rewrite Hb; reflexivity).
    reflexivity. }
  split; [intros; apply failed_sticky|].
  split; [intros; apply failed_sticky|].
  repeat match goal with |- _ /\ _ => split end.
  - intros fuel c r v' Hk He Hf. unfold eval. rewrite Hk, He, Hf. reflexivity.
  - intros fuel t v. simpl. unfold eval_stmt_body.
    destruct (tree_kind t); try exact I; reflexivity.
  - intros fuel t c v cond v1 Hk Hv He Hb. simpl. unfold eval_stmt_body.
    rewrite Hk. unfold eval_if, tree_value, bind. rewrite Hv. simpl.
    rewrite He, Hb. reflexivity.
  - intros fuel t value ty v Hk Hv Ht Ha. cbn [eval_stmt]. unfold eval_stmt_body.
    rewrite Hk. unfold eval_case, tree_value, tree_type. rewrite Hv.
    erewrite bind_run by reflexivity. cbv beta. rewrite Ht.
    erewrite bind_run by reflexivity. cbv beta. rewrite Ha. reflexivity.
  - intros fuel t value ty v x v1 Hk Hv Ht Ha He Hx. cbn [eval_stmt].
    unfold eval_stmt_body. rewrite Hk. unfold eval_case, tree_value, tree_type.
    rewrite Hv. erewrite bind_run by reflexivity. cbv beta. rewrite Ht.
    erewrite bind_run by reflexivity. cbv beta. rewrite Ha.
    erewrite bind_run by exact He. cbv beta. rewrite Hx. reflexivity.
  - intros fuel es value_int a rest name v c v1 Hk Hn He Hc.
    cbn [eval_case_assocs]. rewrite Hk. unfold tree_name. rewrite Hn.
    erewrite bind_run by reflexivity. cbv beta.
    erewrite bind_run by exact He. cbv beta. rewrite Hc. reflexivity.
  - exact Hwhile.
  - intros fuel t c v cond v1 Hk Hr Hv He Hb. cbn [eval_stmt].
    unfold eval_stmt_body. rewrite Hk. unfold eval_while.
    change (Z.to_nat MAX_ITERS) with (S (Z.to_nat 999)).
    erewrite bind_run by (eapply Hwhile; eassumption). reflexivity.
  - intros fuel t r v Hk Hr Hkind. cbn [eval_stmt]. unfold eval_stmt_body.
    rewrite Hk. unfold eval_for, tree_range. rewrite Hr.
    erewrite bind_run by reflexivity. cbv beta. rewrite Hkind. reflexivity.
  - intros fuel t r v lft v1 rgt v2 Hk Hr Hkind Hl Hrg Hnone. cbn [eval_stmt].
    unfold eval_stmt_body. rewrite Hk. unfold eval_for, tree_range. rewrite Hr.
    erewrite bind_run by reflexivity. cbv beta.
    destruct (r_kind r); try congruence;
      (erewrite bind_run by exact Hl); cbv beta;
      (erewrite bind_run by exact Hrg); cbv beta;
      (destruct Hnone as [Hn|Hn]; rewrite Hn; [reflexivity|]);
      destruct (folded_int lft); reflexivity.
  - intros fuel t target v Hk Ht Hkt. cbn [eval_stmt]. unfold eval_stmt_body.
    rewrite Hk. unfold eval_var_assign, tree_target. rewrite Ht.
    erewrite bind_run by reflexivity. cbv beta.
    destruct (tree_kind target); try reflexivity. congruence.
  - intros fuel t target value v updated v1 Hk Ht Hkt Hv He Hf. cbn [eval_stmt].
    unfold eval_stmt_body. rewrite Hk.
    unfold eval_var_assign, tree_target, tree_value. rewrite Ht.
    erewrite bind_run by reflexivity. cbv beta. rewrite Hkt, Hv.
    erewrite bind_run by reflexivity. cbv beta.
    erewrite bind_run by exact He. cbv beta. rewrite Hf. reflexivity.
  - intros fuel t c v cond v1 Hk Hv He Hb. cbn [eval_stmt]. unfold eval_stmt_body.
    rewrite Hk. unfold eval_exit. rewrite Hv.
    erewrite bind_run by exact He. cbv beta. rewrite Hb. reflexivity.
  - intros fuel c decl builtin targs v' Hk Hr Hd Hb Hu Hargs Hnone.
    apply (eval_fcall_universal_none c) in Hnone; [|exact Hu].
    unfold eval. rewrite Hk. unfold eval_fcall, tree_ref.
    unfold bind at 1. rewrite Hr. unfold expect at 1, ret at 1. cbv beta iota.
    rewrite Hd. unfold bind at 1. unfold assert at 1, ret at 1. cbv beta iota.
    rewrite Hb. unfold bind at 1. rewrite Hargs. cbv beta iota.
    rewrite Hu. unfold expect. rewrite Hnone. reflexivity.
Qed.

Lemma eval_failed_sticky_universal_fatal_witness :
  eval 1 mulri_call = Fatal.
Proof.
  pose proof eval_failed_sticky_universal_fatal
    as (_ & _ & _ & _ & _ & _ & _ & _ & _ & _ & _ & _ & _ & _ & _ & H).
  apply (H 1%nat mulri_call (mk_builtin "mulri") "mulri" [lit_int 1; lit_int 2] vt_init);
    vm_compute; reflexivity.
Defined.

(** C2 as stated fails: a call of [mulri] whose first operand is an integer
    literal is never answered, whatever depth of evaluation is allowed, and
    the process is stopped as soon as the operands have been evaluated. *)
Lemma eval_mulri_call_stops_process :
  (forall fuel r, eval fuel mulri_call <> Done r) /\ eval 1 mulri_call = Fatal.
Proof.
  split; [|vm_compute; reflexivity].
  intros [|fuel] r; vm_compute; discriminate.
Qed.

(** ** 64-bit arithmetic *)

Lemma wrap64_range x : in_int64 (wrap64 x).
Proof.
  unfold in_int64, wrap64, INT64_MIN, INT64_MAX.
  pose proof (Z.mod_pos_bound (x + 2 ^ 63) (2 ^ 64) ltac:(lia)). lia.
Qed.

Lemma wrap64_id x : in_int64 x -> wrap64 x = x.
Proof.
  unfold in_int64, wrap64, INT64_MIN, INT64_MAX. intros H.
  rewrite Z.mod_small; lia.
Qed.

Lemma wrap64_mod x : wrap64 x mod 2 ^ 64 = x mod 2 ^ 64.
Proof.
  unfold wrap64.
  rewrite <- (Z.add_0_r ((x + 2 ^ 63) mod 2 ^ 64 - 2 ^ 63)).
  replace ((x + 2 ^ 63) mod 2 ^ 64 - 2 ^ 63 + 0)
    with ((x + 2 ^ 63) mod 2 ^ 64 + (- 2 ^ 63)) by lia.
  rewrite Zplus_mod_idemp_l. f_equal. lia.
Qed.

Lemma wrap64_eq x y : in_int64 x -> x mod 2 ^ 64 = y mod 2 ^ 64 -> x = wrap64 y.
Proof.
  intros Hx H. rewrite <- (wrap64_id x Hx). unfold wrap64.
  rewrite <- (Zplus_mod_idemp_l x), H, Zplus_mod_idemp_l. reflexivity.
Qed.

Lemma exp_loop_range n result a b :
  in_int64 result -> in_int64 (exp_loop n result a b).
Proof.
  revert result a b. induction n as [|n IH]; intros result a b Hr; cbn [exp_loop]; [exact Hr|].
  destruct (b =? 0); [exact Hr|].
  apply IH. destruct (Z.testbit b 0); [apply wrap64_range | exact Hr].
Qed.

Lemma exp_loop_mod n result a b :
  0 <= b < 2 ^ Z.of_nat n ->
  exp_loop n result a b mod 2 ^ 64 = (result * a ^ b) mod 2 ^ 64.
Proof.
  revert result a b. induction n as [|n IH]; intros result a b Hb.
  - simpl in *. assert (b = 0) by lia. subst b. rewrite Z.pow_0_r, Z.mul_1_r. reflexivity.
  - cbn [exp_loop]. destruct (b =? 0) eqn:Eb.
    + apply Z.eqb_eq in Eb. subst b. rewrite Z.pow_0_r, Z.mul_1_r. reflexivity.
    + apply Z.eqb_neq in Eb.
      assert (Hhalf : 0 <= Z.shiftr b 1 < 2 ^ Z.of_nat n).
      { rewrite Z.shiftr_div_pow2 by lia. change (2 ^ 1) with 2.
        rewrite Nat2Z.inj_succ, Z.pow_succ_r in Hb by lia.
        split; [apply Z.div_pos; lia | apply Z.div_lt_upper_bound; lia]. }
      rewrite IH by exact Hhalf.
      rewrite Z.shiftr_div_pow2 by lia. change (2 ^ 1) with 2.
      rewrite Z.bit0_odd.
      pose proof (Zdiv2_odd_eqn b) as Hdec. rewrite Z.div2_div in Hdec.
      assert (Hk : 0 <= b / 2) by (apply Z.div_pos; lia).
      assert (Hpow : a ^ b = (if Z.odd b then a else 1) * (a * a) ^ (b / 2)).
      { rewrite Hdec at 1. rewrite Z.pow_add_r by (destruct (Z.odd b); lia).
        rewrite Z.pow_mul_r by lia. rewrite Z.pow_2_r.
        destruct (Z.odd b); [rewrite Z.pow_1_r | rewrite Z.pow_0_r]; ring. }
      rewrite Hpow, Z.mul_assoc.
      rewrite (Z.mul_mod _ (wrap64 (a * a) ^ (b / 2))) by lia.
      rewrite (Z.mul_mod _ ((a * a) ^ (b / 2))) by lia.
      rewrite <- (Z.mod_pow_l (wrap64 (a * a))), wrap64_mod, Z.mod_pow_l.
      f_equal. f_equal.
      destruct (Z.odd b); [apply wrap64_mod | f_equal; ring].
Qed.

Lemma exp_loop_pow a b :
  0 <= b <= INT64_MAX -> exp_loop 64 1 a b = wrap64 (a ^ b).
Proof.
  intros Hb. apply wrap64_eq.
  - apply exp_loop_range. unfold in_int64, INT64_MIN, INT64_MAX. lia.
  - rewrite exp_loop_mod.
    + rewrite Z.mul_1_l. reflexivity.
    + unfold INT64_MAX in Hb. change (Z.of_nat 64) with 64. lia.
Qed.

Lemma eval_fcall_int_exp t a b :
  eval_fcall_int t "exp" [a; b] =
  if a =? 0 then Some (get_int_lit t 0)
  else if b =? 0 then Some (get_int_lit t 1)
  else if b <? 0 then Some t
  else Some (get_int_lit t (exp_loop 64 1 a b)).
Proof. reflexivity. Qed.

(** C6, as the code has it.  For a base [a] other than zero and operands
    that are 64-bit integers, the built-in [exp] with a non-negative
    exponent yields the literal [a ^ b] reduced to a 64-bit two's complement
    word, which is [a ^ b] itself whenever the power fits in 64 bits, and
    with a negative exponent it returns the call unchanged; the same holds
    of [eval] on a call of [exp] with two integer literals. *)
Theorem eval_fcall_int_exp_power (t : tree_t) (a b : Z) :
  in_int64 a -> in_int64 b -> a <> 0 ->
  (0 <= b -> eval_fcall_int t "exp" [a; b] = Some (get_int_lit t (wrap64 (a ^ b)))) /\
  (0 <= b -> in_int64 (a ^ b) ->
   eval_fcall_int t "exp" [a; b] = Some (get_int_lit t (a ^ b))) /\
  (b < 0 -> eval_fcall_int t "exp" [a; b] = Some t) /\
  (forall fuel,
      eval (S fuel) (mk_op "exp" [lit_int a; lit_int b]) =
      Done (if b <? 0 then mk_op "exp" [lit_int a; lit_int b]
            else get_int_lit (mk_op "exp" [lit_int a; lit_int b]) (wrap64 (a ^ b)))).
Proof.
  intros Ha Hb Hnz.
  assert (Hexp : 0 <= b ->
          eval_fcall_int t "exp" [a; b] = Some (get_int_lit t (wrap64 (a ^ b)))).
  { intros Hpos. rewrite eval_fcall_int_exp.
    destruct (a =? 0) eqn:Ea; [apply Z.eqb_eq in Ea; contradiction|].
    destruct (b =? 0) eqn:Eb.
    - apply Z.eqb_eq in Eb. subst b. rewrite Z.pow_0_r. reflexivity.
    - destruct (b <? 0) eqn:Elt; [apply Z.ltb_lt in Elt; lia|].
      rewrite exp_loop_pow; [reflexivity|]. unfold in_int64 in Hb. lia. }
  assert (Hneg : b < 0 -> eval_fcall_int t "exp" [a; b] = Some t).
  { intros Hlt. rewrite eval_fcall_int_exp.
    destruct (a =? 0) eqn:Ea; [apply Z.eqb_eq in Ea; contradiction|].
    destruct (b =? 0) eqn:Eb; [apply Z.eqb_eq in Eb; lia|].
    destruct (b <? 0) eqn:Elt; [reflexivity | apply Z.ltb_ge in Elt; lia]. }
  split; [exact Hexp|]. split; [|split; [exact Hneg|]].
  - intros Hpos Hfit. rewrite Hexp by exact Hpos. rewrite wrap64_id by exact Hfit.
    reflexivity.
  - intros fuel.
    match goal with
    | |- ?L = _ =>
        let L' := eval cbv -[eval_fcall_int Z.ltb Z.eqb wrap64 Z.pow] in L in
        change L with L'
    end.
    rewrite eval_fcall_int_exp.
    destruct (a =? 0) eqn:Ea; [apply Z.eqb_eq in Ea; contradiction|].
    destruct (b =? 0) eqn:Eb.
    + apply Z.eqb_eq in Eb. subst b. reflexivity.
    + destruct (b <? 0) eqn:Elt; [reflexivity|].
      apply Z.ltb_ge in Elt. rewrite exp_loop_pow; [reflexivity|].
      unfold in_int64 in Hb. lia.
Qed.

Lemma eval_fcall_int_exp_power_witness :
  eval_fcall_int (mk_op "exp" [lit_int 3; lit_int 4]) "exp" [3; 4]
  = Some (get_int_lit (mk_op "exp" [lit_int 3; lit_int 4]) (3 ^ 4)).
Proof.
  refine (proj1 (proj2 (eval_fcall_int_exp_power
                          (mk_op "exp" [lit_int 3; lit_int 4]) 3 4 _ _ _)) _ _);
    unfold in_int64, INT64_MIN, INT64_MAX; simpl; lia.
Defined.

(** C6 as stated fails twice.  With base zero a negative exponent is not
    rejected: the call is replaced by the literal 0.  And the power is not
    exact when it leaves the 64-bit range: two to the power 64 is folded to
    the literal 0. *)
Lemma exp_zero_base_and_overflow :
  eval_fcall_int (mk_op "exp" [lit_int 0; lit_int (-1)]) "exp" [0; -1]
  = Some (get_int_lit (mk_op "exp" [lit_int 0; lit_int (-1)]) 0)
  /\ eval_fcall_int (mk_op "exp" [lit_int 0; lit_int (-1)]) "exp" [0; -1]
     <> Some (mk_op "exp" [lit_int 0; lit_int (-1)])
  /\ eval 1 (mk_op "exp" [lit_int 0; lit_int (-1)])
     = Done (get_int_lit (mk_op "exp" [lit_int 0; lit_int (-1)]) 0)
  /\ eval_fcall_int (mk_op "exp" [lit_int 2; lit_int 64]) "exp" [2; 64]
     = Some (get_int_lit (mk_op "exp" [lit_int 2; lit_int 64]) 0)
  /\ tree_ival (get_int_lit (mk_op "exp" [lit_int 2; lit_int 64]) 0) <> 2 ^ 64.
Proof.
  repeat split; try (vm_compute; reflexivity); vm_compute; discriminate.
Qed.

(** With base zero the source answers before it looks at the exponent. *)
Lemma exp_zero_base t b : eval_fcall_int t "exp" [0; b] = Some (get_int_lit t 0).
Proof. reflexivity. Qed.

(** ** The iteration bound of [while] *)

Section WhileBound.

Variable eval_expr : tree_t -> E tree_t.
Variable eval_stmt : tree_t -> E unit.
Variable t : tree_t.

Lemma while_test_run v :
  (match t_value t with
   | None => ret (Some true)
   | Some value => cond <- eval_expr value ;; ret (folded_bool cond)
   end) v = while_test eval_expr t v.
Proof.
  unfold while_test. destruct (t_value t); [|reflexivity].
  unfold bind, ret. destruct (eval_expr _ v) as [[c v1]| |]; reflexivity.
Qed.

(** What one round of [while_loop] does, by the outcome of the test. *)
Lemma while_loop_round n iters v :
  while_loop eval_expr eval_stmt t (S n) iters v
  = match result v with
    | Some _ => Done (O, v)
    | None =>
        match while_test eval_expr t v with
        | Done (None, v1) => Done (O, set_failed true v1)
        | Done (Some b, v1) =>
            if negb b || failed v1 then Done (O, v1)
            else if iters + 1 =? MAX_ITERS then Done (O, set_failed true v1)
            else
              match eval_stmts eval_stmt (t_stmts t) v1 with
              | Done (_, v2) =>
                  match exit v2 with
                  | Some e =>
                      match t_ident t with
                      | Some label =>
                          Done (1%nat, if ident_eq e label then set_exit None v2 else v2)
                      | None => Fatal
                      end
                  | None =>
                      match while_loop eval_expr eval_stmt t n (iters + 1) v2 with
                      | Done (k, v') => Done (S k, v')
                      | Fatal => Fatal
                      | OutOfFuel => OutOfFuel
                      end
                  end
              | Fatal => Fatal
              | OutOfFuel => OutOfFuel
              end
        | Fatal => Fatal
        | OutOfFuel => OutOfFuel
        end
    end.
Proof.
  cbn [while_loop]. unfold bind at 1, get at 1.
  destruct (result v); [reflexivity|].
  unfold bind at 1. rewrite while_test_run.
  destruct (while_test eval_expr t v) as [[[b|] v1]| |]; try reflexivity.
  unfold bind at 1, get at 1.
  destruct (negb b || failed v1); [reflexivity|].
  destruct (iters + 1 =? MAX_ITERS); [reflexivity|].
  unfold bind at 1.
  destruct (eval_stmts eval_stmt (t_stmts t) v1) as [[[] v2]| |]; try reflexivity.
  unfold bind at 1, get at 1.
  destruct (exit v2) as [e|].
  - unfold tree_ident, expect. destruct (t_ident t) as [label|]; [|reflexivity].
    unfold bind, ret. destruct (ident_eq e label); reflexivity.
  - unfold bind, ret.
    destruct (while_loop eval_expr eval_stmt t n (iters + 1) v2) as [[k v']| |];
      reflexivity.
Qed.

(** The loop returns only after executions of the body that it has
    counted, fewer than [MAX_ITERS] of them. *)
Lemma while_loop_runs n : forall iters v k v',
  0 <= iters < MAX_ITERS ->
  while_loop eval_expr eval_stmt t n iters v = Done (k, v') ->
  Z.of_nat k <= MAX_ITERS - 1 - iters
  /\ exists vn, body_runs eval_expr eval_stmt t k v vn
                /\ while_leaves eval_expr t iters k vn v'.
Proof.
  unfold MAX_ITERS.
  induction n as [|n IH]; intros iters v k v' Hi H; [discriminate|].
  rewrite while_loop_round in H.
  destruct (result v) as [r|] eqn:Hres.
  { injection H as <- <-. split; [lia|]. exists v. split; [constructor|].
    right. split; [left; reflexivity|]. rewrite Hres. reflexivity. }
  destruct (while_test eval_expr t v) as [[[b|] v1]| |] eqn:Htest; try discriminate.
  2:{ injection H as <- <-. split; [lia|]. exists v. split; [constructor|].
      right. split; [left; reflexivity|]. rewrite Hres. exists None, v1.
      split; [exact Htest | reflexivity]. }
  destruct (negb b || failed v1) eqn:Hstop.
  { injection H as <- <-. split; [lia|]. exists v. split; [constructor|].
    right. split; [left; reflexivity|]. rewrite Hres. exists (Some b), v1.
    split; [exact Htest|]. rewrite Hstop. reflexivity. }
  destruct (iters + 1 =? MAX_ITERS) eqn:Ei.
  { apply Z.eqb_eq in Ei. unfold MAX_ITERS in Ei.
    injection H as <- <-. split; [lia|]. exists v. split; [constructor|].
    right. split; [left; reflexivity|]. rewrite Hres. exists (Some b), v1.
    split; [exact Htest|]. rewrite Hstop. unfold MAX_ITERS. split; [lia | reflexivity]. }
  apply Z.eqb_neq in Ei. unfold MAX_ITERS in Ei.
  apply orb_false_iff in Hstop. destruct Hstop as [Hb Hf].
  apply negb_false_iff in Hb. subst b.
  destruct (eval_stmts eval_stmt (t_stmts t) v1) as [[[] v2]| |] eqn:Hbody;
    try discriminate.
  assert (Hrun : body_run eval_expr eval_stmt t v v2).
  { split; [exact Hres|]. exists v1. auto. }
  destruct (exit v2) as [e|] eqn:He.
  - destruct (t_ident t) as [label|] eqn:Hl; [|discriminate].
    injection H as <- <-. split; [lia|]. exists v2. split.
    + econstructor; [exact Hrun | right; reflexivity | constructor].
    + left. split; [discriminate|]. exists e, label. auto.
  - destruct (while_loop eval_expr eval_stmt t n (iters + 1) v2) as [[k1 v1']| |] eqn:Hw;
      try discriminate.
    injection H as <- <-.
    destruct (IH (iters + 1) v2 k1 v1') as (Hk & vn & Hruns & Hleaves);
      [lia | exact Hw |].
    split; [lia|]. exists vn. split.
    + econstructor; [exact Hrun | left; exact He | exact Hruns].
    + destruct Hleaves as [(Hk0 & Hex) | (Hk0 & Hhd)].
      * left. split; [discriminate | exact Hex].
      * right. split.
        -- right. destruct Hk0 as [-> | Hk0]; [|exact Hk0].
           inversion Hruns; subst. exact He.
        -- destruct (result vn); [exact Hhd|].
           destruct Hhd as (c & v3 & Ht3 & Hc). exists c, v3. split; [exact Ht3|].
           destruct c as [b|]; [|exact Hc].
           destruct (negb b || failed v3); [exact Hc|].
           unfold MAX_ITERS in *. destruct Hc as [Hc ->]. split; [lia | reflexivity].
Qed.

(** Conversely, executions of the body that the counter allows, followed
    by one of the ways out, are what the loop does. *)
Lemma while_loop_complete k v vn :
  body_runs eval_expr eval_stmt t k v vn ->
  forall n iters v',
    0 <= iters -> iters + Z.of_nat k < MAX_ITERS -> (k < n)%nat ->
    while_leaves eval_expr t iters k vn v' ->
    while_loop eval_expr eval_stmt t n iters v = Done (k, v').
Proof.
  unfold MAX_ITERS.
  induction 1 as [v | k v v1 vn Hrun Hex Hruns IH]; intros n iters v' Hi Hk Hn Hl.
  - destruct n as [|n]; [lia|]. rewrite while_loop_round.
    destruct Hl as [(Hk0 & _) | (_ & Hhd)]; [congruence|].
    destruct (result v); [rewrite Hhd; reflexivity|].
    destruct Hhd as (c & v1 & Ht & Hc). rewrite Ht.
    destruct c as [b|]; [|rewrite Hc; reflexivity].
    destruct (negb b || failed v1); [rewrite Hc; reflexivity|].
    unfold MAX_ITERS in *. destruct Hc as [Hc ->].
    replace (iters + 1 =? 1000) with true by (symmetry; apply Z.eqb_eq; lia).
    reflexivity.
  - destruct n as [|n]; [lia|]. rewrite while_loop_round.
    destruct Hrun as (Hres & v0 & Ht & Hf & Hbody).
    rewrite Hres, Ht, Hf. cbn [negb orb].
    replace (iters + 1 =? MAX_ITERS) with false
      by (symmetry; apply Z.eqb_neq; unfold MAX_ITERS; lia).
    rewrite Hbody.
    destruct (exit v1) as [e|] eqn:He.
    + destruct Hex as [Hex | ->]; [discriminate|].
      inversion Hruns; subst.
      destruct Hl as [(_ & e' & label & He' & Hlab & ->) | ([Hk0 | Hk0] & _)];
        [|discriminate | congruence].
      rewrite Hlab. assert (e' = e) by congruence. subst e'. reflexivity.
    + rewrite (IH n (iters + 1) v'); [reflexivity | lia | lia | lia |].
      destruct Hl as [(_ & Hx) | (Hk0 & Hhd)].
      * left. split; [|exact Hx].
        intros ->. inversion Hruns; subst.
        destruct Hx as (e & label & Hx & _). congruence.
      * right. split.
        -- destruct Hk0 as [Hk0 | Hk0]; [discriminate | right; exact Hk0].
        -- destruct (result vn); [exact Hhd|].
           destruct Hhd as (c & v3 & Ht3 & Hc). exists c, v3. split; [exact Ht3|].
           destruct c as [b|]; [|exact Hc].
           destruct (negb b || failed v3); [exact Hc|].
           unfold MAX_ITERS in *. destruct Hc as [Hc ->]. split; [lia | reflexivity].
Qed.

(** The rounds of the embedding never run out: only a test or a body that
    does not come back stops the loop short. *)
Lemma while_loop_fuel n : forall iters v,
  0 <= iters < MAX_ITERS ->
  MAX_ITERS - iters <= Z.of_nat n ->
  while_loop eval_expr eval_stmt t n iters v = OutOfFuel ->
  exists v0, while_test eval_expr t v0 = OutOfFuel
             \/ eval_stmts eval_stmt (t_stmts t) v0 = OutOfFuel.
Proof.
  unfold MAX_ITERS. induction n as [|n IH]; intros iters v Hi Hn H; [lia|].
  rewrite while_loop_round in H.
  destruct (result v); [discriminate|].
  destruct (while_test eval_expr t v) as [[[b|] v1]| |] eqn:Htest; try discriminate.
  2:{ exists v. left. exact Htest. }
  destruct (negb b || failed v1); [discriminate|].
  destruct (iters + 1 =? MAX_ITERS) eqn:Ei; [discriminate|].
  apply Z.eqb_neq in Ei. unfold MAX_ITERS in Ei.
  destruct (eval_stmts eval_stmt (t_stmts t) v1) as [[[] v2]| |] eqn:Hbody;
    try discriminate.
  2:{ exists v1. right. exact Hbody. }
  destruct (exit v2).
  - destruct (t_ident t); discriminate.
  - destruct (while_loop eval_expr eval_stmt t n (iters + 1) v2) as [[k v']| |] eqn:Hw;
      try discriminate.
    apply (IH (iters + 1) v2); [lia | lia | exact Hw].
Qed.

End WhileBound.

(** C5. One activation of a [while] loop, whatever the evaluators of its
    condition and of its statements.  The loop comes back with [k] and the
    state [v'] exactly when [k] executions of the body, each entered at the
    head of the loop with no result, the test true and nothing failed, lead
    from [v] to a state from which the loop is left in [v'] without another
    execution of the body, and [k] is at most 999, so fewer than 1000.  A
    loop that has executed its body 999 times and whose test is true once
    more is left with [failed] set.  [eval_while] is that loop, and the
    rounds of the embedding never run out on their own account. *)
Theorem eval_while_iteration_bound
  (eval_expr : tree_t -> E tree_t) (eval_stmt : tree_t -> E unit) (t : tree_t) :
  (forall v k v',
      while_loop eval_expr eval_stmt t (Z.to_nat MAX_ITERS) 0 v = Done (k, v') <->
      (k <= 999)%nat
      /\ exists vn, body_runs eval_expr eval_stmt t k v vn
                    /\ while_leaves eval_expr t 0 k vn v') /\
  (forall v vn v1,
      body_runs eval_expr eval_stmt t 999 v vn ->
      exit vn = None -> result vn = None ->
      while_test eval_expr t vn = Done (Some true, v1) ->
      failed v1 = false ->
      while_loop eval_expr eval_stmt t (Z.to_nat MAX_ITERS) 0 v
      = Done (999%nat, set_failed true v1)
      /\ failed (set_failed true v1) = true) /\
  (forall v,
      eval_while eval_expr eval_stmt t v =
      match while_loop eval_expr eval_stmt t (Z.to_nat MAX_ITERS) 0 v with
      | Done (_, v') => Done (tt, v')
      | Fatal => Fatal
      | OutOfFuel => OutOfFuel
      end) /\
  (forall v,
      while_loop eval_expr eval_stmt t (Z.to_nat MAX_ITERS) 0 v = OutOfFuel ->
      exists v0, while_test eval_expr t v0 = OutOfFuel
                 \/ eval_stmts eval_stmt (t_stmts t) v0 = OutOfFuel).
Proof.
  assert (Hfuel : (999 < Z.to_nat MAX_ITERS)%nat).
  { unfold MAX_ITERS. apply Nat2Z.inj_lt. rewrite Z2Nat.id; lia. }
  split; [|split; [|split]].
  - intros v k v'. split.
    + intros H. apply while_loop_runs in H; [|unfold MAX_ITERS; lia].
      destruct H as (Hk & vn & Hruns & Hl). unfold MAX_ITERS in Hk.
      split; [lia|]. exists vn. auto.
    + intros (Hk & vn & Hruns & Hl).
      apply (while_loop_complete eval_expr eval_stmt t k v vn Hruns);
        [lia | unfold MAX_ITERS; lia | lia | exact Hl].
  - intros v vn v1 Hruns He Hres Ht Hf. split; [|reflexivity].
    apply (while_loop_complete eval_expr eval_stmt t 999 v vn Hruns);
      [lia | unfold MAX_ITERS; lia | exact Hfuel |].
    right. split; [right; exact He|]. rewrite Hres. exists (Some true), v1.
    split; [exact Ht|]. rewrite Hf. split; reflexivity.
  - intros v. unfold eval_while, bind.
    destruct (while_loop eval_expr eval_stmt t (Z.to_nat MAX_ITERS) 0 v) as [[k v']| |];
      reflexivity.
  - intros v. apply while_loop_fuel; unfold MAX_ITERS;
      try change (Z.of_nat (Z.to_nat 1000)) with 1000; lia.
Qed.

(** The loop [while true loop r := r + 1; end loop;], entered with [r] at
    0 under the evaluator itself: it comes back after 999 executions of the
    body, with [r] at 999 and [failed] set. *)
Lemma eval_while_iteration_bound_witness :
  exists v',
    while_loop (eval_expr 3) (eval_stmt 3) counting_loop (Z.to_nat MAX_ITERS) 0 vt_r0
    = Done (999%nat, v')
    /\ failed v' = true
    /\ option_map tree_ival (vtable_get v' "R") = Some 999
    /\ (999 <= 999)%nat
    /\ exists vn, body_runs (eval_expr 3) (eval_stmt 3) counting_loop 999 vt_r0 vn
                  /\ while_leaves (eval_expr 3) counting_loop 0 999 vn v'.
Proof.
  let r := eval vm_compute in
        (while_loop (eval_expr 3) (eval_stmt 3) counting_loop (Z.to_nat MAX_ITERS) 0 vt_r0) in
  match r with
  | Done (_, ?v') => exists v'
  end.
  assert (H : while_loop (eval_expr 3) (eval_stmt 3) counting_loop (Z.to_nat MAX_ITERS) 0
                         vt_r0 = Done (999%nat, _)) by (vm_compute; reflexivity).
  split; [exact H|].
  split; [reflexivity|].
  split; [vm_compute; reflexivity|].
  exact (proj1 (proj1 (eval_while_iteration_bound (eval_expr 3) (eval_stmt 3) counting_loop)
                  vt_r0 999%nat _) H).
Defined.

(** ** The [for] loop *)

(** C3 at its failing inputs.  A loop over [1 to 3] runs its body three
    times; the loop over [3 downto 1] does not run it at all; the loop over
    the null range [1 downto 3] does run it, with the loop variable at 1;
    and a loop whose body executes [exit] for this very loop goes on to the
    end of its range, leaving the exit pending. *)
Theorem eval_for_downto_and_exit :
  eval 6 (count_rounds 1 3 RANGE_TO) = Done (get_int_lit (mk_op "add" []) 3)
  /\ eval 6 (count_rounds 3 1 RANGE_DOWNTO) = Done (lit_int 0)
  /\ eval 6 (first_round 1 3 RANGE_DOWNTO) = Done (get_int_lit (lit_int 1) 1)
  /\ (exists v',
        eval_stmt 5 for_exit vt_r0 = Done (tt, v')
        /\ vtable_get v' "R" = Some (get_int_lit (mk_op "add" []) 3)
        /\ exit v' = Some "L2").
Proof.
  split; [vm_compute; reflexivity|].
  split; [vm_compute; reflexivity|].
  split; [lazy; reflexivity|].
  eexists. split; [vm_compute; reflexivity|].
  split; vm_compute; reflexivity.
Qed.

(** ** Array references *)

Lemma find_attr_set_attr name a l : find_attr name (set_attr name a l) = Some a.
Proof.
  induction l as [|[n x] rest IH]; simpl.
  - unfold ident_eq. rewrite String.eqb_refl. reflexivity.
  - destruct (ident_eq n name) eqn:E; simpl; rewrite E; [reflexivity | exact IH].
Qed.

Lemma tree_attr_int_add t name n def :
  tree_attr_int (tree_add_attr_int t name n) name def = n.
Proof.
  destruct t. unfold tree_attr_int. simpl. rewrite find_attr_set_attr. reflexivity.
Qed.

Lemma errors_added_refl s : errors_added s s 0.
Proof. split; [simpl; lia | exists []; rewrite app_nil_r; auto]. Qed.

Lemma errors_added_trans s1 s2 s3 n m :
  errors_added s1 s2 n -> errors_added s2 s3 m -> errors_added s1 s3 (n + m).
Proof.
  intros [H1 (d1 & R1 & L1)] [H2 (d2 & R2 & L2)]. split.
  - rewrite H2, H1. lia.
  - exists (d1 ++ d2)%list. rewrite R2, R1, app_assoc, length_app. auto.
Qed.

Lemma bounds_error_added t fmt args s :
  exists s', bounds_error t fmt args s = Done (tt, s') /\ errors_added s s' 1.
Proof.
  eexists. split; [reflexivity|]. split; [reflexivity|].
  eexists. split; [reflexivity|reflexivity].
Qed.

Section ArrayRef.

Variables (t value : tree_t) (value_type : type_t).
Hypothesis Hname : is_kind_ref value = true -> t_ident value <> None.

Lemma array_name_done (s : bounds_t) :
  exists name, array_name value s = Done (name, s).
Proof.
  unfold array_name. destruct (is_kind_ref value) eqn:Hr.
  - destruct (t_ident value) as [id|] eqn:Hid.
    + exists (Some (istr id)). unfold tree_ident, bind. rewrite Hid. reflexivity.
    + exfalso. exact (Hname eq_refl eq_refl).
  - exists None. reflexivity.
Qed.

Lemma static_index_inv i index b :
  static_index t value_type i = Some (index, b) ->
  exists p e lft rgt,
    nth_error (t_params t) i = Some p /\ t_value p = Some e /\
    folded_int e = Some index /\ nth_error (ty_dims value_type) i = Some b /\
    r_kind b <> RANGE_EXPR /\
    folded_int (r_left b) = Some lft /\ folded_int (r_right b) = Some rgt.
Proof.
  unfold static_index.
  destruct (nth_error (t_params t) i) as [p|] eqn:Hp; [|discriminate].
  destruct (t_value p) as [e|] eqn:He; [|discriminate].
  destruct (folded_int e) as [index'|] eqn:Hi; [|discriminate].
  destruct (nth_error (ty_dims value_type) i) as [b'|] eqn:Hb; [|discriminate].
  destruct (r_kind b') eqn:Hk; try discriminate;
    (destruct (folded_int (r_left b')) as [lft|] eqn:Hl; [|discriminate]);
    (destruct (folded_int (r_right b')) as [rgt|] eqn:Hr; [|discriminate]);
    intros H; apply some_eq_inv in H;
    assert (index' = index) by congruence; assert (b' = b) by congruence; subst;
    exists p, e, lft, rgt; rewrite ?Hk; repeat split; auto; try congruence.
Qed.

Lemma bounds_check_index_static nstatic i s :
  is_some (static_index t value_type i) = true ->
  exists s',
    bounds_check_index t value value_type nstatic i s
    = Done (if index_out_of_bounds t value_type i then nstatic else S nstatic, s')
    /\ errors_added s s' (if index_out_of_bounds t value_type i then 1 else 0).
Proof.
  unfold index_out_of_bounds.
  destruct (static_index t value_type i) as [[index b]|] eqn:Hs; [|discriminate].
  intros _. apply static_index_inv in Hs.
  destruct Hs as (p & e & lft & rgt & Hp & He & Hi & Hb & Hk & Hl & Hr).
  unfold bounds_check_index, tree_param, nth_item, tree_value, type_dim.
  unfold bind at 1. rewrite Hp. simpl expect. unfold ret at 1. cbv beta iota.
  unfold bind at 1. rewrite He. simpl expect. unfold ret at 1. cbv beta iota.
  rewrite Hi. unfold bind at 1. rewrite Hb. simpl expect. unfold ret at 1.
  cbv beta iota. unfold folded_bounds. rewrite Hl, Hr.
  destruct (r_kind b); [| |contradiction]; simpl is_to; cbv beta iota zeta;
    destruct ((index <? _) || (index >? _));
    try (eexists; split; [reflexivity | apply errors_added_refl]).
  all: destruct (array_name_done s) as (name & Hn); unfold bind at 1; rewrite Hn.
  all: eexists; (split; [reflexivity|]).
  all: split; [reflexivity|]; eexists; split; reflexivity.
Qed.

Lemma bounds_check_indexes_static (is_ : list nat) nstatic s :
  forallb (fun i => is_some (static_index t value_type i)) is_ = true ->
  exists s',
    fold_each is_ nstatic (bounds_check_index t value value_type) s
    = Done ((nstatic + length is_
             - length (filter (index_out_of_bounds t value_type) is_))%nat, s')
    /\ errors_added s s' (length (filter (index_out_of_bounds t value_type) is_))
    /\ (length (filter (index_out_of_bounds t value_type) is_) <= length is_)%nat.
Proof.
  revert nstatic s. induction is_ as [|i rest IH]; intros nstatic s Hall; simpl.
  - exists s. rewrite Nat.add_0_r, Nat.sub_0_r. split; [reflexivity|].
    split; [apply errors_added_refl | lia].
  - simpl in Hall. apply andb_prop in Hall. destruct Hall as [Hi Hrest].
    destruct (bounds_check_index_static nstatic i s Hi) as (s1 & H1 & A1).
    unfold bind. rewrite H1.
    destruct (index_out_of_bounds t value_type i); simpl.
    + destruct (IH nstatic s1 Hrest) as (s2 & H2 & A2 & L2). exists s2. rewrite H2.
      split; [f_equal; f_equal; lia|]. split; [|lia].
      apply (errors_added_trans _ _ _ 1 _ A1 A2).
    + destruct (IH (S nstatic) s1 Hrest) as (s2 & H2 & A2 & L2). exists s2. rewrite H2.
      split; [f_equal; f_equal; lia|]. split; [|lia].
      apply (errors_added_trans _ _ _ 0 _ A1 A2).
Qed.

End ArrayRef.

(** C8, as the code has it.  For an array reference all of whose indexes
    are static, [bounds_check_array_ref] reports one error for each index
    that is out of the bounds of its dimension; when no index is out of
    bounds the node is returned with [elide_bounds] set to 1, and otherwise
    it is returned as it was. *)
Theorem bounds_check_array_ref_static (t value : tree_t) (value_type : type_t)
                                      (s : bounds_t) :
  t_value t = Some value ->
  t_type value = Some value_type ->
  type_is_unconstrained value_type = false ->
  (is_kind_ref value = true -> t_ident value <> None) ->
  all_static t value_type = true ->
  exists s',
    bounds_check_array_ref t s
    = Done (if (out_of_bounds_count t value_type =? 0)%nat
            then tree_add_attr_int t elide_bounds_i 1 else t, s')
    /\ errors_added s s' (out_of_bounds_count t value_type)
    /\ (out_of_bounds_count t value_type = 0%nat ->
        tree_attr_int (tree_add_attr_int t elide_bounds_i 1) elide_bounds_i 0 = 1).
Proof.
  intros Hv Ht Hu Hname Hall.
  destruct (bounds_check_indexes_static t value value_type Hname
              (seq 0 (tree_params t)) 0 s Hall) as (s' & Hf & Ha & Hle).
  exists s'. unfold bounds_check_array_ref, tree_value, tree_type, tree_has_type.
  unfold bind, expect, ret. rewrite Hv, Ht. cbv beta iota. rewrite Hu.
  cbv beta iota zeta. change (negb true) with false. cbv beta iota. rewrite Hf.
  cbv beta iota.
  fold (out_of_bounds_count t value_type) in *.
  rewrite length_seq in *.
  split; [|split; [exact Ha | intros _; apply tree_attr_int_add]].
  f_equal. f_equal.
  destruct (out_of_bounds_count t value_type =? 0)%nat eqn:E.
  - apply Nat.eqb_eq in E. rewrite E.
    replace (0 + tree_params t - 0 =? tree_params t)%nat with true; [reflexivity|].
    symmetry. apply Nat.eqb_eq. lia.
  - apply Nat.eqb_neq in E.
    replace (0 + tree_params t - out_of_bounds_count t value_type =? tree_params t)%nat
      with false; [reflexivity|].
    symmetry. apply Nat.eqb_neq. lia.
Qed.

Lemma bounds_check_array_ref_static_witness :
  exists s',
    bounds_check_array_ref (mk_array_ref (mk_ref sig_a) [lit_int 3]) bounds_init
    = Done (tree_add_attr_int (mk_array_ref (mk_ref sig_a) [lit_int 3]) elide_bounds_i 1,
            s')
    /\ errors_added bounds_init s' 0.
Proof.
  destruct (bounds_check_array_ref_static
              (mk_array_ref (mk_ref sig_a) [lit_int 3]) (mk_ref sig_a)
              (mk_carray "BIT_VECTOR" [mk_range 0 7 RANGE_TO] std_bit) bounds_init)
    as (s' & H & A & _); try reflexivity.
  - intros _ H. discriminate H.
  - exists s'. split; [exact H | exact A].
Defined.

(** C8 as stated fails: a reference with two indexes out of bounds is
    reported twice. *)
Lemma array_ref_two_indexes_two_errors :
  exists s',
    bounds_check (mk_array_ref (mk_ref sig_m) [lit_int 9; lit_int 9]) bounds_init
    = Done (mk_array_ref (mk_ref sig_m) [lit_int 9; lit_int 9], s')
    /\ bounds_errors s' = 2.
Proof. eexists. split; vm_compute; reflexivity. Qed.

(** Scenario 5 of the specification: [a(9)] for [a : bit_vector(0 to 7)]. *)
Lemma array_ref_scenario :
  bounds_check (mk_array_ref (mk_ref sig_a) [lit_int 9]) bounds_init
  = Done (mk_array_ref (mk_ref sig_a) [lit_int 9],
          Bounds 1 [Diag (Loc 0 0) "array %s%sindex %li out of bounds %li %s %li"
                         [ArgStr "A"; ArgStr " "; ArgInt 9; ArgInt 0; ArgStr "to";
                          ArgInt 7]]).
Proof. vm_compute. reflexivity. Qed.

(** ** Array case statements *)

Lemma bounds_case_array_named expect (nameds : list tree_t) have s :
  Forall (fun a => tree_subkind a = A_NAMED) nameds ->
  0 <= have ->
  have + Z.of_nat (length nameds) <= INT64_MAX ->
  fold_each nameds have (bounds_case_array_choice expect) s
  = Done (have + Z.of_nat (length nameds), s).
Proof.
  revert have. induction nameds as [|a rest IH]; intros have Hn H0 Hmax.
  - simpl. rewrite Z.add_0_r. reflexivity.
  - inversion Hn as [|? ? Ha Hrest]; subst.
    cbn [fold_each]. unfold bind. unfold bounds_case_array_choice at 1. rewrite Ha.
    unfold ret at 1. cbv beta iota.
    assert (Hw : wrap64 (have + 1) = have + 1).
    { apply wrap64_id. unfold in_int64, INT64_MIN, INT64_MAX in *.
      rewrite length_cons, Nat2Z.inj_succ in Hmax. lia. }
    rewrite Hw. rewrite IH; auto.
    + f_equal. f_equal. rewrite length_cons, Nat2Z.inj_succ. lia.
    + lia.
    + rewrite length_cons, Nat2Z.inj_succ in Hmax. lia.
Qed.

Lemma fold_each_app {S A C : Type} (l1 l2 : list A) (acc : C) (body : C -> A -> M S C) s :
  fold_each (l1 ++ l2) acc body s
  = (acc' <- fold_each l1 acc body ;; fold_each l2 acc' body) s.
Proof.
  revert acc s. induction l1 as [|x l1 IH]; intros acc s; simpl.
  - reflexivity.
  - unfold bind. destruct (body acc x s) as [[acc1 s1]| |]; [|reflexivity..].
    rewrite IH. reflexivity.
Qed.

(** C7, as the code has it.  For a case statement over an array whose
    element cardinality and length fold, the required number of choices is
    [elemsz ^ length] held in a 64-bit word, and the sentinel [INT64_MAX]
    when the cardinality [elemsz] itself exceeds [INT32_MAX].  Named choices
    count one each and an [others] choice at the end makes up the rest.
    When the count differs from the required number one error is reported:
    that the choices cover only [have] of [expect] values, or, when the
    required number is the sentinel, that they do not cover all values. *)
Theorem bounds_check_case_array_count
  (t value : tree_t) (type elem : type_t) (elemsz length : Z) (r : range_t)
  (nameds others : list tree_t) (s : bounds_t) :
  t_value t = Some value ->
  t_type value = Some type ->
  type_is_enum type = false ->
  type_is_integer type = false ->
  type_is_array type = true ->
  type_elem_opt type = Some elem ->
  elem_cardinality elem = Some elemsz ->
  nth_error (ty_dims type) 0 = Some r ->
  folded_length r = Some length ->
  t_assocs t = (nameds ++ others)%list ->
  Forall (fun a => tree_subkind a = A_NAMED) nameds ->
  Forall (fun a => tree_subkind a = A_OTHERS) others ->
  (List.length others <= 1)%nat ->
  Z.of_nat (List.length nameds) <= INT64_MAX ->
  let expect := if elemsz >? INT32_MAX then INT64_MAX else wrap64 (elemsz ^ length) in
  let have := match others with [] => Z.of_nat (List.length nameds) | _ => expect end in
  bounds_check_case t s
  = Done (tt,
          if have =? expect then s
          else if expect =? INT64_MAX then
            Bounds (errors s + 1)
                   (reported s ++
                    [Diag (tree_loc t) "choices do not cover all possible values" []])
          else
            Bounds (errors s + 1)
                   (reported s ++
                    [Diag (tree_loc t) "choices cover only %li of %li possible values"
                          [ArgInt have; ArgInt expect]])).
Proof.
  intros Hv Ht Hen Hint Harr Hel Hcard Hdim Hlen Has Hn Ho Hol Hmax expect have.
  unfold bounds_check_case.
  erewrite bind_run by (unfold tree_value; rewrite Hv; reflexivity).
  erewrite bind_run by (unfold tree_type; rewrite Ht; reflexivity).
  rewrite Hen, Hint, Harr. unfold bounds_check_case_array.
  erewrite bind_run by (unfold type_elem; rewrite Hel; reflexivity).
  match goal with
  | |- bind ?m _ _ = _ => assert (Hsz : forall s0, m s0 = Done (Some elemsz, s0))
  end.
  { intros s0. unfold elem_cardinality in Hcard.
    unfold type_dim, bind, ret.
    destruct (type_kind elem); try discriminate;
      try (destruct (nth_error (ty_dims elem) 0) as [r0|]; [|discriminate];
           cbn -[wrap64 folded_bounds];
           destruct (folded_bounds r0) as [[low high]|]; [|discriminate]);
      apply some_eq_inv in Hcard; subst elemsz; reflexivity. }
  erewrite bind_run by (apply Hsz). cbv beta iota.
  erewrite bind_run by (unfold type_dim; rewrite Hdim; reflexivity). cbv beta iota.
  rewrite Hlen. cbv zeta. unfold ipow. fold expect.
  destruct others as [|o [|o' rest]]; [| |simpl in Hol; lia].
  - erewrite bind_run
      by (rewrite Has, app_nil_r; apply bounds_case_array_named; [exact Hn|lia|lia]).
    cbv beta iota.
    rewrite Z.add_0_l. fold have.
    destruct (have =? expect); [reflexivity|].
    destruct (expect =? INT64_MAX); reflexivity.
  - inversion Ho as [|? ? Hos _]; subst.
    erewrite bind_run
      by (rewrite Has, fold_each_app;
          erewrite bind_run
            by (apply bounds_case_array_named; [exact Hn|lia|lia]);
          cbn [fold_each]; unfold bounds_case_array_choice at 1; rewrite Hos;
          reflexivity).
    cbv beta iota. subst have. cbv beta iota. rewrite Z.eqb_refl. reflexivity.
Qed.

Lemma bounds_check_case_array_count_witness :
  bounds_check_case case_w bounds_init
  = Done (tt, Bounds 1 [Diag (Loc 0 0) "choices cover only %li of %li possible values"
                             [ArgInt 1; ArgInt (2 ^ 32)]]).
Proof.
  refine (bounds_check_case_array_count
            case_w (mk_ref sig_w) (mk_carray "WORD" [mk_range 0 31 RANGE_TO] std_bit)
            std_bit 2 32 (mk_range 0 31 RANGE_TO)
            [mk_named (tree_new T_LITERAL) mk_null] [] bounds_init
            _ _ _ _ _ _ _ _ _ _ _ _ _ _); try reflexivity.
  - constructor; [reflexivity | constructor].
  - constructor.
  - simpl. lia.
  - vm_compute. discriminate.
Defined.

(** C7 as stated fails: for an array of 32 bits the required number of
    choices is two to the power 32, above two to the power 31, and it is
    not replaced by the sentinel; the error names it. *)
Lemma case_array_count_not_saturated :
  bounds_check case_w bounds_init
  = Done (case_w,
          Bounds 1 [Diag (Loc 0 0) "choices cover only %li of %li possible values"
                         [ArgInt 1; ArgInt 4294967296]])
  /\ 4294967296 > 2 ^ 31
  /\ 4294967296 <> INT64_MAX.
Proof.
  split; [vm_compute; reflexivity|]. split; [reflexivity | discriminate].
Qed.

(* ================================================================= *)
(** * Integer case statements: the missing intervals *)

Lemma report_nil s : report s [] = s.
Proof. destruct s as [e r]. unfold report. simpl. rewrite Z.add_0_r, app_nil_r. reflexivity. Qed.

Lemma report_app s d1 d2 : report (report s d1) d2 = report s (d1 ++ d2).
Proof.
  unfold report. simpl. rewrite length_app, Nat2Z.inj_add, Z.add_assoc, app_assoc.
  reflexivity.
Qed.

Lemma string_app_assoc (a b c : string) : (a ++ b) ++ c = a ++ (b ++ c).
Proof. induction a as [|ch a IH]; simpl; [reflexivity | rewrite IH; reflexivity]. Qed.

Lemma bounds_fmt_case_missing_line tb low high :
  bounds_fmt_case_missing tb low high = tb ++ missing_line (low, high).
Proof.
  unfold bounds_fmt_case_missing, missing_line. cbn [fst snd].
  destruct (low =? high); reflexivity.
Qed.

(** What the walk prints is the buffer followed by one line per missing
    interval. *)
Lemma fmt_missing_lines ms : forall tb, fmt_missing tb ms = tb ++ missing_lines ms.
Proof.
  unfold fmt_missing. induction ms as [|m ms IH]; intros tb; cbn [fold_left missing_lines].
  - induction tb as [|ch tb IHtb]; simpl; [reflexivity | rewrite <- IHtb; reflexivity].
  - rewrite IH, bounds_fmt_case_missing_line, string_app_assoc.
    destruct m; reflexivity.
Qed.

Lemma missing_report_eq type ms :
  fmt_missing (case_missing_header type) ms = missing_report type ms.
Proof.
  rewrite fmt_missing_lines. unfold case_missing_header, missing_report.
  rewrite !string_app_assoc. reflexivity.
Qed.

Lemma wrap64_pred x :
  in_int64 x -> wrap64 (x - 1) = x - 1 \/ wrap64 (x - 1) = INT64_MAX.
Proof.
  unfold in_int64, INT64_MIN, INT64_MAX. intros H.
  destruct (Z.eq_dec x (- 2 ^ 63)) as [E|E].
  - right. subst x. reflexivity.
  - left. apply wrap64_id. unfold in_int64, INT64_MIN, INT64_MAX. lia.
Qed.

Lemma in_cover_cons x it l :
  in_cover x (it :: l) <-> (i_low it <= x <= i_high it) \/ in_cover x l.
Proof. unfold in_cover. apply Exists_cons. Qed.

Lemma in_cover_nil x : ~ in_cover x [].
Proof. unfold in_cover. intros H. inversion H. Qed.

Lemma increasing_cons m g :
  increasing (m :: g) <->
  (match g with [] => True | m' :: _ => snd m < fst m' end) /\ increasing g.
Proof. reflexivity. Qed.

Lemma increasing_snoc g m :
  increasing g -> Forall (fun c => snd c < fst m) g -> increasing (g ++ [m])%list.
Proof.
  induction g as [|c g IH]; intros Hi Hf.
  - simpl. tauto.
  - inversion Hf as [|? ? Hc Hf']; subst. destruct Hi as [Hh Hi].
    change ((c :: g) ++ [m])%list with (c :: (g ++ [m]))%list.
    apply increasing_cons. split; [|apply IH; assumption].
    destruct g as [|c' g]; simpl; [exact Hc | exact Hh].
Qed.

Lemma fmt_missing_snoc tb g m :
  fmt_missing tb (g ++ [m])%list = bounds_fmt_case_missing (fmt_missing tb g) (fst m) (snd m).
Proof. unfold fmt_missing. rewrite fold_left_app. reflexivity. Qed.

Section CaseCover.

Variables tlow thigh : Z.
Hypothesis Htlow : INT64_MIN <= tlow.
Hypothesis Hthigh : thigh < INT64_MAX.

Lemma bounds_case_cover_insert covered a low high s :
  sorted_cover covered -> within tlow thigh covered ->
  tlow <= low -> low <= high -> high <= thigh ->
  (forall x, low <= x <= high -> ~ in_cover x covered) ->
  exists covered',
    bounds_case_cover covered a low high s = Done (covered', s)
    /\ sorted_cover covered' /\ within tlow thigh covered'
    /\ (forall x, in_cover x covered' <-> in_cover x covered \/ low <= x <= high)
    /\ (forall b, b < low -> starts_above b covered -> starts_above b covered').
Proof.
  intros Hs Hw Hl Hlh Hh Hd.
  induction covered as [|it rest IH].
  - exists [Interval low high]. split; [reflexivity|].
    split; [simpl; auto|]. split; [constructor; simpl; auto|]. split.
    + intros x. rewrite in_cover_cons. simpl. tauto.
    + intros b Hb _. exact Hb.
  - destruct Hs as (Hit & Hnext & Hsr). inversion Hw as [|? ? [Hitl Hith] Hwr]; subst.
    assert (Hdit : forall x, low <= x <= high -> ~ (i_low it <= x <= i_high it)).
    { intros x Hx Hin. apply (Hd x Hx). apply in_cover_cons. left. exact Hin. }
    assert (Hdr : forall x, low <= x <= high -> ~ in_cover x rest).
    { intros x Hx Hin. apply (Hd x Hx). apply in_cover_cons. right. exact Hin. }
    cbn [bounds_case_cover].
    destruct (i_low it <=? high) eqn:E1.
    + apply Z.leb_le in E1.
      assert (Hbelow : i_high it < low).
      { destruct (Z_lt_le_dec (i_high it) low) as [?|Hge]; [assumption|].
        exfalso. apply (Hdit (Z.max low (i_low it))); lia. }
      assert (E0 : (low <=? i_high it) = false) by (apply Z.leb_gt; exact Hbelow).
      rewrite E0. cbn [andb].
      replace (high =? wrap64 (i_low it - 1)) with false.
      2:{ symmetry. apply Z.eqb_neq.
          destruct (wrap64_pred (i_low it)) as [W|W];
            [unfold in_int64, INT64_MAX in *; lia | rewrite W; lia | rewrite W; lia]. }
      rewrite (wrap64_id (i_high it + 1))
        by (unfold in_int64, INT64_MAX, INT64_MIN in *; lia).
      destruct (low =? i_high it + 1) eqn:E2.
      * apply Z.eqb_eq in E2.
        exists (Interval (i_low it) high :: rest). split; [reflexivity|].
        split; [|split; [|split]].
        -- simpl. split; [lia|]. split; [|exact Hsr].
           destruct rest as [|next rest']; [exact I|].
           destruct Hsr as (Hn & _ & _).
           destruct (Z_lt_le_dec high (i_low next)) as [?|Hge]; [assumption|].
           exfalso. apply (Hdr (i_low next)); [lia|].
           apply in_cover_cons. left. lia.
        -- constructor; [simpl; lia | exact Hwr].
        -- intros x. rewrite !in_cover_cons. simpl. split; intros H; lia || tauto || idtac.
           ++ destruct H as [H|H]; [|tauto].
              destruct (Z_le_gt_dec x (i_high it)); [left; left; lia | right; lia].
           ++ destruct H as [[H|H]|H]; [left; lia | tauto | left; lia].
        -- intros b Hb Hab. exact Hab.
      * apply Z.eqb_neq in E2.
        destruct (IH Hsr Hwr Hdr) as (cov' & Hrun & Hs' & Hw' & Hin' & Hab').
        exists (it :: cov'). split; [unfold bind; rewrite Hrun; reflexivity|].
        split; [|split; [|split]].
        -- simpl. split; [exact Hit|]. split; [|exact Hs'].
           assert (Ha : starts_above (i_high it) cov').
           { apply Hab'; [exact Hbelow|]. destruct rest; [exact I | exact Hnext]. }
           destruct cov'; [exact I | exact Ha].
        -- constructor; [split; assumption | exact Hw'].
        -- intros x. rewrite !in_cover_cons, Hin'. tauto.
        -- intros b Hb Hab. exact Hab.
    + apply Z.leb_gt in E1.
      exists (Interval low high :: it :: rest). split; [reflexivity|].
      split; [|split; [|split]].
      * simpl. split; [exact Hlh|]. split; [exact E1|]. split; [exact Hit|].
        split; [exact Hnext | exact Hsr].
      * constructor; [simpl; lia | exact Hw].
      * intros x. rewrite !in_cover_cons. simpl. tauto.
      * intros b Hb _. exact Hb.
Qed.

Lemma bounds_case_int_choice_covers type ho covered a low high s :
  choice_of a = Some (low, high) ->
  tlow <= low -> high <= thigh ->
  bounds_case_int_choice type tlow thigh (CaseCover ho covered) a s
  = (covered' <- bounds_case_cover covered a low high ;;
     ret (CaseCover ho covered')) s.
Proof.
  unfold choice_of, bounds_case_int_choice. intros Hc Hl Hh.
  assert (Hin : (low <? tlow) || (high >? thigh) = false).
  { apply orb_false_iff. split; [apply Z.ltb_ge; lia|].
    rewrite Z.gtb_ltb. apply Z.ltb_ge. lia. }
  destruct (tree_subkind a); try discriminate.
  - destruct (t_name a) as [name|] eqn:Hn; [|discriminate].
    destruct (folded_int name) as [x|] eqn:Hx; [|discriminate].
    apply some_eq_inv in Hc. assert (x = low) by congruence. assert (x = high) by congruence.
    subst low. subst x.
    erewrite bind_run
      by (erewrite bind_run by (unfold tree_name; rewrite Hn; reflexivity);
          erewrite bind_run by (unfold assume_int; rewrite Hx; reflexivity);
          reflexivity).
    cbv beta iota. rewrite Hin. reflexivity.
  - destruct (t_range a) as [r|] eqn:Hr; [|discriminate].
    destruct (r_kind r) eqn:Hk; try discriminate.
    destruct (folded_int (r_left r)) as [l|] eqn:Hle; [|discriminate].
    destruct (folded_int (r_right r)) as [h|] eqn:Hri; [|discriminate].
    apply some_eq_inv in Hc. assert (l = low) by congruence. assert (h = high) by congruence.
    subst l h.
    erewrite bind_run
      by (erewrite bind_run by (unfold tree_range; rewrite Hr; reflexivity);
          erewrite bind_run by (rewrite Hk; reflexivity);
          erewrite bind_run by (unfold assume_int; rewrite Hle; reflexivity);
          erewrite bind_run by (unfold assume_int; rewrite Hri; reflexivity);
          reflexivity).
    cbv beta iota. rewrite Hin. reflexivity.
Qed.

Lemma bounds_case_int_choice_outside type c a low high s :
  choice_of a = Some (low, high) ->
  choice_outside tlow thigh (low, high) = true ->
  bounds_case_int_choice type tlow thigh c a s
  = Done (c, report s [outside_diag type tlow thigh a (low, high)]).
Proof.
  unfold choice_of, bounds_case_int_choice, choice_outside, outside_diag.
  cbn [fst snd]. intros Hc Hout.
  assert (Hout' : (low <? tlow) || (high >? thigh) = true)
    by (rewrite Z.gtb_ltb; exact Hout).
  destruct (tree_subkind a); try discriminate.
  - destruct (t_name a) as [name|] eqn:Hn; [|discriminate].
    destruct (folded_int name) as [x|] eqn:Hx; [|discriminate].
    apply some_eq_inv in Hc. assert (x = low) by congruence. assert (x = high) by congruence.
    subst low. subst x.
    erewrite bind_run
      by (erewrite bind_run by (unfold tree_name; rewrite Hn; reflexivity);
          erewrite bind_run by (unfold assume_int; rewrite Hx; reflexivity);
          reflexivity).
    cbv beta iota. rewrite Hout'. reflexivity.
  - destruct (t_range a) as [r|] eqn:Hr; [|discriminate].
    destruct (r_kind r) eqn:Hk; try discriminate.
    destruct (folded_int (r_left r)) as [l|] eqn:Hle; [|discriminate].
    destruct (folded_int (r_right r)) as [h|] eqn:Hri; [|discriminate].
    apply some_eq_inv in Hc. assert (l = low) by congruence. assert (h = high) by congruence.
    subst l h.
    erewrite bind_run
      by (erewrite bind_run by (unfold tree_range; rewrite Hr; reflexivity);
          erewrite bind_run by (rewrite Hk; reflexivity);
          erewrite bind_run by (unfold assume_int; rewrite Hle; reflexivity);
          erewrite bind_run by (unfold assume_int; rewrite Hri; reflexivity);
          reflexivity).
    cbv beta iota. rewrite Hout'. reflexivity.
Qed.

Lemma choice_inside low high :
  choice_outside tlow thigh (low, high) = false -> tlow <= low /\ high <= thigh.
Proof.
  unfold choice_outside. cbn [fst snd]. intros H. apply orb_false_iff in H.
  destruct H as [H1 H2]. apply Z.ltb_ge in H1, H2. lia.
Qed.

(** The loop over the choices: a choice that leaves the bounds is reported
    and leaves the covered intervals as they are, a choice within the
    bounds joins them. *)
Lemma bounds_case_int_choices type assocs :
  forall choices covered s,
    map choice_of assocs = map Some choices ->
    Forall (fun c => fst c <= snd c) choices ->
    disjoint_choices (inside_choices tlow thigh choices) ->
    sorted_cover covered -> within tlow thigh covered ->
    (forall c, In c (inside_choices tlow thigh choices) ->
               forall x, in_choice x c -> ~ in_cover x covered) ->
    exists covered',
      fold_each assocs (CaseCover false covered)
                (bounds_case_int_choice type tlow thigh) s
      = Done (CaseCover false covered',
              report s (outside_diags type tlow thigh assocs))
      /\ sorted_cover covered' /\ within tlow thigh covered'
      /\ (forall x, in_cover x covered' <->
                    in_cover x covered
                    \/ Exists (in_choice x) (inside_choices tlow thigh choices)).
Proof.
  induction assocs as [|a assocs IH]; intros choices covered s Hmap Hb Hd Hs Hw Hfresh.
  - destruct choices; [|discriminate]. exists covered. cbn [outside_diags flat_map].
    rewrite report_nil. split; [reflexivity|].
    split; [exact Hs|]. split; [exact Hw|].
    intros x. split; [tauto|]. intros [H|H]; [exact H | inversion H].
  - destruct choices as [|[low high] choices]; [discriminate|].
    simpl in Hmap. injection Hmap as Ha Hmap.
    inversion Hb as [|? ? Hlh Hb']; subst. cbn [fst snd] in Hlh.
    unfold outside_diags. cbn [flat_map]. fold (outside_diags type tlow thigh assocs).
    rewrite Ha. unfold inside_choices in *. cbn [filter] in Hd, Hfresh |- *.
    destruct (choice_outside tlow thigh (low, high)) eqn:Hout; cbn [negb] in Hd, Hfresh |- *.
    + destruct (IH choices covered
                   (report s [outside_diag type tlow thigh a (low, high)])
                   Hmap Hb' Hd Hs Hw Hfresh) as (cov2 & Hrun2 & Hs2 & Hw2 & Hin2).
      exists cov2. split.
      * cbn [fold_each].
        erewrite bind_run by (apply bounds_case_int_choice_outside; eassumption).
        rewrite Hrun2, report_app. reflexivity.
      * split; [exact Hs2|]. split; [exact Hw2|]. exact Hin2.
    + destruct (choice_inside _ _ Hout) as [Hl Hh].
      destruct Hd as [Hd1 Hd2].
      destruct (bounds_case_cover_insert covered a low high s Hs Hw Hl Hlh Hh)
        as (cov1 & Hrun & Hs1 & Hw1 & Hin1 & _).
      { intros x Hx. apply (Hfresh (low, high)); [left; reflexivity | exact Hx]. }
      destruct (IH choices cov1 s Hmap Hb' Hd2 Hs1 Hw1)
        as (cov2 & Hrun2 & Hs2 & Hw2 & Hin2).
      { intros c Hc x Hx Hcov. apply Hin1 in Hcov. destruct Hcov as [Hcov|Hcov].
        - apply (Hfresh c (or_intror Hc) x Hx Hcov).
        - rewrite Forall_forall in Hd1. apply (Hd1 c Hc x). split; [exact Hcov | exact Hx]. }
      exists cov2. split.
      * cbn [fold_each]. erewrite bind_run
          by (rewrite (bounds_case_int_choice_covers type false covered a low high s
                         Ha Hl Hh);
              erewrite bind_run by exact Hrun; reflexivity).
        cbn [app]. exact Hrun2.
      * split; [exact Hs2|]. split; [exact Hw2|].
        intros x. rewrite Hin2, Hin1, Exists_cons. unfold in_choice at 2. simpl. tauto.
Qed.

Lemma bounds_case_walk_gaps covered :
  forall tb missing walk,
    sorted_cover covered -> within tlow thigh covered ->
    tlow <= walk -> starts_above (walk - 1) covered ->
    bounds_case_walk covered tb missing walk
    = (fmt_missing tb (fst (case_gaps covered walk)),
       missing || match fst (case_gaps covered walk) with [] => false | _ => true end,
       snd (case_gaps covered walk)).
Proof.
  induction covered as [|it next IH]; intros tb missing walk Hs Hw Hwalk Ha.
  - simpl. rewrite orb_false_r. reflexivity.
  - destruct Hs as (Hne & Hnext & Hs).
    inversion Hw as [|? ? (Hl & Hh) Hw']; subst.
    simpl in Ha.
    assert (E1 : wrap64 (i_high it + 1) = i_high it + 1).
    { apply wrap64_id. unfold in_int64, INT64_MIN, INT64_MAX in *. lia. }
    cbn [bounds_case_walk case_gaps]. rewrite E1.
    assert (Ha' : starts_above (i_high it + 1 - 1) next).
    { destruct next; simpl; [exact I | lia]. }
    assert (Hwalk' : tlow <= i_high it + 1) by lia.
    destruct (case_gaps next (i_high it + 1)) as [g w] eqn:Hg.
    destruct (i_low it =? walk) eqn:Hlw; cbn [negb].
    + rewrite (IH tb missing _ Hs Hw' Hwalk' Ha'). rewrite Hg. reflexivity.
    + apply Z.eqb_neq in Hlw.
      assert (E2 : wrap64 (i_low it - 1) = i_low it - 1).
      { apply wrap64_id. unfold in_int64, INT64_MIN, INT64_MAX in *. lia. }
      rewrite E2.
      rewrite (IH _ true _ Hs Hw' Hwalk' Ha'). rewrite Hg. cbn [fst snd].
      rewrite orb_true_r. reflexivity.
Qed.

Lemma case_gaps_spec covered :
  forall walk,
    sorted_cover covered -> within tlow thigh covered ->
    starts_above (walk - 1) covered ->
    let g := fst (case_gaps covered walk) in
    let w := snd (case_gaps covered walk) in
    walk <= w
    /\ (w = walk \/ w <= thigh + 1)
    /\ (forall x, in_cover x covered -> walk <= x < w)
    /\ Forall (fun m => walk <= fst m /\ fst m <= snd m /\ snd m < w /\ snd m <= thigh) g
    /\ increasing g
    /\ (forall x, walk <= x < w -> (Exists (in_choice x) g <-> ~ in_cover x covered)).
Proof.
  induction covered as [|it next IH]; intros walk Hs Hw Ha.
  - simpl. split; [lia|]. split; [left; reflexivity|].
    split; [intros x H; inversion H|]. split; [constructor|]. split; [exact I|].
    intros x Hx. lia.
  - destruct Hs as (Hne & Hnext & Hs).
    inversion Hw as [|? ? (Hl & Hh) Hw']; subst.
    simpl in Ha.
    assert (Ha' : starts_above (i_high it + 1 - 1) next).
    { destruct next; simpl; [exact I | lia]. }
    specialize (IH (i_high it + 1) Hs Hw' Ha').
    cbn [case_gaps]. destruct (case_gaps next (i_high it + 1)) as [g w] eqn:Hg.
    cbn [fst snd] in IH |- *.
    destruct IH as (Hww & Hwt & Hcov & Hfa & Hinc & Hgap).
    assert (Hfa' : Forall (fun m => walk <= fst m /\ fst m <= snd m /\ snd m < w
                                    /\ snd m <= thigh) g).
    { eapply Forall_impl; [|exact Hfa]. cbv beta. intros m Hm. lia. }
    assert (Hcov' : forall x, in_cover x (it :: next) -> walk <= x < w).
    { intros x Hx. apply Exists_cons in Hx. destruct Hx as [Hx|Hx]; [lia|].
      apply Hcov in Hx. lia. }
    assert (Hbelow : forall x, x <= i_high it -> ~ Exists (in_choice x) g).
    { intros x Hx He. apply Exists_exists in He. destruct He as (m & Hm & Hxm).
      rewrite Forall_forall in Hfa. apply Hfa in Hm. unfold in_choice in Hxm. lia. }
    assert (Hnotnext : forall x, x <= i_high it -> ~ in_cover x next).
    { intros x Hx Hc. apply Hcov in Hc. lia. }
    split; [lia|]. split; [right; lia|]. split; [exact Hcov'|].
    destruct (i_low it =? walk) eqn:Hlw.
    + apply Z.eqb_eq in Hlw. split; [exact Hfa'|]. split; [exact Hinc|].
      intros x Hx. unfold in_cover. rewrite Exists_cons.
      destruct (Z_le_gt_dec x (i_high it)) as [Hle|Hgt].
      * split; [intros He; exfalso; exact (Hbelow x Hle He)|].
        intros Hn. exfalso. apply Hn. left. lia.
      * rewrite (Hgap x) by lia. unfold in_cover. split; [|tauto].
        intros Hn [Hc|Hc]; [lia | exact (Hn Hc)].
    + apply Z.eqb_neq in Hlw. split.
      { constructor; [cbn [fst snd]; lia | exact Hfa']. }
      split.
      { apply increasing_cons. split; [|exact Hinc].
        destruct g as [|m' g']; [exact I|].
        inversion Hfa as [|? ? Hm' _]; subst. cbn [fst snd]. lia. }
      intros x Hx. rewrite Exists_cons. unfold in_cover. rewrite Exists_cons.
      unfold in_choice at 1. cbn [fst snd].
      destruct (Z_le_gt_dec x (i_high it)) as [Hle|Hgt].
      * split.
        -- intros [Hc|Hc]; [|exfalso; exact (Hbelow x Hle Hc)].
           intros [Hi|Hi]; [lia | exact (Hnotnext x Hle Hi)].
        -- intros Hn. left. split; [lia|].
           destruct (Z_le_gt_dec (i_low it) x); [|lia].
           exfalso. apply Hn. left. lia.
      * rewrite (Hgap x) by lia. unfold in_cover. split.
        -- intros [Hc|Hc]; [lia|]. intros [Hi|Hi]; [lia | exact (Hc Hi)].
        -- intros Hn. right. intros Hi. apply Hn. right. exact Hi.
Qed.

End CaseCover.

(** C4 (amended). An integer case statement without an [others] choice,
    over a type whose bounds [tlow .. thigh] fold, whose choices are not
    null ranges and, as far as they lie within the bounds, do not overlap.
    Every choice that leaves the bounds, below or above, is reported with
    an error of its own, in the order of the choices, and does not count as
    covering anything.  After these the checker adds nothing when every
    value of the type is covered and exactly one error otherwise; so with
    all choices within the bounds there is at most one error.  The missing
    intervals of that error are not empty, in increasing order, and hold
    exactly the values of [tlow .. thigh] that no choice within the bounds
    names; its text is the header followed by one line per interval, a line
    break, four spaces and the single value or the two ends with [to]
    between them. *)
Theorem bounds_check_case_int_partition t value type r tlow thigh choices s :
  t_value t = Some value -> t_type value = Some type ->
  type_is_enum type = false -> type_is_integer type = true ->
  nth_error (ty_dims type) 0 = Some r ->
  folded_bounds r = Some (tlow, thigh) ->
  INT64_MIN <= tlow -> tlow <= thigh -> thigh < INT64_MAX ->
  map choice_of (t_assocs t) = map Some choices ->
  Forall (fun c => fst c <= snd c) choices ->
  disjoint_choices (inside_choices tlow thigh choices) ->
  exists missing,
    increasing missing
    /\ Forall (fun m => fst m <= snd m) missing
    /\ (forall x, Exists (in_choice x) missing <->
                  tlow <= x <= thigh
                  /\ ~ Exists (in_choice x) (inside_choices tlow thigh choices))
    /\ (Forall (fun c => tlow <= fst c /\ snd c <= thigh) choices ->
        inside_choices tlow thigh choices = choices
        /\ outside_diags type tlow thigh (t_assocs t) = [])
    /\ bounds_check_case t s
       = Done (tt, report s
                     (outside_diags type tlow thigh (t_assocs t)
                      ++ match missing with
                         | [] => []
                         | _ => [Diag (tree_loc t) "%s"
                                      [ArgStr (missing_report type missing)]]
                         end)).
Proof.
  intros Hv Ht He Hi Hr Hfb Hlo Hne Hhi Hmap Hb Hd.
  destruct (bounds_case_int_choices tlow thigh Hlo Hhi type (t_assocs t) choices [] s
              Hmap Hb Hd I (Forall_nil _))
    as (cov & Hrun & Hs & Hw & Hin).
  { intros c _ x _ H. inversion H. }
  assert (Ha : starts_above (tlow - 1) cov).
  { destruct cov as [|it cov']; simpl; [exact I|].
    inversion Hw as [|? ? (Hl & _) _]; subst. lia. }
  pose proof (bounds_case_walk_gaps tlow thigh Hlo Hhi cov
                (case_missing_header type) false tlow Hs Hw (Z.le_refl _) Ha) as Hwalk.
  pose proof (case_gaps_spec tlow thigh cov tlow Hs Hw Ha) as Hspec.
  cbv zeta in Hspec.
  destruct (case_gaps cov tlow) as [g w] eqn:Hg. cbn [fst snd] in Hwalk, Hspec.
  destruct Hspec as (Hww & Hwt & Hcov & Hfa & Hinc & Hgap).
  assert (Hwle : w <= thigh + 1) by lia.
  assert (E1 : wrap64 (thigh + 1) = thigh + 1).
  { apply wrap64_id. unfold in_int64, INT64_MIN, INT64_MAX in *. lia. }
  assert (Hcovc : forall x, in_cover x cov
                            <-> Exists (in_choice x) (inside_choices tlow thigh choices)).
  { intros x. rewrite Hin. split; [intros [H|H]; [inversion H | exact H] | tauto]. }
  set (final := if w =? thigh + 1 then [] else [(w, thigh)]).
  exists (g ++ final)%list.
  split.
  { unfold final. destruct (w =? thigh + 1); [rewrite app_nil_r; exact Hinc|].
    apply increasing_snoc; [exact Hinc|].
    eapply Forall_impl; [|exact Hfa]. cbv beta. cbn [fst]. intros m Hm. lia. }
  split.
  { apply Forall_app. split.
    - eapply Forall_impl; [|exact Hfa]. cbv beta. intros m Hm. lia.
    - unfold final. destruct (w =? thigh + 1) eqn:Hwe; [constructor|].
      apply Z.eqb_neq in Hwe. constructor; [cbn [fst snd]; lia | constructor]. }
  split.
  { intros x. rewrite Exists_app, <- Hcovc. split.
    - intros [Hx|Hx].
      + assert (Hr' : tlow <= x < w).
        { apply Exists_exists in Hx. destruct Hx as (m & Hm & Hxm).
          rewrite Forall_forall in Hfa. apply Hfa in Hm. unfold in_choice in Hxm. lia. }
        split; [lia|]. apply Hgap; assumption.
      + unfold final in Hx. destruct (w =? thigh + 1); [inversion Hx|].
        apply Exists_cons in Hx. destruct Hx as [Hx|Hx]; [|inversion Hx].
        unfold in_choice in Hx. cbn [fst snd] in Hx.
        split; [lia|]. intros Hc. apply Hcov in Hc. lia.
    - intros [Hx Hn]. destruct (Z_lt_ge_dec x w) as [Hlt|Hge].
      + left. apply Hgap; [lia | exact Hn].
      + right. unfold final. destruct (w =? thigh + 1) eqn:Hwe.
        * apply Z.eqb_eq in Hwe. lia.
        * apply Exists_cons. left. unfold in_choice. cbn [fst snd]. lia. }
  split.
  { clear - Hmap. revert choices Hmap.
    induction (t_assocs t) as [|a assocs IH]; intros choices Hmap Hall.
    - destruct choices; [|discriminate]. split; reflexivity.
    - destruct choices as [|c choices]; [discriminate|].
      simpl in Hmap. injection Hmap as Ha Hmap.
      inversion Hall as [|? ? [Hl Hh] Hall']; subst.
      destruct (IH choices Hmap Hall') as [E1 E2].
      assert (Hin : choice_outside tlow thigh c = false).
      { unfold choice_outside. apply orb_false_iff. split; apply Z.ltb_ge; lia. }
      unfold inside_choices, outside_diags in *. cbn [filter flat_map].
      rewrite Ha, Hin. cbn [negb app]. rewrite E1, E2. split; reflexivity. }
  unfold bounds_check_case.
  erewrite bind_run by (unfold tree_value; rewrite Hv; reflexivity). cbv beta iota.
  erewrite bind_run by (unfold tree_type; rewrite Ht; reflexivity). cbv beta iota.
  rewrite He, Hi. unfold bounds_check_case_int.
  erewrite bind_run by (unfold type_dim; rewrite Hr; reflexivity). cbv beta iota.
  rewrite Hfb.
  erewrite bind_run by exact Hrun. cbv beta iota. cbn [have_others covered negb].
  change ("case choices do not cover the following " ++ "values of "
          ++ type_pp type ++ ":") with (case_missing_header type).
  rewrite Hwalk, E1. cbn [orb]. unfold final.
  destruct (w =? thigh + 1) eqn:Hwe; cbn [negb].
  - rewrite app_nil_r. destruct g as [|m g']; [rewrite app_nil_r; reflexivity|].
    rewrite missing_report_eq. unfold bounds_error, modify.
    rewrite <- report_app. reflexivity.
  - rewrite <- (missing_report_eq type (g ++ [(w, thigh)])), fmt_missing_snoc.
    cbn [fst snd].
    destruct g as [|m g']; cbn [app]; unfold bounds_error, modify;
      rewrite <- report_app; reflexivity.
Qed.

(** The case statement of scenario 6 over [integer range 0 to 7] with the
    choices [0] and [2 to 5], and the choice [9] besides: the choice [9] is
    reported, and one more error lists [1] and [6 to 7]. *)
Lemma bounds_check_case_int_partition_witness :
  exists missing,
    increasing missing
    /\ Forall (fun m => fst m <= snd m) missing
    /\ (forall x, Exists (in_choice x) missing <->
                  0 <= x <= 7
                  /\ ~ Exists (in_choice x) (inside_choices 0 7 [(0, 0); (2, 5); (9, 9)]))
    /\ (Forall (fun c => 0 <= fst c /\ snd c <= 7) [(0, 0); (2, 5); (9, 9)] ->
        inside_choices 0 7 [(0, 0); (2, 5); (9, 9)] = [(0, 0); (2, 5); (9, 9)]
        /\ outside_diags (mk_subtype "SMALL" std_integer (mk_range 0 7 RANGE_TO)) 0 7
                         (t_assocs case_scenario_9) = [])
    /\ bounds_check_case case_scenario_9 bounds_init
       = Done (tt, report bounds_init
                     (outside_diags (mk_subtype "SMALL" std_integer (mk_range 0 7 RANGE_TO))
                                    0 7 (t_assocs case_scenario_9)
                      ++ match missing with
                         | [] => []
                         | _ => [Diag (tree_loc case_scenario_9) "%s"
                                      [ArgStr (missing_report
                                                 (mk_subtype "SMALL" std_integer
                                                             (mk_range 0 7 RANGE_TO))
                                                 missing)]]
                         end)).
Proof.
  apply (bounds_check_case_int_partition case_scenario_9 (mk_ref sig_i)
           (mk_subtype "SMALL" std_integer (mk_range 0 7 RANGE_TO))
           (mk_range 0 7 RANGE_TO) 0 7 [(0, 0); (2, 5); (9, 9)] bounds_init).
  - reflexivity.
  - reflexivity.
  - reflexivity.
  - reflexivity.
  - reflexivity.
  - reflexivity.
  - unfold INT64_MIN. lia.
  - lia.
  - unfold INT64_MAX. lia.
  - reflexivity.
  - repeat constructor; simpl; lia.
  - simpl. split; [|split; [constructor | exact I]].
    constructor; [|constructor]. unfold in_choice. simpl. intros x. lia.
Defined.

(** A choice that leaves the bounds of the type is reported and then left
    out of the covered values: [when 0 to 9] over [integer range 0 to 7]
    gives two errors, the second listing [0 to 7] as missing. *)
Lemma case_choice_outside_bounds_two_errors :
  choice_of (mk_ranged 0 9 mk_null) = Some (0, 9)
  /\ disjoint_choices [(0, 9)]
  /\ exists s', bounds_check_case (case_i [mk_ranged 0 9 mk_null]) bounds_init
                = Done (tt, s')
                /\ errors s' = 2
                /\ map diag_fmt (reported s') = ["value %li outside %s bounds %li to %li"; "%s"]
                /\ map diag_args (reported s')
                   = [[ArgInt 9; ArgStr "SMALL"; ArgInt 0; ArgInt 7];
                      [ArgStr ("case choices do not cover the following values of SMALL:"
                               ++ nl ++ "    0 to 7")]].
Proof.
  split; [reflexivity|]. split; [simpl; split; [constructor | exact I]|].
  eexists. split; [vm_compute; reflexivity|].
  split; [reflexivity|]. split; reflexivity.
Qed.

(** Two inputs the statement above leaves out.  A choice that is a null
    range, [when 5 to 2], enters the covered intervals as it is, and the
    values 3 and 4 are then listed twice, in [0 to 4] and in [3 to 7]. *)
Remark case_null_range_choice_lists_twice :
  choice_of (mk_ranged 5 2 mk_null) = Some (5, 2)
  /\ bounds_check_case (case_i [mk_ranged 5 2 mk_null]) bounds_init
     = Done (tt, report bounds_init
                   [Diag (Loc 0 0) "%s"
                      [ArgStr (missing_report
                                 (mk_subtype "SMALL" std_integer (mk_range 0 7 RANGE_TO))
                                 [(0, 4); (3, 7)])]]).
Proof. split; [reflexivity | vm_compute; reflexivity]. Qed.

(** Over a type that spans the whole 64-bit range the walk starts at the
    value the upper bound wraps to, and a case statement without any choice
    is not reported. *)
Remark case_full_range_not_reported :
  bounds_check_case (mk_case (mk_ref sig_full) []) bounds_init = Done (tt, bounds_init).
Proof. vm_compute. reflexivity. Qed.

(* ================================================================= *)
(** * Running the checker twice *)

Lemma tree_visit_eq fn t :
  tree_visit fn t
  = (value' <- visit_opt fn (t_value t) ;;
     target' <- visit_opt fn (t_target t) ;;
     name' <- visit_opt fn (t_name t) ;;
     range' <- visit_range fn (t_range t) ;;
     params' <- visit_list fn (t_params t) ;;
     ports' <- visit_list fn (t_ports t) ;;
     decls' <- visit_list fn (t_decls t) ;;
     stmts' <- visit_list fn (t_stmts t) ;;
     else_stmts' <- visit_list fn (t_else_stmts t) ;;
     assocs' <- visit_list fn (t_assocs t) ;;
     chars' <- visit_list fn (t_chars t) ;;
     waveforms' <- visit_list fn (t_waveforms t) ;;
     fn (Tree (tree_kind t) (tree_subkind t) (tree_loc t) (t_ident t) (t_ident2 t)
              (tree_ival t) (tree_dval t) (tree_pos t) (t_attrs t) (t_type t)
              value' target' name' (t_ref t) range' params' ports' decls' stmts'
              else_stmts' assocs' chars' waveforms'))%monad.
Proof. destruct t. reflexivity. Qed.

Lemma tree_children_ind (P : tree_t -> Prop) :
  (forall t, children_all P t -> P t) -> forall t, P t.
Proof.
  intros step. fix IH 1. intros t. apply step.
  destruct t as [k sk loc id id2 iv dv pos attrs ty value target name ref range
                 params ports decls stmts else_stmts assocs chars waveforms].
  unfold children_all. cbn.
  repeat split.
  - destruct value; [apply IH | exact I].
  - destruct target; [apply IH | exact I].
  - destruct name; [apply IH | exact I].
  - destruct range as [[l r kd]|]; [split; apply IH | exact I].
  - induction params; constructor; [apply IH | assumption].
  - induction ports; constructor; [apply IH | assumption].
  - induction decls; constructor; [apply IH | assumption].
  - induction stmts; constructor; [apply IH | assumption].
  - induction else_stmts; constructor; [apply IH | assumption].
  - induction assocs; constructor; [apply IH | assumption].
  - induction chars; constructor; [apply IH | assumption].
  - induction waveforms; constructor; [apply IH | assumption].
Qed.

Section Uniform.

Lemma uniform_ret {A : Type} (a : A) : uniform (ret a).
Proof.
  intros s b s' H. apply ret_done in H. destruct H as [-> ->].
  exists []. split; [symmetry; apply report_nil|].
  intros s2. rewrite report_nil. reflexivity.
Qed.

Lemma uniform_abort {A : Type} : uniform (@abort bounds_t A).
Proof. intros s a s' H. discriminate. Qed.

Lemma uniform_bind {A C : Type} (m : B A) (k : A -> B C) :
  uniform m -> (forall a, uniform (k a)) -> uniform (bind m k).
Proof.
  intros Hm Hk s c s' H. apply bind_done in H. destruct H as (a & s1 & H1 & H2).
  destruct (Hm _ _ _ H1) as (d1 & -> & Hm').
  destruct (Hk a _ _ _ H2) as (d2 & -> & Hk').
  exists (d1 ++ d2)%list. split; [apply report_app|].
  intros s2. erewrite bind_run by apply Hm'. rewrite Hk'. rewrite report_app. reflexivity.
Qed.

Lemma uniform_expect {A : Type} (o : option A) : uniform (expect o).
Proof. destruct o; [apply uniform_ret | apply uniform_abort]. Qed.

Lemma uniform_assert (b : bool) : uniform (assert b).
Proof. destruct b; [apply uniform_ret | apply uniform_abort]. Qed.

Lemma uniform_bounds_error t fmt args : uniform (bounds_error t fmt args).
Proof.
  intros s a s' H. unfold bounds_error, modify in *. injection H as <- <-.
  exists [Diag (tree_loc t) fmt args]. split; [reflexivity|]. intros s2. reflexivity.
Qed.

Lemma uniform_for_each {A : Type} (l : list A) (body : A -> B unit) :
  (forall x, uniform (body x)) -> uniform (for_each l body).
Proof.
  intros Hb. induction l as [|x l IH]; simpl.
  - apply uniform_ret.
  - apply uniform_bind; [apply Hb | intros _; exact IH].
Qed.

Lemma uniform_fold_each {A C : Type} (l : list A) (body : C -> A -> B C) :
  (forall acc x, uniform (body acc x)) -> forall acc, uniform (fold_each l acc body).
Proof.
  intros Hb. induction l as [|x l IH]; intros acc; simpl.
  - apply uniform_ret.
  - apply uniform_bind; [apply Hb | intros acc'; apply IH].
Qed.

Ltac unif_step :=
  match goal with
  | |- uniform (bind _ _) => apply uniform_bind; [| intros ?]
  | |- uniform (ret _) => apply uniform_ret
  | |- uniform abort => apply uniform_abort
  | |- uniform (expect _) => apply uniform_expect
  | |- uniform (assert _) => apply uniform_assert
  | |- uniform (bounds_error _ _ _) => apply uniform_bounds_error
  | |- uniform (for_each _ _) => apply uniform_for_each; intros ?
  | |- uniform (fold_each _ _ _) => apply uniform_fold_each; intros ? ?
  | |- uniform (match ?x with _ => _ end) => destruct x
  | |- uniform ((match ?x with _ => _ end) _) => destruct x
  | |- uniform (if ?x then _ else _) => destruct x
  end.

Ltac unif :=
  unfold array_name, range_bounds;
  unfold tree_ident, tree_ident2, tree_type, tree_value, tree_target, tree_name,
    tree_ref, tree_range, tree_param, tree_port, tree_decl, nth_item,
    type_dim, type_elem, type_enum_literal, type_index_constr, assume_int;
  repeat unif_step.

Lemma uniform_literal t : uniform (bounds_check_literal t).
Proof. unfold bounds_check_literal, bounds_check_string_literal. unif. Qed.

Lemma uniform_call_args t : uniform (bounds_check_call_args t).
Proof.
  unfold bounds_check_call_args, bounds_check_call_arg, bounds_check_call_dim. unif.
Qed.

Lemma uniform_array_ref t : uniform (bounds_check_array_ref t).
Proof. unfold bounds_check_array_ref, bounds_check_index. unif. Qed.

Lemma uniform_array_slice t : uniform (bounds_check_array_slice t).
Proof. unfold bounds_check_array_slice. unif. Qed.

Lemma uniform_within i kind what low high : uniform (bounds_within i kind what low high).
Proof. unfold bounds_within. unif. Qed.

Lemma uniform_sub_aggregates assocs :
  forall length, uniform (bounds_check_sub_aggregates assocs length).
Proof.
  induction assocs as [|a rest IH]; intros len; cbn [bounds_check_sub_aggregates]; unif;
    apply IH.
Qed.

Lemma uniform_aggregate t : uniform (bounds_check_aggregate t).
Proof.
  unfold bounds_check_aggregate, bounds_check_agg_assoc. unif;
    try apply uniform_within; try apply uniform_sub_aggregates.
Qed.

Lemma uniform_decl t : uniform (bounds_check_decl t).
Proof. unfold bounds_check_decl, bounds_check_decl_dim. unif. Qed.

Lemma uniform_assignment target value : uniform (bounds_check_assignment target value).
Proof. unfold bounds_check_assignment, bounds_check_assign_dim. unif. Qed.

Lemma uniform_signal_assign t : uniform (bounds_check_signal_assign t).
Proof. unfold bounds_check_signal_assign. unif; apply uniform_assignment. Qed.

Lemma uniform_var_assign t : uniform (bounds_check_var_assign t).
Proof. unfold bounds_check_var_assign. unif; apply uniform_assignment. Qed.

Lemma uniform_case_cover isp t low high : uniform (bounds_case_cover isp t low high).
Proof.
  induction isp as [|it next IH]; cbn [bounds_case_cover]; unif. exact IH.
Qed.

Lemma uniform_case t : uniform (bounds_check_case t).
Proof.
  unfold bounds_check_case, bounds_check_case_enum, bounds_check_case_int,
    bounds_check_case_array, bounds_case_enum_choice, bounds_case_int_choice,
    bounds_case_array_choice.
  unif; try apply uniform_case_cover.
Qed.

Lemma uniform_type_conv t : uniform (bounds_check_type_conv t).
Proof. unfold bounds_check_type_conv. unif. Qed.

Lemma uniform_attr_ref t : uniform (bounds_check_attr_ref t).
Proof. unfold bounds_check_attr_ref. unif. Qed.

Lemma uniform_visit_fn t : uniform (bounds_visit_fn t).
Proof.
  unfold bounds_visit_fn.
  destruct (tree_kind t); unif;
    first [ apply uniform_call_args | apply uniform_array_ref | apply uniform_array_slice
          | apply uniform_aggregate | apply uniform_decl | apply uniform_signal_assign
          | apply uniform_var_assign | apply uniform_case | apply uniform_literal
          | apply uniform_type_conv | apply uniform_attr_ref ].
Qed.

End Uniform.

Lemma ident_eq_refl n : ident_eq n n = true.
Proof. unfold ident_eq. apply String.eqb_refl. Qed.

Lemma set_attr_idem name a l : set_attr name a (set_attr name a l) = set_attr name a l.
Proof.
  induction l as [|[n x] rest IH]; simpl.
  - rewrite ident_eq_refl. reflexivity.
  - destruct (ident_eq n name) eqn:E; simpl; rewrite E; [reflexivity|].
    rewrite IH. reflexivity.
Qed.

Lemma tree_add_attr_int_idem t name n :
  tree_add_attr_int (tree_add_attr_int t name n) name n = tree_add_attr_int t name n.
Proof. destruct t. simpl. rewrite set_attr_idem. reflexivity. Qed.

Lemma bounds_check_index_marked t name n :
  bounds_check_index (tree_add_attr_int t name n) = bounds_check_index t.
Proof. destruct t. reflexivity. Qed.

Lemma t_value_marked t name n : t_value (tree_add_attr_int t name n) = t_value t.
Proof. destruct t. reflexivity. Qed.

Lemma tree_params_marked t name n : tree_params (tree_add_attr_int t name n) = tree_params t.
Proof. destruct t. reflexivity. Qed.

Lemma tree_kind_marked t name n : tree_kind (tree_add_attr_int t name n) = tree_kind t.
Proof. destruct t. reflexivity. Qed.

(** What [bounds_check_array_ref] returns it returns again. *)
Lemma bounds_check_array_ref_again n s n' s' :
  bounds_check_array_ref n s = Done (n', s') ->
  (n' = n \/ n' = tree_add_attr_int n elide_bounds_i 1)
  /\ bounds_check_array_ref n' s = Done (n', s').
Proof.
  intros H. pose proof H as H0. unfold bounds_check_array_ref, tree_value, tree_type in H.
  destruct (t_value n) as [value|] eqn:Hv; [|discriminate].
  erewrite bind_run in H by reflexivity. cbv beta in H.
  destruct (negb (tree_has_type value)) eqn:Hh.
  { apply ret_done in H. destruct H as [-> ->]. split; [left; reflexivity | exact H0]. }
  destruct (t_type value) as [vt|] eqn:Hvt; [|discriminate].
  erewrite bind_run in H by reflexivity. cbv beta in H.
  destruct (type_is_unconstrained vt) eqn:Hu.
  { apply ret_done in H. destruct H as [-> ->]. split; [left; reflexivity | exact H0]. }
  cbv zeta in H. apply bind_done in H. destruct H as (nstatic & s1 & Hf & H).
  destruct (nstatic =? tree_params n)%nat eqn:Hn.
  - apply ret_done in H. destruct H as [-> ->]. split; [right; reflexivity|].
    unfold bounds_check_array_ref, tree_value, tree_type.
    rewrite t_value_marked, Hv.
    erewrite bind_run by reflexivity. cbv beta. rewrite Hh.
    rewrite Hvt. erewrite bind_run by reflexivity. cbv beta. rewrite Hu. cbv zeta.
    rewrite tree_params_marked, bounds_check_index_marked.
    erewrite bind_run by exact Hf. cbv beta. rewrite Hn.
    rewrite tree_add_attr_int_idem. reflexivity.
  - apply ret_done in H. destruct H as [-> ->]. split; [left; reflexivity | exact H0].
Qed.

Lemma bind_ret_same {A : Type} (m : B A) (n : tree_t) s n' s' :
  bind m (fun _ => ret n) s = Done (n', s') -> n' = n.
Proof.
  intros H. apply bind_done in H. destruct H as (a & s1 & _ & H).
  apply ret_done in H. tauto.
Qed.

(** The node [bounds_visit_fn] returns is the node it was given, but for the
    attribute an array reference may have been marked with. *)
Lemma bounds_visit_fn_shape n s n' s' :
  bounds_visit_fn n s = Done (n', s') ->
  n' = n \/ (tree_kind n = T_ARRAY_REF /\ n' = tree_add_attr_int n elide_bounds_i 1).
Proof.
  unfold bounds_visit_fn. destruct (tree_kind n) eqn:K; intros H;
    try (left; apply ret_done in H; tauto);
    try (left; eapply bind_ret_same; exact H);
    try (left; unfold bounds_check_call_args in H; apply bind_done in H;
         destruct H as (decl & s1 & _ & H); eapply bind_ret_same; exact H).
  apply bounds_check_array_ref_again in H. destruct H as [[E|E] _]; [left; exact E|].
  right. split; [reflexivity | exact E].
Qed.

Lemma bounds_visit_fn_stable n : stable_at bounds_visit_fn n.
Proof.
  intros s n' s' H. destruct (bounds_visit_fn_shape _ _ _ _ H) as [E | [K E]].
  - subst n'. exact (uniform_visit_fn n _ _ _ H).
  - assert (H' : bounds_check_array_ref n s = Done (n', s')).
    { unfold bounds_visit_fn in H. rewrite K in H. exact H. }
    apply bounds_check_array_ref_again in H'. destruct H' as [_ H'].
    assert (F : bounds_visit_fn n' = bounds_check_array_ref n').
    { unfold bounds_visit_fn. rewrite E, tree_kind_marked, K. reflexivity. }
    rewrite F. exact (uniform_array_ref n' _ _ _ H').
Qed.

Section Visit.

Variable fn : tree_t -> B tree_t.

Lemma stable_visit_opt o :
  match o with Some c => stable_at (tree_visit fn) c | None => True end ->
  stable_at (visit_opt fn) o.
Proof.
  destruct o as [c|]; intros Hc s o1 s1 H; unfold visit_opt in H.
  - apply bind_done in H. destruct H as (c' & s' & Hv & H).
    apply ret_done in H. destruct H as [-> ->].
    destruct (Hc _ _ _ Hv) as (ds & -> & R). exists ds. split; [reflexivity|].
    intros s2. unfold visit_opt. erewrite bind_run by apply R. reflexivity.
  - apply ret_done in H. destruct H as [-> ->]. exists []. rewrite report_nil.
    split; [reflexivity|]. intros s2. rewrite report_nil. reflexivity.
Qed.

Lemma stable_visit_range o :
  match o with
  | Some r => stable_at (tree_visit fn) (r_left r) /\ stable_at (tree_visit fn) (r_right r)
  | None => True
  end ->
  stable_at (visit_range fn) o.
Proof.
  destruct o as [[l r kd]|]; intros Hc s o1 s1 H; unfold visit_range in H.
  - cbn [r_left r_right] in Hc. destruct Hc as [Hl Hr].
    apply bind_done in H. destruct H as (l' & sa & Hvl & H).
    apply bind_done in H. destruct H as (r' & sb & Hvr & H).
    apply ret_done in H. destruct H as [-> ->].
    destruct (Hl _ _ _ Hvl) as (d1 & -> & R1).
    destruct (Hr _ _ _ Hvr) as (d2 & -> & R2).
    exists (d1 ++ d2)%list. split; [apply report_app|].
    intros s2. unfold visit_range. erewrite bind_run by apply R1.
    erewrite bind_run by apply R2. rewrite report_app. reflexivity.
  - apply ret_done in H. destruct H as [-> ->]. exists []. rewrite report_nil.
    split; [reflexivity|]. intros s2. rewrite report_nil. reflexivity.
Qed.

Lemma stable_visit_list l :
  Forall (stable_at (tree_visit fn)) l -> stable_at (visit_list fn) l.
Proof.
  induction l as [|c rest IH]; intros Hl s l1 s1 H.
  - apply ret_done in H. destruct H as [-> ->]. exists []. rewrite report_nil.
    split; [reflexivity|]. intros s2. rewrite report_nil. reflexivity.
  - inversion Hl as [|? ? Hc Hrest]; subst.
    change (visit_list fn (c :: rest))
      with (c' <- tree_visit fn c ;; rest' <- visit_list fn rest ;; ret (c' :: rest'))%monad
      in H.
    apply bind_done in H. destruct H as (c' & sa & Hvc & H).
    apply bind_done in H. destruct H as (rest' & sb & Hvr & H).
    apply ret_done in H. destruct H as [-> ->].
    destruct (Hc _ _ _ Hvc) as (d1 & -> & R1).
    destruct (IH Hrest _ _ _ Hvr) as (d2 & -> & R2).
    exists (d1 ++ d2)%list. split; [apply report_app|].
    intros s2.
    change (visit_list fn (c' :: rest'))
      with (c'' <- tree_visit fn c' ;; rest'' <- visit_list fn rest' ;;
            ret (c'' :: rest''))%monad.
    erewrite bind_run by apply R1.
    erewrite bind_run by apply R2. rewrite report_app. reflexivity.
Qed.

End Visit.

Lemma tree_visit_stable t : stable_at (tree_visit bounds_visit_fn) t.
Proof.
  induction t as [t Hc] using tree_children_ind.
  destruct Hc as (Hvalue & Htarget & Hname & Hrange & Hparams & Hports & Hdecls
                  & Hstmts & Helse & Hassocs & Hchars & Hwaves).
  intros s t1 s1 H. rewrite tree_visit_eq in H.
  apply bind_done in H. destruct H as (value' & sv & Rvalue & H).
  apply bind_done in H. destruct H as (target' & st & Rtarget & H).
  apply bind_done in H. destruct H as (name' & sn & Rname & H).
  apply bind_done in H. destruct H as (range' & sr & Rrange & H).
  apply bind_done in H. destruct H as (params' & sp & Rparams & H).
  apply bind_done in H. destruct H as (ports' & spo & Rports & H).
  apply bind_done in H. destruct H as (decls' & sd & Rdecls & H).
  apply bind_done in H. destruct H as (stmts' & ss & Rstmts & H).
  apply bind_done in H. destruct H as (else' & se & Relse & H).
  apply bind_done in H. destruct H as (assocs' & sa & Rassocs & H).
  apply bind_done in H. destruct H as (chars' & sc & Rchars & H).
  apply bind_done in H. destruct H as (waves' & sw & Rwaves & H).
  destruct (stable_visit_opt _ _ Hvalue _ _ _ Rvalue) as (d1 & -> & S1).
  destruct (stable_visit_opt _ _ Htarget _ _ _ Rtarget) as (d2 & -> & S2).
  destruct (stable_visit_opt _ _ Hname _ _ _ Rname) as (d3 & -> & S3).
  destruct (stable_visit_range _ _ Hrange _ _ _ Rrange) as (d4 & -> & S4).
  destruct (stable_visit_list _ _ Hparams _ _ _ Rparams) as (d5 & -> & S5).
  destruct (stable_visit_list _ _ Hports _ _ _ Rports) as (d6 & -> & S6).
  destruct (stable_visit_list _ _ Hdecls _ _ _ Rdecls) as (d7 & -> & S7).
  destruct (stable_visit_list _ _ Hstmts _ _ _ Rstmts) as (d8 & -> & S8).
  destruct (stable_visit_list _ _ Helse _ _ _ Relse) as (d9 & -> & S9).
  destruct (stable_visit_list _ _ Hassocs _ _ _ Rassocs) as (d10 & -> & S10).
  destruct (stable_visit_list _ _ Hchars _ _ _ Rchars) as (d11 & -> & S11).
  destruct (stable_visit_list _ _ Hwaves _ _ _ Rwaves) as (d12 & -> & S12).
  destruct (bounds_visit_fn_stable _ _ _ _ H) as (df & -> & Sf).
  eexists. split; [repeat rewrite report_app; reflexivity|].
  intros s2. rewrite tree_visit_eq.
  assert (E : t1 = Tree (tree_kind t1) (tree_subkind t1) (tree_loc t1) (t_ident t1)
                        (t_ident2 t1) (tree_ival t1) (tree_dval t1) (tree_pos t1)
                        (t_attrs t1) (t_type t1) value' target' name' (t_ref t1) range'
                        params' ports' decls' stmts' else' assocs' chars' waves').
  { destruct (bounds_visit_fn_shape _ _ _ _ H) as [E | [_ E]]; rewrite E; reflexivity. }
  assert (Ev : t_value t1 = value') by (rewrite E; reflexivity).
  assert (Et : t_target t1 = target') by (rewrite E; reflexivity).
  assert (En : t_name t1 = name') by (rewrite E; reflexivity).
  assert (Er : t_range t1 = range') by (rewrite E; reflexivity).
  assert (Ep : t_params t1 = params') by (rewrite E; reflexivity).
  assert (Epo : t_ports t1 = ports') by (rewrite E; reflexivity).
  assert (Ed : t_decls t1 = decls') by (rewrite E; reflexivity).
  assert (Es : t_stmts t1 = stmts') by (rewrite E; reflexivity).
  assert (Ee : t_else_stmts t1 = else') by (rewrite E; reflexivity).
  assert (Ea : t_assocs t1 = assocs') by (rewrite E; reflexivity).
  assert (Ec : t_chars t1 = chars') by (rewrite E; reflexivity).
  assert (Ew : t_waveforms t1 = waves') by (rewrite E; reflexivity).
  rewrite Ev, Et, En, Er, Ep, Epo, Ed, Es, Ee, Ea, Ec, Ew.
  erewrite bind_run by apply S1. erewrite bind_run by apply S2.
  erewrite bind_run by apply S3. erewrite bind_run by apply S4.
  erewrite bind_run by apply S5. erewrite bind_run by apply S6.
  erewrite bind_run by apply S7. erewrite bind_run by apply S8.
  erewrite bind_run by apply S9. erewrite bind_run by apply S10.
  erewrite bind_run by apply S11. erewrite bind_run by apply S12.
  rewrite <- E. rewrite Sf. repeat rewrite report_app. reflexivity.
Qed.

(** C9 (amended). When [bounds_check] has run on a tree, a second run on
    the tree it leaves behind returns that tree again, with the same
    attribute markings, and reports the diagnostics of the first run once
    more: the counter read by [bounds_errors] grows by the same amount each
    time and is never reset. *)
Theorem bounds_check_again t s t1 s1 :
  bounds_check t s = Done (t1, s1) ->
  exists ds,
    s1 = report s ds
    /\ bounds_check t1 s1 = Done (t1, report s1 ds)
    /\ bounds_errors (report s1 ds) = bounds_errors s + 2 * Z.of_nat (length ds).
Proof.
  intros H. destruct (tree_visit_stable t _ _ _ H) as (ds & -> & R).
  exists ds. split; [reflexivity|]. split; [apply R|].
  unfold bounds_errors, report. cbn [errors]. lia.
Qed.

(** [a(9)] for [signal a : bit_vector(0 to 7)]: each run reports the index
    once. *)
Lemma bounds_check_again_witness :
  exists ds,
    Bounds 1 [Diag (Loc 0 0) "array %s%sindex %li out of bounds %li %s %li"
                [ArgStr "A"; ArgStr " "; ArgInt 9; ArgInt 0; ArgStr "to"; ArgInt 7]]
    = report bounds_init ds
    /\ bounds_check ref_a_9 (Bounds 1 [Diag (Loc 0 0) "array %s%sindex %li out of bounds %li %s %li"
                [ArgStr "A"; ArgStr " "; ArgInt 9; ArgInt 0; ArgStr "to"; ArgInt 7]])
       = Done (ref_a_9, report (Bounds 1 [Diag (Loc 0 0) "array %s%sindex %li out of bounds %li %s %li"
                [ArgStr "A"; ArgStr " "; ArgInt 9; ArgInt 0; ArgStr "to"; ArgInt 7]]) ds)
    /\ bounds_errors (report (Bounds 1 [Diag (Loc 0 0) "array %s%sindex %li out of bounds %li %s %li"
                [ArgStr "A"; ArgStr " "; ArgInt 9; ArgInt 0; ArgStr "to"; ArgInt 7]]) ds)
       = bounds_errors bounds_init + 2 * Z.of_nat (length ds).
Proof.
  apply (bounds_check_again ref_a_9 bounds_init ref_a_9).
  vm_compute. reflexivity.
Defined.

(** The error count after the second run is not the count after the first:
    one out-of-bounds index, checked twice, is counted twice. *)
Lemma bounds_check_twice_counts_twice :
  exists t1 s1 s2,
    bounds_check ref_a_9 bounds_init = Done (t1, s1)
    /\ bounds_check t1 s1 = Done (t1, s2)
    /\ bounds_errors s1 = 1 /\ bounds_errors s2 = 2.
Proof.
  eexists. eexists. eexists. split; [vm_compute; reflexivity|].
  split; [vm_compute; reflexivity|]. split; reflexivity.
Qed.

(* ================================================================= *)
(** * The variable table *)

Lemma ident_eq_sym a b : ident_eq a b = ident_eq b a.
Proof. unfold ident_eq. apply String.eqb_sym. Qed.

Lemma ident_eq_true a b : ident_eq a b = true -> a = b.
Proof. unfold ident_eq. apply String.eqb_eq. Qed.

Lemma rebind_none name value bs :
  rebind name value bs = None -> binding_get bs name = None.
Proof.
  intros H. pose proof (rebind_get name value bs) as G.
  destruct (binding_get bs name); [|reflexivity].
  destruct G as (bs' & E & _). congruence.
Qed.

Lemma binding_get_snoc bs n x name :
  binding_get (bs ++ [(n, x)]) name
  = match binding_get bs name with
    | Some y => Some y
    | None => if ident_eq n name then Some x else None
    end.
Proof.
  induction bs as [|[m y] rest IH]; simpl; [reflexivity|].
  destruct (ident_eq m name); [reflexivity | exact IH].
Qed.

(** What [vtable_bind] does to a state with a frame: the top frame gets new
    bindings, in which [name] is bound to [value] and every other name is
    bound as before; nothing else changes. *)
Lemma vtable_bind_top name value v f down a v' :
  top v = f :: down ->
  vtable_bind name value v = Done (a, v') ->
  exists bs,
    v' = set_top (VtFrame bs :: down) v
    /\ binding_get bs name = Some value
    /\ forall n, ident_eq n name = false -> binding_get bs n = binding_get (binding f) n.
Proof.
  intros Ht H. unfold vtable_bind in H. minv. rewrite Ht in *.
  pose proof (rebind_get name value (binding f)) as G.
  destruct (rebind name value (binding f)) as [bs|] eqn:Hr; minv.
  - exists bs. split; [reflexivity|].
    destruct (binding_get (binding f) name); [|discriminate].
    destruct G as (bs' & E & G1 & G2). assert (bs' = bs) by congruence. subst bs'.
    split; assumption.
  - exists (binding f ++ [(name, value)])%list. split; [reflexivity|].
    apply rebind_none in Hr. split.
    + rewrite binding_get_snoc, Hr, ident_eq_refl. reflexivity.
    + intros n Hn. rewrite binding_get_snoc.
      destruct (binding_get (binding f) n); [reflexivity|].
      rewrite ident_eq_sym, Hn. reflexivity.
Qed.

(** X1. A name that has just been bound is found, with the value it was
    bound to. *)
Theorem vtable_get_after_bind name value v v' :
  top v <> [] ->
  vtable_bind name value v = Done (tt, v') ->
  vtable_get v' name = Some value.
Proof.
  intros Hne H. destruct (top v) as [|f down] eqn:Ht; [congruence|].
  destruct (vtable_bind_top _ _ _ _ _ _ _ Ht H) as (bs & -> & Hg & _).
  unfold vtable_get. cbn [top set_top vtframe_get binding]. rewrite Hg. reflexivity.
Qed.

Lemma vtable_get_after_bind_witness :
  vtable_get (VTable [VtFrame [("X", lit_int 7)]] false None None) "X" = Some (lit_int 7).
Proof.
  apply (vtable_get_after_bind "X" (lit_int 7) vt_x1).
  - discriminate.
  - reflexivity.
Defined.

(** X2. Binding a name leaves what every other name is bound to as it
    was, in the top frame and in the frames below. *)
Theorem vtable_get_other_after_bind name other value v v' :
  ident_eq name other = false ->
  vtable_bind name value v = Done (tt, v') ->
  vtable_get v' other = vtable_get v other.
Proof.
  intros Hn H. destruct (top v) as [|f down] eqn:Ht.
  - unfold vtable_bind in H. minv. rewrite Ht in *. minv. reflexivity.
  - destruct (vtable_bind_top _ _ _ _ _ _ _ Ht H) as (bs & -> & _ & Hg).
    unfold vtable_get. rewrite Ht. cbn [top set_top vtframe_get binding].
    rewrite Hg by (rewrite ident_eq_sym; exact Hn). reflexivity.
Qed.

Lemma vtable_get_other_after_bind_witness :
  vtable_get (VTable [VtFrame [("X", lit_int 1); ("Y", lit_int 2)]] false None None) "X"
  = vtable_get vt_x1 "X".
Proof.
  apply (vtable_get_other_after_bind "Y" "X" (lit_int 2) vt_x1).
  - reflexivity.
  - reflexivity.
Defined.

Lemma for_each_bind_top (bs : list (ident_t * tree_t)) :
  forall v f down v',
    top v = f :: down ->
    for_each bs (fun '(n, x) => vtable_bind n x) v = Done (tt, v') ->
    exists f', v' = set_top (f' :: down) v.
Proof.
  induction bs as [|[n x] rest IH]; intros v f down v' Ht H; cbn [for_each] in H.
  - minv. exists f. destruct v; simpl in *; subst; reflexivity.
  - apply bind_done in H. destruct H as ([] & v1 & H1 & H2).
    destruct (vtable_bind_top _ _ _ _ _ _ _ Ht H1) as (bs1 & -> & _).
    destruct (IH (set_top (VtFrame bs1 :: down) v) (VtFrame bs1) down _ eq_refl H2)
      as (f' & ->).
    exists f'. reflexivity.
Qed.

(** X3. A frame that is pushed, filled with any bindings and popped is
    gone without a trace: the frames below are the stack again, and the
    only other effect is that [vtable_pop] clears the result. *)
Theorem vtable_pop_drops_frame (bs : list (ident_t * tree_t)) v v' :
  (vtable_push ;;; for_each bs (fun '(n, x) => vtable_bind n x) ;;; vtable_pop)%monad v
  = Done (tt, v') ->
  v' = set_result None v.
Proof.
  intros H.
  apply bind_done in H. destruct H as ([] & v1 & H1 & H).
  apply bind_done in H. destruct H as ([] & v2 & H2 & H3).
  unfold vtable_push in H1. apply modify_done in H1. subst v1.
  destruct (for_each_bind_top bs (set_top (VtFrame [] :: top v) v) (VtFrame []) (top v)
              _ eq_refl H2) as (f' & ->).
  unfold vtable_pop in H3. minv. cbn [top set_top] in *. minv.
  destruct v; reflexivity.
Qed.

Lemma vtable_pop_drops_frame_witness :
  VTable [VtFrame [("X", lit_int 1)]] false None None = set_result None vt_x1.
Proof.
  apply (vtable_pop_drops_frame [("X", lit_int 5); ("Y", lit_int 6)] vt_x1).
  reflexivity.
Defined.

(** ** Calls leave the frames of the caller alone *)

Lemma same_below_refl v : same_below (top v) v.
Proof. split; reflexivity. Qed.

Lemma same_below_bind f0 name value : preserves (same_below f0) (vtable_bind name value).
Proof.
  intros v a v' [Htl Hlen] H. destruct (top v) as [|f down] eqn:Ht.
  - unfold vtable_bind in H. minv. rewrite Ht in *. minv.
    split; rewrite Ht; assumption.
  - destruct (vtable_bind_top _ _ _ _ _ _ _ Ht H) as (bs & -> & _).
    split; cbn [top set_top tl length] in *; assumption.
Qed.

Section Frames.

Variable eval_expr : tree_t -> E tree_t.
Variable eval_stmt : tree_t -> E unit.
Hypothesis expr_top : forall t f0, preserves (fun v => top v = f0) (eval_expr t).
Hypothesis stmt_below : forall t f0, preserves (same_below f0) (eval_stmt t).

Lemma expr_below t f0 : preserves (same_below f0) (eval_expr t).
Proof.
  intros v a v' [Htl Hlen] H. pose proof (expr_top t (top v) v a v' eq_refl H) as E.
  split; rewrite E; assumption.
Qed.

Lemma eval_func_body_below t f0 :
  preserves (same_below f0) (eval_func_body eval_expr eval_stmt t).
Proof.
  apply preserves_eval_func_body.
  - apply same_below_bind.
  - intros t'. apply expr_below.
  - intros t'. apply stmt_below.
Qed.

Lemma eval_stmt_body_below t f0 :
  preserves (same_below f0) (eval_stmt_body eval_expr eval_stmt t).
Proof.
  apply preserves_eval_stmt_body.
  - intros v [H1 H2]. split; assumption.
  - intros v r [H1 H2]. split; assumption.
  - intros v e [H1 H2]. split; assumption.
  - apply same_below_bind.
  - intros t'. apply expr_below.
  - intros t'. apply stmt_below.
Qed.

Lemma bind_ports_below decl f0 (l : list (nat * tree_t)) :
  preserves (same_below f0)
    (for_each l (fun '(i, p) =>
       port <- tree_port decl i ;;
       name <- tree_ident port ;;
       vtable_bind name p)).
Proof.
  apply preserves_for_each. intros [i p].
  apply preserves_bind; [apply preserves_expect | intros port].
  apply preserves_bind; [apply preserves_expect | intros name].
  apply same_below_bind.
Qed.

Lemma eval_fcall_top t f0 :
  preserves (fun v => top v = f0) (eval_fcall eval_expr eval_stmt t).
Proof.
  unfold eval_fcall.
  apply preserves_bind; [apply preserves_expect | intros decl].
  apply preserves_bind; [apply preserves_assert | intros _].
  destruct (tree_attr_str decl builtin_i) as [builtin|].
  - apply preserves_bind.
    + apply preserves_map_each. intros p.
      apply preserves_bind; [apply preserves_expect | intros e; apply expr_top].
    + intros targs.
      destruct (is_universal builtin); [apply preserves_expect|].
      destruct (fold_all folded_int targs); [apply preserves_expect|].
      destruct (fold_all folded_bool targs); [apply preserves_expect|].
      destruct (fold_all folded_real targs); [apply preserves_expect|].
      destruct (fold_all folded_enum targs); [apply preserves_expect|].
      destruct (fold_all is_string_literal targs); [apply preserves_expect|].
      apply preserves_ret.
  - destruct (tree_kind decl); try apply preserves_ret.
    apply preserves_bind; [apply preserves_expect | intros ty].
    destruct (type_is_array ty); [apply preserves_ret|].
    cbv zeta.
    apply preserves_bind.
    { apply preserves_eval_params. intros t'. apply expr_top. }
    intros [params|]; [|apply preserves_ret].
    intros v r v' Hv H.
    apply bind_done in H. destruct H as ([] & v1 & H1 & H).
    apply bind_done in H. destruct H as ([] & v2 & H2 & H).
    apply bind_done in H. destruct H as ([] & v3 & H3 & H).
    apply bind_done in H. destruct H as (v3' & v3'' & H4 & H).
    apply get_done in H4. destruct H4 as [-> ->].
    apply bind_done in H. destruct H as ([] & v4 & H5 & H).
    apply ret_done in H. destruct H as [_ ->].
    unfold vtable_push in H1. apply modify_done in H1. subst v1.
    assert (B1 : same_below (VtFrame [] :: top v) (set_top (VtFrame [] :: top v) v))
      by (split; reflexivity).
    pose proof (bind_ports_below _ _ _ _ _ _ B1 H2) as B2.
    pose proof (eval_func_body_below _ _ _ _ _ B2 H3) as [B3 B3'].
    unfold vtable_pop in H5. minv.
    destruct (top v3) as [|f down]; minv.
    cbn [tl length top set_top set_result] in *. congruence.
Qed.

Lemma eval_expr_body_top t f0 :
  preserves (fun v => top v = f0) (eval_expr_body eval_expr eval_stmt t).
Proof.
  unfold eval_expr_body. destruct (tree_kind t); try apply preserves_ret.
  - apply eval_fcall_top.
  - unfold eval_ref.
    apply preserves_bind; [apply preserves_expect | intros decl].
    destruct (tree_kind decl);
      try (apply preserves_bind; [apply preserves_expect | intros name];
           apply preserves_bind; [apply preserves_get | intros v0];
           apply preserves_ret).
    apply preserves_bind; [apply preserves_expect | intros e; apply expr_top].
  - unfold eval_type_conv.
    apply preserves_bind; [apply preserves_expect | intros p].
    apply preserves_bind; [apply preserves_expect | intros e].
    apply preserves_bind; [apply expr_top | intros value].
    apply preserves_bind; [apply preserves_expect | intros from].
    apply preserves_bind; [apply preserves_expect | intros to].
    destruct (type_kind from); try apply preserves_ret;
      destruct (type_kind to); try apply preserves_ret.
    + destruct (folded_int value); apply preserves_ret.
    + destruct (folded_real value); apply preserves_ret.
Qed.

End Frames.

Lemma eval_frames fuel :
  (forall t f0, preserves (fun v => top v = f0) (eval_expr fuel t))
  /\ (forall t f0, preserves (same_below f0) (eval_stmt fuel t)).
Proof.
  induction fuel as [|fuel [IHe IHs]].
  - split; intros t f0 v a v' _ H; discriminate.
  - split; intros t f0.
    + apply eval_expr_body_top; assumption.
    + apply eval_stmt_body_below; assumption.
Qed.

(** X4. Evaluating an expression leaves the stack of frames exactly as it
    found it: every frame a call pushes is popped again, and nothing a
    called function binds reaches the variables of the caller. *)
Theorem eval_expr_keeps_frames fuel t v r v' :
  eval_expr fuel t v = Done (r, v') -> top v' = top v.
Proof.
  intros H. exact (proj1 (eval_frames fuel) t (top v) v r v' eq_refl H).
Qed.

Lemma eval_expr_keeps_frames_witness :
  top (VTable [VtFrame [("X", lit_int 1)]] false None None) = top vt_x1.
Proof.
  apply (eval_expr_keeps_frames 10 call_add1_5 vt_x1
           (get_int_lit (mk_op "add" [mk_ref port_x; lit_int 1]) 6)).
  vm_compute. reflexivity.
Defined.

(** X5. A statement changes bindings in the top frame only: the frames
    below it and the depth of the stack are as before. *)
Theorem eval_stmt_keeps_lower_frames fuel t v v' :
  eval_stmt fuel t v = Done (tt, v') ->
  tl (top v') = tl (top v) /\ length (top v') = length (top v).
Proof.
  intros H.
  exact (proj2 (eval_frames fuel) t (top v) v tt v' (same_below_refl v) H).
Qed.

Lemma eval_stmt_keeps_lower_frames_witness :
  tl (top (VTable [VtFrame [("X", lit_int 6)]] false None None)) = tl (top vt_x1)
  /\ length (top (VTable [VtFrame [("X", lit_int 6)]] false None None))
     = length (top vt_x1).
Proof.
  apply (eval_stmt_keeps_lower_frames 10 (mk_assign (mk_ref port_x) call_add1_5) vt_x1).
  vm_compute. reflexivity.
Defined.
(* ================================================================= *)
(** * The integer operators *)

Lemma fold_MIN_spec rest : forall a0,
  In (fold_left MIN rest a0) (a0 :: rest)
  /\ Forall (fun x => fold_left MIN rest a0 <= x) (a0 :: rest).
Proof.
  induction rest as [|b rest IH]; intros a0; cbn [fold_left].
  - split; [left; reflexivity | constructor; [lia | constructor]].
  - destruct (IH (MIN a0 b)) as [Hin Hle].
    inversion Hle as [|? ? H0 Hrest]; subst.
    assert (Hm : MIN a0 b <= a0 /\ MIN a0 b <= b /\ (MIN a0 b = a0 \/ MIN a0 b = b)).
    { unfold MIN. destruct (a0 <? b) eqn:E; [apply Z.ltb_lt in E | apply Z.ltb_ge in E]; lia. }
    split.
    + destruct Hin as [Hin|Hin]; [|right; right; exact Hin].
      destruct Hm as (_ & _ & [E|E]); rewrite <- Hin, E; [left | right; left]; reflexivity.
    + constructor; [lia|]. constructor; [lia | exact Hrest].
Qed.

Lemma fold_MAX_spec rest : forall a0,
  In (fold_left MAX rest a0) (a0 :: rest)
  /\ Forall (fun x => x <= fold_left MAX rest a0) (a0 :: rest).
Proof.
  induction rest as [|b rest IH]; intros a0; cbn [fold_left].
  - split; [left; reflexivity | constructor; [lia | constructor]].
  - destruct (IH (MAX a0 b)) as [Hin Hle].
    inversion Hle as [|? ? H0 Hrest]; subst.
    assert (Hm : a0 <= MAX a0 b /\ b <= MAX a0 b /\ (MAX a0 b = a0 \/ MAX a0 b = b)).
    { unfold MAX. rewrite Z.gtb_ltb.
      destruct (b <? a0) eqn:E; [apply Z.ltb_lt in E | apply Z.ltb_ge in E]; lia. }
    split.
    + destruct Hin as [Hin|Hin]; [|right; right; exact Hin].
      destruct Hm as (_ & _ & [E|E]); rewrite <- Hin, E; [left | right; left]; reflexivity.
    + constructor; [lia|]. constructor; [lia | exact Hrest].
Qed.

(** X6. [min] and [max] of one or more integers fold to the least and the
    greatest of the operands; with no operand at all the assertion of the
    source fails. *)
Theorem eval_fcall_int_min_max t a0 rest :
  exists lo hi,
    eval_fcall_int t "min" (a0 :: rest) = Some (get_int_lit t lo)
    /\ eval_fcall_int t "max" (a0 :: rest) = Some (get_int_lit t hi)
    /\ In lo (a0 :: rest) /\ In hi (a0 :: rest)
    /\ Forall (fun x => lo <= x <= hi) (a0 :: rest)
    /\ eval_fcall_int t "min" [] = None
    /\ eval_fcall_int t "max" [] = None.
Proof.
  exists (fold_left MIN rest a0), (fold_left MAX rest a0).
  destruct (fold_MIN_spec rest a0) as [Imin Lmin].
  destruct (fold_MAX_spec rest a0) as [Imax Lmax].
  split; [reflexivity|]. split; [reflexivity|].
  split; [exact Imin|]. split; [exact Imax|].
  split; [|split; reflexivity].
  rewrite Forall_forall in *. intros x Hx. split; [apply Lmin | apply Lmax]; exact Hx.
Qed.

Lemma quot_in_int64 a b :
  in_int64 a -> in_int64 b -> div_traps a b = false -> in_int64 (Z.quot a b).
Proof.
  unfold in_int64, div_traps, INT64_MIN, INT64_MAX. intros Ha Hb Ht.
  apply orb_false_iff in Ht. destruct Ht as [Hz Hm].
  apply Z.eqb_neq in Hz. apply andb_false_iff in Hm.
  pose proof (Z.quot_rem' a b) as E.
  pose proof (Z.quot_abs a b Hz) as Q.
  assert (Hq : Z.abs a ÷ Z.abs b <= Z.abs a).
  { rewrite Z.quot_div_nonneg by lia. apply Z.div_le_upper_bound; nia. }
  destruct (Z.eq_dec (a ÷ b) (2 ^ 63)) as [E63|N63]; [|lia].
  exfalso. assert (Ea : a = - 2 ^ 63) by lia.
  assert (Eb : Z.abs b = 1).
  { destruct (Z.eq_dec (Z.abs b) 1) as [|Nb]; [assumption|].
    assert (Z.abs a ÷ Z.abs b <= Z.abs a / 2).
    { rewrite Z.quot_div_nonneg by lia.
      apply Z.div_le_lower_bound; [lia|].
      pose proof (Z.mul_div_le (Z.abs a) (Z.abs b) ltac:(lia)). nia. }
    assert (Z.abs a / 2 < 2 ^ 63) by (apply Z.div_lt_upper_bound; lia).
    lia. }
  destruct Hm as [Hm|Hm]; apply Z.eqb_neq in Hm; [lia|].
  assert (b = 1) by lia. subst a b. vm_compute in E63. discriminate.
Qed.

Lemma rem_in_int64 a b : in_int64 a -> in_int64 b -> in_int64 (Z.rem a b).
Proof.
  unfold in_int64, INT64_MIN, INT64_MAX. intros Ha Hb.
  destruct (Z.eq_dec b 0) as [->|Hz]; [rewrite Z.rem_0_r_ext by reflexivity; exact Ha|].
  pose proof (Z.rem_bound_abs a b Hz). pose proof (Z.rem_abs a b Hz). lia.
Qed.

Lemma arg_in_int64 args i a : Forall in_int64 args -> arg args i = Some a -> in_int64 a.
Proof.
  intros Hf Ha. unfold arg in Ha. apply nth_error_In in Ha.
  rewrite Forall_forall in Hf. apply Hf. exact Ha.
Qed.

(** X7. The integer operators never leave the 64-bit range: applied to
    64-bit operands, a reducer that returns gives back the call itself, a
    boolean, or an integer literal whose value is again a 64-bit integer. *)
Theorem eval_fcall_int_in_range t builtin args r :
  Forall in_int64 args ->
  eval_fcall_int t builtin args = Some r ->
  r = t \/ (exists b, r = get_bool_lit t b)
  \/ (exists z, r = get_int_lit t z /\ in_int64 z).
Proof.
  intros Hargs. unfold eval_fcall_int.
  assert (Hone : in_int64 1) by (unfold in_int64, INT64_MIN, INT64_MAX; lia).
  assert (Hzero : in_int64 0) by (unfold in_int64, INT64_MIN, INT64_MAX; lia).
  repeat match goal with
         | |- (if icmp ?b ?s then _ else _) = _ -> _ => destruct (icmp b s)
         end;
    repeat match goal with
           | |- (match arg ?l ?i with _ => _ end) = _ -> _ =>
               let a := fresh "a" in let E := fresh "E" in
               destruct (arg l i) as [a|] eqn:E;
               [apply (arg_in_int64 _ _ _ Hargs) in E | discriminate]
           end;
    try (intros H; apply some_eq_inv in H; subst r;
         first [ left; reflexivity
               | right; left; eexists; reflexivity
               | right; right; eexists; split;
                 [reflexivity | first [apply wrap64_range | assumption]] ]).
  - destruct (div_traps a a0) eqn:Ht; [discriminate|].
    intros H; apply some_eq_inv in H; subst r. right; right. eexists. split; [reflexivity|].
    apply quot_in_int64; assumption.
  - destruct (a =? 0); [|destruct (a0 =? 0); [|destruct (a0 <? 0)]];
      intros H; apply some_eq_inv in H; subst r;
      first [ left; reflexivity
            | right; right; eexists; split;
              [reflexivity | first [assumption | apply exp_loop_range; assumption]] ].
  - destruct args as [|a0 rest]; [discriminate|].
    intros H; apply some_eq_inv in H; subst r. right; right. eexists. split; [reflexivity|].
    destruct (fold_MIN_spec rest a0) as [Hin _].
    rewrite Forall_forall in Hargs. apply Hargs. exact Hin.
  - destruct args as [|a0 rest]; [discriminate|].
    intros H; apply some_eq_inv in H; subst r. right; right. eexists. split; [reflexivity|].
    destruct (fold_MAX_spec rest a0) as [Hin _].
    rewrite Forall_forall in Hargs. apply Hargs. exact Hin.
  - destruct (div_traps (llabs a) (llabs a0)); [discriminate|].
    intros H; apply some_eq_inv in H; subst r. right; right. eexists. split; [reflexivity|].
    apply rem_in_int64; apply wrap64_range.
  - destruct (div_traps a a0); [discriminate|].
    intros H; apply some_eq_inv in H; subst r. right; right. eexists. split; [reflexivity|].
    apply rem_in_int64; assumption.
Qed.

Lemma eval_fcall_int_in_range_witness :
  get_int_lit (lit_int 0) (-9223372036854775808) = lit_int 0
  \/ (exists b, get_int_lit (lit_int 0) (-9223372036854775808) = get_bool_lit (lit_int 0) b)
  \/ (exists z, get_int_lit (lit_int 0) (-9223372036854775808) = get_int_lit (lit_int 0) z
                /\ in_int64 z).
Proof.
  apply (eval_fcall_int_in_range (lit_int 0) "add" [9223372036854775807; 1]).
  - repeat constructor; unfold INT64_MIN, INT64_MAX; simpl; lia.
  - reflexivity.
Defined.

(** X8. Where the division does not trap, [div] and [rem] are the two
    halves of one truncating division: the quotient times the divisor plus
    the remainder is the dividend, the remainder is smaller than the
    divisor in absolute value and has the sign of the dividend. *)
Theorem eval_fcall_int_div_rem t a b :
  div_traps a b = false ->
  exists q r,
    eval_fcall_int t "div" [a; b] = Some (get_int_lit t q)
    /\ eval_fcall_int t "rem" [a; b] = Some (get_int_lit t r)
    /\ a = b * q + r /\ Z.abs r < Z.abs b /\ 0 <= r * a.
Proof.
  intros Ht. exists (Z.quot a b), (Z.rem a b).
  assert (Hz : b <> 0).
  { unfold div_traps in Ht. apply orb_false_iff in Ht. destruct Ht as [Hz _].
    apply Z.eqb_neq in Hz. exact Hz. }
  split; [unfold eval_fcall_int; simpl; rewrite Ht; reflexivity|].
  split; [unfold eval_fcall_int; simpl; rewrite Ht; reflexivity|].
  split; [apply Z.quot_rem'|]. split.
  - pose proof (Z.rem_bound_abs a b Hz). pose proof (Z.rem_abs a b Hz). lia.
  - apply Z.rem_sign_mul. exact Hz.
Qed.

Lemma eval_fcall_int_div_rem_witness :
  exists q r,
    eval_fcall_int (lit_int 0) "div" [-7; 2] = Some (get_int_lit (lit_int 0) q)
    /\ eval_fcall_int (lit_int 0) "rem" [-7; 2] = Some (get_int_lit (lit_int 0) r)
    /\ -7 = 2 * q + r /\ Z.abs r < Z.abs 2 /\ 0 <= r * -7.
Proof.
  apply (eval_fcall_int_div_rem (lit_int 0) (-7) 2). reflexivity.
Defined.

(** X9. [mod] is computed on the absolute values of its operands: for
    operands other than the least 64-bit integer and a divisor other than
    zero the result is [|a| mod |b|], from zero up to [|b| - 1] whatever the
    signs of the operands. *)
Theorem eval_fcall_int_mod_abs t a b :
  in_int64 a -> in_int64 b -> a <> INT64_MIN -> b <> INT64_MIN -> b <> 0 ->
  eval_fcall_int t "mod" [a; b] = Some (get_int_lit t (Z.abs a mod Z.abs b))
  /\ 0 <= Z.abs a mod Z.abs b < Z.abs b.
Proof.
  intros Ha Hb Na Nb Hz.
  assert (La : llabs a = Z.abs a).
  { unfold llabs. apply wrap64_id. unfold in_int64, INT64_MIN, INT64_MAX in *. lia. }
  assert (Lb : llabs b = Z.abs b).
  { unfold llabs. apply wrap64_id. unfold in_int64, INT64_MIN, INT64_MAX in *. lia. }
  split; [|apply Z.mod_pos_bound; lia].
  unfold eval_fcall_int. simpl. rewrite La, Lb.
  assert (Ht : div_traps (Z.abs a) (Z.abs b) = false).
  { unfold div_traps. apply orb_false_iff. split; [apply Z.eqb_neq; lia|].
    apply andb_false_iff. left. apply Z.eqb_neq. unfold INT64_MIN. lia. }
  rewrite Ht. rewrite Z.rem_mod_nonneg by lia. reflexivity.
Qed.

Lemma eval_fcall_int_mod_abs_witness :
  eval_fcall_int (lit_int 0) "mod" [-7; 3]
  = Some (get_int_lit (lit_int 0) (Z.abs (-7) mod Z.abs 3))
  /\ 0 <= Z.abs (-7) mod Z.abs 3 < Z.abs 3.
Proof.
  apply (eval_fcall_int_mod_abs (lit_int 0) (-7) 3);
    unfold in_int64, INT64_MIN, INT64_MAX; lia.
Defined.
(* ================================================================= *)
(** * Strings, assignments and case statements in the evaluator *)

Lemma chars_equal_spec lc : forall rc il ir,
  map t_ident lc = map Some il ->
  map t_ident rc = map Some ir ->
  length lc = length rc ->
  exists b, chars_equal lc rc = Some b /\ (b = true <-> il = ir).
Proof.
  induction lc as [|c0 lc IH]; intros rc il ir Hl Hr Hlen.
  - destruct rc; [|discriminate]. destruct il; [|discriminate]. destruct ir; [|discriminate].
    exists true. split; [reflexivity | tauto].
  - destruct rc as [|c1 rc]; [discriminate|].
    destruct il as [|i0 il]; [discriminate|]. destruct ir as [|i1 ir]; [discriminate|].
    simpl in Hl, Hr, Hlen. injection Hl as Hi0 Hl. injection Hr as Hi1 Hr.
    destruct (IH rc il ir Hl Hr ltac:(lia)) as (b & Hb & Hiff).
    cbn [chars_equal]. rewrite Hi0, Hi1. cbn. rewrite Hb.
    unfold ident_eq. destruct (String.eqb i0 i1) eqn:E; cbn.
    + apply String.eqb_eq in E. subst i1. exists b. split; [reflexivity|].
      rewrite Hiff. split; [intros ->; reflexivity | intros H; injection H; auto].
    + apply String.eqb_neq in E. exists false. split; [reflexivity|].
      split; [discriminate | intros H; injection H; intros; congruence].
Qed.

(** X10. On two string literals [aeq] folds to [TRUE] exactly when the two
    have the same characters in the same order, strings of different
    lengths included, and [aneq] folds to the opposite. *)
Theorem eval_fcall_str_equal t l r il ir :
  map t_ident (t_chars l) = map Some il ->
  map t_ident (t_chars r) = map Some ir ->
  exists b,
    eval_fcall_str t "aeq" [l; r] = Some (get_bool_lit t b)
    /\ eval_fcall_str t "aneq" [l; r] = Some (get_bool_lit t (negb b))
    /\ (b = true <-> il = ir).
Proof.
  intros Hl Hr.
  assert (Ll : tree_chars l = length il).
  { unfold tree_chars. rewrite <- (length_map t_ident), Hl, length_map. reflexivity. }
  assert (Lr : tree_chars r = length ir).
  { unfold tree_chars. rewrite <- (length_map t_ident), Hr, length_map. reflexivity. }
  unfold eval_fcall_str.
  change (icmp "aeq" "aeq") with true. change (icmp "aeq" "aneq") with false.
  change (icmp "aneq" "aeq") with false. change (icmp "aneq" "aneq") with true.
  cbn [orb arg nth_error]. cbv zeta.
  destruct (tree_chars l =? tree_chars r)%nat eqn:E; cbn [negb].
  - apply Nat.eqb_eq in E.
    destruct (chars_equal_spec _ _ il ir Hl Hr E) as (b & Hb & Hiff).
    exists b. rewrite Hb. cbn. destruct b; repeat split; try reflexivity; apply Hiff.
  - apply Nat.eqb_neq in E. exists false.
    split; [reflexivity|]. split; [reflexivity|].
    split; [discriminate | intros ->; congruence].
Qed.

Lemma eval_fcall_str_equal_witness :
  exists b,
    eval_fcall_str (lit_int 0) "aeq" [lit_string ["a"; "b"]; lit_string ["a"; "c"]]
    = Some (get_bool_lit (lit_int 0) b)
    /\ eval_fcall_str (lit_int 0) "aneq" [lit_string ["a"; "b"]; lit_string ["a"; "c"]]
       = Some (get_bool_lit (lit_int 0) (negb b))
    /\ (b = true <-> ["a"; "b"] = ["a"; "c"]).
Proof.
  apply (eval_fcall_str_equal (lit_int 0) (lit_string ["a"; "b"]) (lit_string ["a"; "c"])
           ["a"; "b"] ["a"; "c"]); reflexivity.
Defined.

(** X11. A variable assignment followed by a reference to the variable:
    when the assigned expression folds to [x] and there is a frame to bind
    in, the reference evaluates to [x]. *)
Theorem eval_assign_then_ref fuel fuel' t target decl name e x v v1 v' :
  tree_kind t = T_VAR_ASSIGN ->
  t_target t = Some target -> t_value t = Some e ->
  tree_kind target = T_REF -> t_ref target = Some decl ->
  tree_kind decl = T_VAR_DECL -> t_ident decl = Some name ->
  top v <> [] ->
  eval_expr fuel e v = Done (x, v1) -> folded x = true ->
  eval_stmt (S fuel) t v = Done (tt, v') ->
  eval_expr (S fuel') target v' = Done (x, v').
Proof.
  intros Kt Htarget Hvalue Ktarget Href Kdecl Hname Htop He Hf H.
  cbn [eval_stmt] in H. unfold eval_stmt_body in H. rewrite Kt in H.
  unfold eval_var_assign, tree_target, tree_value, tree_ref, tree_ident in H.
  rewrite Htarget in H. erewrite bind_run in H by reflexivity. cbv beta in H.
  rewrite Ktarget, Hvalue in H. erewrite bind_run in H by reflexivity. cbv beta in H.
  erewrite bind_run in H by exact He. cbv beta in H.
  rewrite Hf in H. cbn [negb] in H. rewrite Href in H.
  erewrite bind_run in H by reflexivity. cbv beta in H.
  rewrite Hname in H. erewrite bind_run in H by reflexivity. cbv beta in H.
  assert (Htop1 : top v1 <> []).
  { rewrite (proj1 (eval_frames fuel) e (top v) v x v1 eq_refl He). exact Htop. }
  destruct (top v1) as [|f down] eqn:Ht1; [congruence|].
  destruct (vtable_bind_top _ _ _ _ _ _ _ Ht1 H) as (bs & -> & Hg & _).
  cbn [eval_expr]. unfold eval_expr_body. rewrite Ktarget.
  unfold eval_ref, tree_ref, tree_ident. rewrite Href.
  erewrite bind_run by reflexivity. cbv beta. rewrite Kdecl, Hname.
  erewrite bind_run by reflexivity. cbv beta.
  erewrite bind_run by reflexivity. cbv beta.
  unfold vtable_get. cbn [top set_top vtframe_get binding]. rewrite Hg. reflexivity.
Qed.

Lemma eval_assign_then_ref_witness :
  eval_expr 1 (mk_ref var_r)
            (VTable [VtFrame [("X", lit_int 1); ("R", lit_int 6)]] false None None)
  = Done (lit_int 6, VTable [VtFrame [("X", lit_int 1); ("R", lit_int 6)]] false None None).
Proof.
  apply (eval_assign_then_ref 9 0 (mk_assign (mk_ref var_r) call_add1_5) (mk_ref var_r)
           var_r "R" call_add1_5 (lit_int 6) vt_x1 vt_x1);
    try reflexivity; try discriminate.
Defined.

Lemma eval_expr_literal fuel n k v :
  folded_int n = Some k -> eval_expr (S fuel) n v = Done (n, v).
Proof.
  unfold folded_int. intros H. cbn [eval_expr]. unfold eval_expr_body.
  destruct (tree_kind n); try discriminate. reflexivity.
Qed.

(** X12. A case statement runs the statement of the first named choice
    equal to the selector and nothing else: the choices before it, all
    integer literals of other values, are passed over, and the choices after
    it are not looked at. *)
Theorem eval_case_first_match fuel (es : tree_t -> E unit) value_int pre a post n s v :
  Forall (fun c => tree_subkind c = A_NAMED
                   /\ exists m k, t_name c = Some m /\ folded_int m = Some k
                                  /\ k <> value_int) pre ->
  tree_subkind a = A_NAMED ->
  t_name a = Some n -> folded_int n = Some value_int -> t_value a = Some s ->
  eval_case_assocs (eval_expr (S fuel)) es value_int (pre ++ a :: post) v = es s v.
Proof.
  intros Hpre Ka Hn Hk Hs. induction Hpre as [|c pre (Kc & m & k & Hm & Hmk & Hne) _ IH].
  - cbn [app eval_case_assocs]. rewrite Ka. unfold tree_name, tree_value. rewrite Hn.
    erewrite bind_run by reflexivity. cbv beta.
    erewrite bind_run by (eapply eval_expr_literal; exact Hk). cbv beta.
    rewrite Hk, Z.eqb_refl, Hs. erewrite bind_run by reflexivity. reflexivity.
  - change ((c :: pre) ++ a :: post)%list with (c :: (pre ++ a :: post))%list.
    cbn [eval_case_assocs]. rewrite Kc. unfold tree_name. rewrite Hm.
    erewrite bind_run by reflexivity. cbv beta.
    erewrite bind_run by (eapply eval_expr_literal; exact Hmk). cbv beta.
    rewrite Hmk. apply Z.eqb_neq in Hne. rewrite Hne. exact IH.
Qed.

Lemma eval_case_first_match_witness :
  eval_case_assocs (eval_expr 1) (eval_stmt 3) 2 case_assocs_123 vt_x1
  = eval_stmt 3 (mk_assign (mk_ref var_r) (lit_int 20)) vt_x1.
Proof.
  apply (eval_case_first_match 0 (eval_stmt 3) 2
           [mk_named (lit_int 1) (mk_assign (mk_ref var_r) (lit_int 10))]
           (mk_named (lit_int 2) (mk_assign (mk_ref var_r) (lit_int 20)))
           [mk_named (lit_int 3) (mk_assign (mk_ref var_r) (lit_int 30))]
           (lit_int 2) (mk_assign (mk_ref var_r) (lit_int 20)) vt_x1);
    try reflexivity.
  constructor; [|constructor]. split; [reflexivity|].
  exists (lit_int 1), 1. repeat split; try reflexivity. lia.
Defined.

(* ================================================================= *)
(** * What the checker changes *)

Lemma drop_attr_eq name t :
  drop_attr name t
  = Tree (tree_kind t) (tree_subkind t) (tree_loc t) (t_ident t) (t_ident2 t)
         (tree_ival t) (tree_dval t) (tree_pos t)
         (filter (fun na => negb (ident_eq (fst na) name)) (t_attrs t)) (t_type t)
         (option_map (drop_attr name) (t_value t))
         (option_map (drop_attr name) (t_target t))
         (option_map (drop_attr name) (t_name t))
         (t_ref t) (drop_attr_range name (t_range t))
         (map (drop_attr name) (t_params t)) (map (drop_attr name) (t_ports t))
         (map (drop_attr name) (t_decls t)) (map (drop_attr name) (t_stmts t))
         (map (drop_attr name) (t_else_stmts t)) (map (drop_attr name) (t_assocs t))
         (map (drop_attr name) (t_chars t)) (map (drop_attr name) (t_waveforms t)).
Proof. destruct t. reflexivity. Qed.

Lemma filter_set_attr name a l :
  filter (fun na => negb (ident_eq (fst na) name)) (set_attr name a l)
  = filter (fun na => negb (ident_eq (fst na) name)) l.
Proof.
  induction l as [|[n x] rest IH]; simpl.
  - rewrite ident_eq_refl. reflexivity.
  - destruct (ident_eq n name) eqn:E; simpl; rewrite E; simpl; [reflexivity|].
    rewrite IH. reflexivity.
Qed.

Lemma drop_attr_marked name n t :
  drop_attr name (tree_add_attr_int t name n) = drop_attr name t.
Proof. destruct t. simpl. rewrite filter_set_attr. reflexivity. Qed.

Section Dropped.

Variable fn : tree_t -> B tree_t.
Variable name : ident_t.

Lemma kept_visit_opt o s o1 s1 :
  match o with Some c => kept fn name c | None => True end ->
  visit_opt fn o s = Done (o1, s1) ->
  option_map (drop_attr name) o1 = option_map (drop_attr name) o.
Proof.
  destruct o as [c|]; intros Hc H; unfold visit_opt in H.
  - apply bind_done in H. destruct H as (c' & s' & Hv & H).
    apply ret_done in H. destruct H as [-> ->]. simpl. f_equal. eapply Hc. exact Hv.
  - apply ret_done in H. destruct H as [-> ->]. reflexivity.
Qed.

Lemma kept_visit_range o s o1 s1 :
  match o with
  | Some r => kept fn name (r_left r) /\ kept fn name (r_right r)
  | None => True
  end ->
  visit_range fn o s = Done (o1, s1) ->
  drop_attr_range name o1 = drop_attr_range name o.
Proof.
  destruct o as [[l r kd]|]; intros Hc H; unfold visit_range in H.
  - cbn [r_left r_right] in Hc. destruct Hc as [Hl Hr].
    apply bind_done in H. destruct H as (l' & sa & Hvl & H).
    apply bind_done in H. destruct H as (r' & sb & Hvr & H).
    apply ret_done in H. destruct H as [-> ->]. simpl.
    rewrite (Hl _ _ _ Hvl), (Hr _ _ _ Hvr). reflexivity.
  - apply ret_done in H. destruct H as [-> ->]. reflexivity.
Qed.

Lemma kept_visit_list l : forall s l1 s1,
  Forall (kept fn name) l ->
  visit_list fn l s = Done (l1, s1) ->
  map (drop_attr name) l1 = map (drop_attr name) l.
Proof.
  induction l as [|c rest IH]; intros s l1 s1 Hl H.
  - apply ret_done in H. destruct H as [-> ->]. reflexivity.
  - inversion Hl as [|? ? Hc Hrest]; subst.
    change (visit_list fn (c :: rest))
      with (c' <- tree_visit fn c ;; rest' <- visit_list fn rest ;; ret (c' :: rest'))%monad
      in H.
    apply bind_done in H. destruct H as (c' & sa & Hvc & H).
    apply bind_done in H. destruct H as (rest' & sb & Hvr & H).
    apply ret_done in H. destruct H as [-> ->]. simpl.
    rewrite (Hc _ _ _ Hvc), (IH _ _ _ Hrest Hvr). reflexivity.
Qed.

Hypothesis fn_marks : forall n s n' s',
  fn n s = Done (n', s') -> drop_attr name n' = drop_attr name n.

Lemma tree_visit_kept t : kept fn name t.
Proof.
  induction t as [t Hc] using tree_children_ind.
  destruct Hc as (Hvalue & Htarget & Hname & Hrange & Hparams & Hports & Hdecls
                  & Hstmts & Helse & Hassocs & Hchars & Hwaves).
  intros s t1 s1 H. rewrite tree_visit_eq in H.
  apply bind_done in H. destruct H as (value' & sv & Rvalue & H).
  apply bind_done in H. destruct H as (target' & st & Rtarget & H).
  apply bind_done in H. destruct H as (name' & sn & Rname & H).
  apply bind_done in H. destruct H as (range' & sr & Rrange & H).
  apply bind_done in H. destruct H as (params' & sp & Rparams & H).
  apply bind_done in H. destruct H as (ports' & spo & Rports & H).
  apply bind_done in H. destruct H as (decls' & sd & Rdecls & H).
  apply bind_done in H. destruct H as (stmts' & ss & Rstmts & H).
  apply bind_done in H. destruct H as (else' & se & Relse & H).
  apply bind_done in H. destruct H as (assocs' & sa & Rassocs & H).
  apply bind_done in H. destruct H as (chars' & sc & Rchars & H).
  apply bind_done in H. destruct H as (waves' & sw & Rwaves & H).
  rewrite (fn_marks _ _ _ _ H). rewrite (drop_attr_eq name t).
  rewrite drop_attr_eq. cbn [tree_kind tree_subkind tree_loc t_ident t_ident2 tree_ival
    tree_dval tree_pos t_attrs t_type t_value t_target t_name t_ref t_range t_params
    t_ports t_decls t_stmts t_else_stmts t_assocs t_chars t_waveforms].
  rewrite (kept_visit_opt _ _ _ _ Hvalue Rvalue), (kept_visit_opt _ _ _ _ Htarget Rtarget),
    (kept_visit_opt _ _ _ _ Hname Rname), (kept_visit_range _ _ _ _ Hrange Rrange),
    (kept_visit_list _ _ _ _ Hparams Rparams), (kept_visit_list _ _ _ _ Hports Rports),
    (kept_visit_list _ _ _ _ Hdecls Rdecls), (kept_visit_list _ _ _ _ Hstmts Rstmts),
    (kept_visit_list _ _ _ _ Helse Relse), (kept_visit_list _ _ _ _ Hassocs Rassocs),
    (kept_visit_list _ _ _ _ Hchars Rchars), (kept_visit_list _ _ _ _ Hwaves Rwaves).
  reflexivity.
Qed.

End Dropped.

(** X13. The checker changes nothing of a tree but the [elide_bounds]
    attribute: with that attribute taken off every node, the tree
    [bounds_check] leaves is the tree it was given. *)
Theorem bounds_check_keeps_tree t s t1 s1 :
  bounds_check t s = Done (t1, s1) ->
  drop_attr elide_bounds_i t1 = drop_attr elide_bounds_i t.
Proof.
  intros H. eapply tree_visit_kept; [|exact H].
  intros n s0 n' s' Hn. destruct (bounds_visit_fn_shape _ _ _ _ Hn) as [-> | [_ ->]].
  - reflexivity.
  - apply drop_attr_marked.
Qed.

Lemma bounds_check_keeps_tree_witness :
  drop_attr elide_bounds_i (mk_return (tree_add_attr_int ref_a_3 elide_bounds_i 1))
  = drop_attr elide_bounds_i return_a_3.
Proof.
  apply (bounds_check_keeps_tree return_a_3 bounds_init _ bounds_init).
  vm_compute. reflexivity.
Defined.

(* ================================================================= *)
(** * Choices that overlap, and scalar assignments *)

Lemma sorted_cover_lows l : forall it x,
  sorted_cover (it :: l) -> in_cover x (it :: l) -> i_low it <= x.
Proof.
  induction l as [|nx l IH]; intros it x (Hne & Hnext & Hs) Hx;
    apply in_cover_cons in Hx; destruct Hx as [Hx|Hx].
  - lia.
  - exfalso. exact (in_cover_nil _ Hx).
  - lia.
  - specialize (IH nx x Hs Hx). destruct Hs as (Hne' & _). lia.
Qed.

Lemma MAX_max x y : MAX x y = Z.max x y.
Proof. unfold MAX. rewrite Z.gtb_ltb. destruct (y <? x) eqn:E; [apply Z.ltb_lt in E | apply Z.ltb_ge in E]; lia. Qed.

Lemma MIN_min x y : MIN x y = Z.min x y.
Proof. unfold MIN. destruct (x <? y) eqn:E; [apply Z.ltb_lt in E | apply Z.ltb_ge in E]; lia. Qed.

(** X14. A choice that shares a value with the intervals covered so far
    is reported as already covered, once, and the covered intervals stay as
    they are.  The report is made against the first covered interval the
    choice meets, every interval before it lying below the choice, and
    names the values the two share: [value N is already covered] when it is
    a single value, [range N to M is already covered] otherwise.  This holds
    when no covered interval ends just below the choice; the intervals are
    sorted and away from the ends of the 64-bit range. *)
Theorem bounds_case_cover_overlap covered a low high s :
  sorted_cover covered ->
  Forall (fun it => INT64_MIN < i_low it /\ i_high it < INT64_MAX
                    /\ i_high it + 1 <> low) covered ->
  (exists x, low <= x <= high /\ in_cover x covered) ->
  exists pre it post,
    covered = (pre ++ it :: post)%list
    /\ Forall (fun p => i_high p < low) pre
    /\ low <= i_high it /\ i_low it <= high
    /\ bounds_case_cover covered a low high s
       = Done (covered,
               report s [already_covered a (Z.max low (i_low it))
                                           (Z.min high (i_high it))]).
Proof.
  induction covered as [|it next IH]; intros Hs Hb (x & Hx & Hin).
  - exfalso. exact (in_cover_nil _ Hin).
  - inversion Hb as [|? ? (Hlo & Hhi & Hadj) Hb']; subst.
    cbn [bounds_case_cover].
    destruct (i_low it <=? high) eqn:E1.
    + apply Z.leb_le in E1.
      destruct (low <=? i_high it) eqn:E2; cbn [andb].
      * apply Z.leb_le in E2. exists [], it, next.
        split; [reflexivity|]. split; [constructor|]. split; [exact E2|].
        split; [exact E1|].
        rewrite MAX_max, MIN_min. unfold already_covered.
        destruct (Z.max low (i_low it) =? Z.min high (i_high it)); reflexivity.
      * apply Z.leb_gt in E2.
        destruct Hs as (Hne & Hnext & Hs').
        assert (W1 : wrap64 (i_low it - 1) = i_low it - 1).
        { apply wrap64_id. unfold in_int64, INT64_MIN, INT64_MAX in *. lia. }
        assert (W2 : wrap64 (i_high it + 1) = i_high it + 1).
        { apply wrap64_id. unfold in_int64, INT64_MIN, INT64_MAX in *. lia. }
        rewrite W1, W2.
        assert (T1 : (high =? i_low it - 1) = false) by (apply Z.eqb_neq; lia).
        assert (T2 : (low =? i_high it + 1) = false) by (apply Z.eqb_neq; lia).
        rewrite T1, T2.
        destruct (IH Hs' Hb') as (pre & it' & post & Hcov & Hpre & Hl & Hh & Hrun).
        { exists x. split; [exact Hx|].
          apply in_cover_cons in Hin. destruct Hin as [Hin|Hin]; [lia | exact Hin]. }
        exists (it :: pre), it', post.
        split; [rewrite Hcov; reflexivity|].
        split; [constructor; [lia | exact Hpre]|].
        split; [exact Hl|]. split; [exact Hh|].
        erewrite bind_run by exact Hrun. reflexivity.
    + apply Z.leb_gt in E1. pose proof (sorted_cover_lows _ _ _ Hs Hin). lia.
Qed.

Lemma bounds_case_cover_overlap_witness :
  exists pre it post,
    [Interval 0 0; Interval 2 5] = (pre ++ it :: post)%list
    /\ Forall (fun p => i_high p < 4) pre
    /\ 4 <= i_high it /\ i_low it <= 6
    /\ bounds_case_cover [Interval 0 0; Interval 2 5] mk_null 4 6 bounds_init
       = Done ([Interval 0 0; Interval 2 5],
               report bounds_init [already_covered mk_null (Z.max 4 (i_low it))
                                                           (Z.min 6 (i_high it))]).
Proof.
  apply (bounds_case_cover_overlap [Interval 0 0; Interval 2 5] mk_null 4 6 bounds_init).
  - simpl. lia.
  - repeat constructor; unfold INT64_MIN, INT64_MAX; simpl; lia.
  - exists 4. split; [lia|]. unfold in_cover. right. left. simpl. lia.
Defined.

(** The condition on the interval that ends just below the choice is
    needed: the choice [2 to 3] after [0 to 1] and [3 to 4] is joined to
    the first interval and its overlap with the second goes unreported. *)
Remark bounds_case_cover_joins_before_it_compares :
  bounds_case_cover [Interval 0 1; Interval 3 4] mk_null 2 3 bounds_init
  = Done ([Interval 0 3; Interval 3 4], bounds_init).
Proof. reflexivity. Qed.

Lemma folded_int_not_enum t x : folded_int t = Some x -> folded_enum t = None.
Proof.
  unfold folded_int, folded_enum. destruct (tree_kind t); try discriminate. reflexivity.
Qed.

(** X15. Assigning a folded integer to a target of a scalar subtype: the
    value is compared with the bounds of the subtype, whichever the
    direction of its range; a value within the bounds passes without a
    diagnostic, a value outside them gives exactly one error. *)
Theorem bounds_check_assignment_scalar target value ttype vtype r low high x s :
  t_type target = Some ttype -> t_type value = Some vtype ->
  type_is_array ttype = false -> type_is_record ttype = false ->
  type_kind ttype = T_SUBTYPE ->
  nth_error (ty_dims ttype) 0 = Some r ->
  folded_bounds r = Some (low, high) ->
  folded_int value = Some x ->
  exists s',
    bounds_check_assignment target value s = Done (tt, s')
    /\ (low <= x <= high -> s' = s)
    /\ (~ low <= x <= high -> errors_added s s' 1).
Proof.
  intros Ht Hv Harr Hrec Hk Hr Hb Hx.
  unfold bounds_check_assignment, tree_type, type_dim.
  rewrite Ht, Hv. erewrite bind_run by reflexivity. cbv beta.
  erewrite bind_run by reflexivity. cbv beta zeta.
  rewrite Harr, Hrec, Hk. cbn [andb negb].
  erewrite bind_run by reflexivity. cbv beta.
  rewrite Hr. erewrite bind_run by reflexivity. cbv beta.
  rewrite Hx, (folded_int_not_enum _ _ Hx).
  unfold folded_bounds in Hb.
  destruct (folded_int (r_left r)) as [lft|]; [|discriminate].
  destruct (folded_int (r_right r)) as [rgt|]; [|discriminate].
  destruct (r_kind r); try discriminate;
    apply some_eq_inv in Hb; injection Hb as <- <-.
  - destruct ((x <? lft) || (x >? rgt)) eqn:E.
    + eexists. split; [reflexivity|]. split.
      * intros Hin. apply orb_true_iff in E. rewrite Z.gtb_ltb in E.
        destruct E as [E|E]; apply Z.ltb_lt in E; lia.
      * intros _. split; [reflexivity|]. eexists. split; reflexivity.
    + exists s. split; [reflexivity|]. split; [reflexivity|].
      intros Hout. apply orb_false_iff in E. rewrite Z.gtb_ltb in E.
      destruct E as [E1 E2]. apply Z.ltb_ge in E1, E2. lia.
  - destruct ((x >? lft) || (x <? rgt)) eqn:E.
    + eexists. split; [reflexivity|]. split.
      * intros Hin. apply orb_true_iff in E. rewrite Z.gtb_ltb in E.
        destruct E as [E|E]; apply Z.ltb_lt in E; lia.
      * intros _. split; [reflexivity|]. eexists. split; reflexivity.
    + exists s. split; [reflexivity|]. split; [reflexivity|].
      intros Hout. apply orb_false_iff in E. rewrite Z.gtb_ltb in E.
      destruct E as [E1 E2]. apply Z.ltb_ge in E1, E2. lia.
Qed.

Lemma bounds_check_assignment_scalar_witness :
  exists s',
    bounds_check_assignment (mk_ref var_n) (lit_int 9) bounds_init = Done (tt, s')
    /\ (0 <= 9 <= 7 -> s' = bounds_init)
    /\ (~ 0 <= 9 <= 7 -> errors_added bounds_init s' 1).
Proof.
  apply (bounds_check_assignment_scalar (mk_ref var_n) (lit_int 9)
           (mk_subtype "SMALL" std_integer (mk_range 0 7 RANGE_TO)) std_integer
           (mk_range 0 7 RANGE_TO) 0 7 9 bounds_init); reflexivity.
Defined.
(* ================================================================= *)
(** * Enumeration case statements *)

Lemma set_nth_length {A : Type} (n : nat) (x : A) l : length (set_nth n x l) = length l.
Proof.
  unfold set_nth. revert l. induction n as [|n IH]; intros [|y l]; simpl; try reflexivity.
  rewrite IH. reflexivity.
Qed.

Lemma nth_error_set_nth {A : Type} (n : nat) (x : A) l j :
  (n < length l)%nat ->
  nth_error (set_nth n x l) j = if (j =? n)%nat then Some x else nth_error l j.
Proof.
  unfold set_nth. revert l j. induction n as [|n IH]; intros [|y l] j Hn; simpl in Hn;
    try lia.
  - destruct j; reflexivity.
  - destruct j as [|j]; [reflexivity|]. simpl. apply IH. lia.
Qed.

Lemma lit_at (lits : list tree_t) (ids : list ident_t) k id :
  map t_ident lits = map Some ids ->
  nth_error ids k = Some id ->
  exists lit, nth_error lits k = Some lit /\ t_ident lit = Some id.
Proof.
  intros Hm Hk. pose proof (map_nth_error Some _ _ Hk) as H1.
  rewrite <- Hm, nth_error_map in H1.
  destruct (nth_error lits k) as [lit|]; [|discriminate].
  exists lit. split; [reflexivity|]. simpl in H1. congruence.
Qed.

Lemma skipn_cons_nth {A : Type} (l : list A) : forall k x r,
  skipn k l = x :: r -> nth_error l k = Some x /\ skipn (S k) l = r.
Proof.
  induction l as [|y l IH]; intros [|k] x r H; simpl in *; try discriminate.
  - injection H as -> ->. split; reflexivity.
  - apply IH. exact H.
Qed.

Lemma named_app names id name :
  named (names ++ [name]) id = named names id || ident_eq id name.
Proof. unfold named. rewrite existsb_app. simpl. rewrite orb_false_r. reflexivity. Qed.

Lemma named_false names id : ~ In id names -> named names id = false.
Proof.
  intros Hn. unfold named. destruct (existsb (ident_eq id) names) eqn:E; [|reflexivity].
  apply existsb_exists in E. destruct E as (x & Hx & E).
  apply ident_eq_true in E. subst x. contradiction.
Qed.

Section EnumCase.

Variable t : tree_t.
Variable base : type_t.
Variable ids : list ident_t.
Hypothesis Hids : map t_ident (ty_enum_literals base) = map Some ids.

(** The loop over the literals for one choice that names a literal not
    named before: the positions of that literal are marked, nothing is
    reported. *)
Lemma bounds_case_enum_choice_marks a name s :
  forall m k have,
    (k + m = length ids)%nat -> length have = length ids ->
    (forall j id, (k <= j)%nat -> nth_error ids j = Some id -> ident_eq id name = true ->
                  nth_error have j = Some false) ->
    exists have',
      fold_each (map (fun i => 0 + Z.of_nat i) (seq k m)) have
                (bounds_case_enum_choice a base 0 name) s
      = Done (have', s)
      /\ length have' = length ids
      /\ forall j id, nth_error ids j = Some id ->
           nth_error have' j
           = if (k <=? j)%nat && ident_eq id name then Some true else nth_error have j.
Proof.
  induction m as [|m IH]; intros k have Hk Hlen Hfresh.
  - exists have. split; [reflexivity|]. split; [exact Hlen|].
    intros j id Hj.
    assert (j < length ids)%nat by (apply nth_error_Some; congruence).
    replace (k <=? j)%nat with false by (symmetry; apply Nat.leb_gt; lia). reflexivity.
  - assert (Hkn : (k < length ids)%nat) by lia.
    destruct (nth_error ids k) as [idk|] eqn:Hidk;
      [|apply nth_error_None in Hidk; lia].
    destruct (lit_at _ _ _ _ Hids Hidk) as (lit & Hlit & Hlid).
    cbn [seq map fold_each].
    assert (Hstep : exists have1,
               bounds_case_enum_choice a base 0 name have (0 + Z.of_nat k) s
               = Done (have1, s)
               /\ length have1 = length ids
               /\ forall j, nth_error have1 j
                            = if (j =? k)%nat && ident_eq idk name then Some true
                              else nth_error have j).
    { unfold bounds_case_enum_choice, type_enum_literal, tree_ident.
      rewrite Z.add_0_l, Z.sub_0_r, Nat2Z.id, Hlit.
      erewrite bind_run by reflexivity. cbv beta. rewrite Hlid.
      erewrite bind_run by reflexivity. cbv beta.
      destruct (ident_eq idk name) eqn:E.
      - rewrite (Hfresh k idk (Nat.le_refl _) Hidk E).
        erewrite bind_run by reflexivity. cbv beta iota.
        exists (set_nth k true have). split; [reflexivity|].
        split; [rewrite set_nth_length; exact Hlen|].
        intros j. rewrite nth_error_set_nth by lia. rewrite andb_true_r. reflexivity.
      - exists have. split; [reflexivity|]. split; [exact Hlen|].
        intros j. rewrite andb_false_r. reflexivity. }
    destruct Hstep as (have1 & Hrun1 & Hlen1 & Hspec1).
    destruct (IH (S k) have1 ltac:(lia) Hlen1) as (have' & Hrun & Hlen' & Hspec).
    { intros j id Hj Hid E. rewrite Hspec1.
      replace (j =? k)%nat with false by (symmetry; apply Nat.eqb_neq; lia).
      cbn [andb]. apply (Hfresh j id); [lia | assumption | assumption]. }
    exists have'. split; [erewrite bind_run by exact Hrun1; exact Hrun|].
    split; [exact Hlen'|].
    intros j id Hj. rewrite (Hspec j id Hj), Hspec1.
    destruct (Nat.eq_dec j k) as [->|Hne].
    + assert (id = idk) by congruence. subst id.
      rewrite Nat.eqb_refl, Nat.leb_refl.
      replace (S k <=? k)%nat with false by (symmetry; apply Nat.leb_gt; lia).
      reflexivity.
    + replace (j =? k)%nat with false by (symmetry; apply Nat.eqb_neq; lia).
      cbn [andb].
      destruct (k <=? j)%nat eqn:E1; [apply Nat.leb_le in E1 | apply Nat.leb_gt in E1].
      * replace (S k <=? j)%nat with true by (symmetry; apply Nat.leb_le; lia). reflexivity.
      * replace (S k <=? j)%nat with false by (symmetry; apply Nat.leb_gt; lia). reflexivity.
Qed.

(** The loop over the choices. *)
Lemma bounds_case_enum_choices s assocs :
  forall cs have ho processed,
    map enum_choice assocs = map Some cs ->
    NoDup (processed ++ choice_names cs) ->
    have_marks ids processed have ->
    exists have',
      fold_each assocs (have, ho)
        (fun '(have, have_others) a =>
           match tree_subkind a with
           | A_OTHERS => ret (have, true)
           | _ =>
               choice <- tree_name a ;;
               name <- tree_ident choice ;;
               have' <- fold_each (positions 0 (Z.of_nat (length ids) - 1)) have
                                  (bounds_case_enum_choice a base 0 name) ;;
               ret (have', have_others)
           end) s
      = Done ((have', ho || others_given cs), s)
      /\ have_marks ids (processed ++ choice_names cs) have'.
Proof.
  induction assocs as [|a assocs IH]; intros cs have ho processed Hmap Hnd Hinv.
  - destruct cs; [|discriminate]. exists have. simpl. rewrite orb_false_r, app_nil_r.
    split; [reflexivity | exact Hinv].
  - destruct cs as [|c cs]; [discriminate|]. simpl in Hmap. injection Hmap as Ha Hmap.
    cbn [fold_each].
    destruct c as [name|].
    + assert (Hbody :
        exists choice, t_name a = Some choice /\ t_ident choice = Some name
          /\ match tree_subkind a with
             | A_OTHERS => ret (have, true)
             | _ =>
                 choice <- tree_name a ;;
                 name <- tree_ident choice ;;
                 have' <- fold_each (positions 0 (Z.of_nat (length ids) - 1)) have
                                    (bounds_case_enum_choice a base 0 name) ;;
                 ret (have', ho)
             end
             = (choice <- tree_name a ;;
                name <- tree_ident choice ;;
                have' <- fold_each (positions 0 (Z.of_nat (length ids) - 1)) have
                                   (bounds_case_enum_choice a base 0 name) ;;
                ret (have', ho))%monad).
      { unfold enum_choice in Ha.
        destruct (tree_subkind a); try discriminate;
          (destruct (t_name a) as [choice|]; [|discriminate]);
          (destruct (t_ident choice) as [n|] eqn:Hn; [|discriminate]);
          simpl in Ha; exists choice; (split; [reflexivity|]);
          (split; [congruence | reflexivity]). }
      destruct Hbody as (choice & Hc & Hn & ->).
      cbn [choice_names fold_right] in Hnd |- *.
      fold (choice_names cs) in Hnd |- *.
      assert (Hfresh : ~ In name processed).
      { intros Hin. apply NoDup_remove_2 in Hnd. apply Hnd.
        apply in_or_app. left. exact Hin. }
      destruct Hinv as [Hlen Hmarks].
      assert (Hposeq : positions 0 (Z.of_nat (length ids) - 1)
                       = map (fun i => 0 + Z.of_nat i) (seq 0 (length ids))).
      { unfold positions. f_equal. f_equal. lia. }
      destruct (bounds_case_enum_choice_marks a name s (length ids) 0%nat have
                  eq_refl Hlen) as (have1 & Hrun1 & Hlen1 & Hspec1).
      { intros j id _ Hj E. rewrite (Hmarks j id Hj).
        apply ident_eq_true in E. subst id. rewrite (named_false _ _ Hfresh). reflexivity. }
      rewrite <- Hposeq in Hrun1.
      destruct (IH cs have1 ho (processed ++ [name])%list Hmap) as (have' & Hrun & Hinv').
      { rewrite <- app_assoc. exact Hnd. }
      { split; [exact Hlen1|]. intros j id Hj. rewrite (Hspec1 j id Hj), (Hmarks j id Hj).
        rewrite named_app. cbn [Nat.leb andb].
        destruct (ident_eq id name); [rewrite orb_true_r | rewrite orb_false_r];
          reflexivity. }
      exists have'. split.
      * erewrite bind_run
          by (unfold tree_name, tree_ident; rewrite Hc;
              erewrite bind_run by reflexivity; cbv beta; rewrite Hn;
              erewrite bind_run by reflexivity; cbv beta;
              erewrite bind_run by exact Hrun1; reflexivity).
        exact Hrun.
      * rewrite <- app_assoc in Hinv'. exact Hinv'.
    + assert (Hk : tree_subkind a = A_OTHERS).
      { unfold enum_choice in Ha. destruct (tree_subkind a); try reflexivity;
          destruct (t_name a) as [choice|]; try discriminate;
          destruct (t_ident choice); discriminate. }
      rewrite Hk. erewrite bind_run by reflexivity.
      cbn [choice_names fold_right others_given existsb] in Hnd |- *.
      fold (choice_names cs) in Hnd |- *. rewrite orb_true_r.
      destruct (IH cs have true processed Hmap Hnd Hinv) as (have' & Hrun & Hinv').
      exists have'. split; [exact Hrun | exact Hinv'].
Qed.

(** The loop that reports the literals without a choice. *)
Lemma bounds_case_enum_report names have (ho : bool) :
  have_marks ids names have ->
  forall suf k s,
    skipn k ids = suf ->
    for_each (map (fun i => 0 + Z.of_nat i) (seq k (length suf)))
      (fun i =>
         h <- expect (nth_error have (Z.to_nat (i - 0))) ;;
         if negb h && negb ho then
           lit <- type_enum_literal base (Z.to_nat i) ;;
           id <- tree_ident lit ;;
           bounds_error t "missing choice %s in case statement" [ArgStr (istr id)]
         else ret tt) s
    = Done (tt, if ho then s else report s (missing_choices t suf names)).
Proof.
  intros [Hlen Hmarks]. induction suf as [|id suf IH]; intros k s Hsuf.
  - simpl. unfold missing_choices. simpl. rewrite report_nil. destruct ho; reflexivity.
  - destruct (skipn_cons_nth _ _ _ _ Hsuf) as [Hid Hrest].
    destruct (lit_at _ _ _ _ Hids Hid) as (lit & Hlit & Hlid).
    cbn [length seq map for_each].
    rewrite Z.add_0_l, Z.sub_0_r, Nat2Z.id, (Hmarks k id Hid).
    erewrite bind_run
      by (erewrite bind_run by reflexivity; cbv beta;
          instantiate (1 := if ho then s
                            else if named names id then s
                            else report s [Diag (tree_loc t)
                                             "missing choice %s in case statement"
                                             [ArgStr (istr id)]]);
          instantiate (1 := tt);
          destruct (named names id); destruct ho; cbn [negb andb]; try reflexivity;
          unfold type_enum_literal, tree_ident; rewrite Hlit;
          erewrite bind_run by reflexivity; cbv beta; rewrite Hlid;
          erewrite bind_run by reflexivity; reflexivity).
    rewrite (IH (S k) _ Hrest).
    unfold missing_choices. cbn [filter].
    destruct ho; [reflexivity|].
    destruct (named names id); cbn [negb map]; [reflexivity|].
    rewrite report_app. reflexivity.
Qed.

End EnumCase.

Lemma type_base_recur_enum type : type_kind type = T_ENUM -> type_base_recur type = type.
Proof. destruct type as [k ? ? ? ? ? ?]. simpl. intros ->. reflexivity. Qed.

(** X16. A case statement over an enumeration type whose choices name no
    literal twice: no choice is reported as a duplicate; with an [others]
    choice nothing is reported at all, and without one there is exactly one
    error for each literal that no choice names, in the order of the
    literals. *)
Theorem bounds_check_case_enum_missing t value type ids cs s :
  t_value t = Some value -> t_type value = Some type ->
  type_kind type = T_ENUM ->
  map t_ident (ty_enum_literals type) = map Some ids ->
  ids <> [] -> Z.of_nat (length ids) <= 2 ^ 32 ->
  map enum_choice (t_assocs t) = map Some cs ->
  NoDup (choice_names cs) ->
  bounds_check_case t s
  = Done (tt, if others_given cs then s
              else report s (missing_choices t ids (choice_names cs))).
Proof.
  intros Hv Ht Hk Hids Hne Hmax Hcs Hnd.
  assert (Hn : length (ty_enum_literals type) = length ids).
  { rewrite <- (length_map t_ident), Hids, length_map. reflexivity. }
  assert (Hpos : (0 < length ids)%nat) by (destruct ids; [congruence | simpl; lia]).
  unfold bounds_check_case, tree_value, tree_type. rewrite Hv.
  erewrite bind_run by reflexivity. cbv beta. rewrite Ht.
  erewrite bind_run by reflexivity. cbv beta.
  unfold type_is_enum. rewrite (type_base_recur_enum _ Hk), Hk.
  unfold bounds_check_case_enum. rewrite Hk.
  erewrite bind_run by reflexivity. cbv beta iota zeta.
  rewrite (type_base_recur_enum _ Hk).
  unfold type_enum_literals. rewrite Hn.
  rewrite Z.mod_small by lia. rewrite Nat2Z.id.
  destruct (bounds_case_enum_choices type ids Hids s (t_assocs t) cs
              (repeat false (length ids)) false [] Hcs Hnd) as (have' & Hrun & Hinv).
  { split; [apply repeat_length|]. intros j id Hj.
    assert (j < length ids)%nat by (apply nth_error_Some; congruence).
    rewrite nth_error_repeat by assumption. reflexivity. }
  erewrite bind_run by exact Hrun. cbv beta iota. cbn [orb app] in Hinv |- *.
  assert (Hposeq : positions 0 (Z.of_nat (length ids) - 1)
                   = map (fun i => 0 + Z.of_nat i) (seq 0 (length ids))).
  { unfold positions. f_equal. f_equal. lia. }
  rewrite Hposeq.
  exact (bounds_case_enum_report t type ids Hids (choice_names cs) have' (others_given cs)
           Hinv ids 0%nat s eq_refl).
Qed.

Lemma bounds_check_case_enum_missing_witness :
  bounds_check_case (case_b [mk_named (mk_char "'0'") mk_null]) bounds_init
  = Done (tt, if others_given [Some "'0'"] then bounds_init
              else report bounds_init
                     (missing_choices (case_b [mk_named (mk_char "'0'") mk_null])
                        ["'0'"; "'1'"] (choice_names [Some "'0'"]))).
Proof.
  apply (bounds_check_case_enum_missing (case_b [mk_named (mk_char "'0'") mk_null])
           (mk_ref sig_b) std_bit ["'0'"; "'1'"] [Some "'0'"] bounds_init);
    try reflexivity.
  - discriminate.
  - simpl. lia.
  - repeat constructor. simpl. tauto.
Defined.

(* ================================================================= *)
(** * Exits, aggregates and array parameters *)

(** X17. A loop without a condition whose first statement is an
    unconditional [exit]: the loop ends after that statement, the rest of
    the body is not run, and the exit is taken off the state exactly when it
    names this loop; an exit that names another loop stays pending for the
    loop around. *)
Theorem eval_while_exit fuel t x rest label label' v :
  tree_kind t = T_WHILE -> t_value t = None -> t_ident t = Some label ->
  t_stmts t = x :: rest ->
  tree_kind x = T_EXIT -> t_value x = None -> t_ident2 x = Some label' ->
  result v = None -> failed v = false ->
  eval_stmt (S (S fuel)) t v
  = Done (tt, set_exit (if ident_eq label' label then None else Some label') v).
Proof.
  intros Kt Hc Hl Hs Kx Hxc Hxl Hr Hf.
  assert (Hx : eval_stmt (S fuel) x v = Done (tt, set_exit (Some label') v)).
  { cbn [eval_stmt]. unfold eval_stmt_body. rewrite Kx.
    unfold eval_exit, tree_ident2. rewrite Hxc, Hxl.
    erewrite bind_run by reflexivity. reflexivity. }
  assert (Hbody : eval_stmts (eval_stmt (S fuel)) (t_stmts t) v
                  = Done (tt, set_exit (Some label') v)).
  { rewrite Hs. cbn [eval_stmts]. erewrite bind_run by exact Hx. cbv beta.
    erewrite bind_run by reflexivity. cbv beta.
    cbn [exit set_exit is_some]. rewrite !orb_true_r. reflexivity. }
  cbn [eval_stmt]. unfold eval_stmt_body. rewrite Kt. unfold eval_while.
  change (Z.to_nat MAX_ITERS) with (S (Z.to_nat 999)).
  cbn [while_loop].
  erewrite bind_run.
  2:{ erewrite bind_run by reflexivity. cbv beta. rewrite Hr, Hc.
      erewrite bind_run by reflexivity. cbv beta iota.
      erewrite bind_run by reflexivity. cbv beta. rewrite Hf. cbn [negb orb].
      change (0 + 1 =? MAX_ITERS) with false. cbv iota.
      erewrite bind_run by exact Hbody. cbv beta.
      erewrite bind_run by reflexivity. cbv beta.
      cbn [exit set_exit]. unfold tree_ident. rewrite Hl.
      erewrite bind_run by reflexivity. cbv beta.
      instantiate (1 := set_exit (if ident_eq label' label then None else Some label') v).
      instantiate (1 := 1%nat).
      destruct (ident_eq label' label); reflexivity. }
  reflexivity.
Qed.

Lemma eval_while_exit_witness :
  eval_stmt 2 (mk_while "L1" None [mk_exit "L2"; mk_assign (mk_ref port_x) (lit_int 0)]) vt_x1
  = Done (tt, set_exit (if ident_eq "L2" "L1" then None else Some "L2") vt_x1).
Proof.
  apply (eval_while_exit 0 _ (mk_exit "L2") [mk_assign (mk_ref port_x) (lit_int 0)]
           "L1" "L2" vt_x1); reflexivity.
Defined.

Lemma wrap32_id x : - 2 ^ 31 <= x < 2 ^ 31 -> wrap32 x = x.
Proof. unfold wrap32. intros H. rewrite Z.mod_small; lia. Qed.

Lemma folded_int_literal t x : folded_int t = Some x -> is_kind_literal t = true.
Proof.
  unfold folded_int, is_kind_literal. destruct (tree_kind t); try discriminate. reflexivity.
Qed.

Lemma bounds_check_agg_positional type_r low high (assocs : list tree_t) :
  forall known n s,
    Forall (fun a => tree_subkind a = A_POS) assocs ->
    0 <= n -> n + Z.of_nat (length assocs) < 2 ^ 31 ->
    fold_each assocs (AggCount known n) (bounds_check_agg_assoc type_r low high) s
    = Done (AggCount known (n + Z.of_nat (length assocs)), s).
Proof.
  induction assocs as [|a assocs IH]; intros known n s Hp Hn Hmax.
  - simpl. rewrite Z.add_0_r. reflexivity.
  - inversion Hp as [|? ? Ha Hp']; subst. cbn [fold_each length] in *.
    unfold bounds_check_agg_assoc at 1. rewrite Ha.
    erewrite bind_run by reflexivity. cbv beta. cbn [known_elem_count nelems].
    rewrite wrap32_id by lia. rewrite IH by (try assumption; lia).
    f_equal. f_equal. f_equal. lia.
Qed.

(** X18. A positional aggregate of a constrained array type with literal
    bounds: the elements are counted, and the count is compared with the
    length of the index range; one error when they differ, none when they
    agree. *)
Theorem bounds_check_aggregate_count t type type_r lft rgt len s :
  t_type t = Some type ->
  type_is_array type = true -> type_kind type <> T_UARRAY ->
  nth_error (ty_dims type) 0 = Some type_r ->
  tree_attr_int t unconstrained_i 0 = 0 ->
  folded_int (r_left type_r) = Some lft -> folded_int (r_right type_r) = Some rgt ->
  folded_length type_r = Some len ->
  - INT64_MAX < lft -> - INT64_MAX < rgt ->
  Forall (fun a => tree_subkind a = A_POS) (t_assocs t) ->
  Z.of_nat (length (t_assocs t)) < 2 ^ 31 ->
  bounds_check_aggregate t s
  = Done (tt, if len =? Z.of_nat (length (t_assocs t)) then s
              else Bounds (errors s + 1)
                     (reported s
                      ++ [Diag (tree_loc t) "expected %li elements in aggregate but have %d"
                            [ArgInt len; ArgInt (Z.of_nat (length (t_assocs t)))]])).
Proof.
  intros Ht Harr Hk Hdim Hunc Hl Hr Hlen Hlo Hro Hpos Hmax.
  unfold bounds_check_aggregate, tree_type, type_dim.
  rewrite Ht. erewrite bind_run by reflexivity. cbv beta.
  rewrite Harr. cbn [negb]. cbv iota.
  assert (Hnu : match type_kind type with T_UARRAY => false | _ => true end = true)
    by (destruct (type_kind type); try reflexivity; congruence).
  rewrite Hnu. erewrite bind_run by reflexivity.
  cbv beta. rewrite Hdim. erewrite bind_run by reflexivity. cbv beta zeta.
  rewrite Hunc. change (negb (0 =? 0)) with false. cbv iota.
  rewrite (folded_int_literal _ _ Hl), (folded_int_literal _ _ Hr). cbn [andb].
  assert (Hkind : r_kind type_r <> RANGE_EXPR).
  { unfold folded_length in Hlen. rewrite Hl, Hr in Hlen.
    destruct (r_kind type_r); congruence. }
  erewrite bind_run
    by (unfold range_bounds, assume_int; rewrite Hl, Hr; reflexivity).
  cbv beta iota.
  assert (Hnot : forall low high,
             (low, high) = match r_kind type_r with
                           | RANGE_DOWNTO => (rgt, lft)
                           | _ => (lft, rgt)
                           end ->
             (low =? - INT64_MAX) && (high =? INT64_MAX) = false).
  { intros low high E. apply andb_false_iff. left. apply Z.eqb_neq.
    destruct (r_kind type_r); injection E as -> ->; lia. }
  destruct (match r_kind type_r with
            | RANGE_DOWNTO => (rgt, lft)
            | _ => (lft, rgt)
            end) as [low high] eqn:Eb.
  rewrite (Hnot low high eq_refl).
  erewrite bind_run
    by (apply bounds_check_agg_positional; [exact Hpos | lia | lia]).
  cbv beta. cbn [known_elem_count nelems]. rewrite Z.add_0_l.
  erewrite bind_run.
  2:{ erewrite bind_run by reflexivity. cbv beta. rewrite Hlen.
      instantiate (1 := if len =? Z.of_nat (length (t_assocs t)) then s
                        else Bounds (errors s + 1)
                               (reported s
                                ++ [Diag (tree_loc t)
                                      "expected %li elements in aggregate but have %d"
                                      [ArgInt len;
                                       ArgInt (Z.of_nat (length (t_assocs t)))]])).
      instantiate (1 := tt).
      destruct (len =? Z.of_nat (length (t_assocs t))); reflexivity. }
  cbv beta. rewrite andb_false_r. reflexivity.
Qed.

Lemma bounds_check_aggregate_count_witness :
  bounds_check_aggregate agg_3_of_8 bounds_init
  = Done (tt, if 8 =? Z.of_nat (length (t_assocs agg_3_of_8)) then bounds_init
              else Bounds (errors bounds_init + 1)
                     (reported bounds_init
                      ++ [Diag (tree_loc agg_3_of_8)
                            "expected %li elements in aggregate but have %d"
                            [ArgInt 8; ArgInt (Z.of_nat (length (t_assocs agg_3_of_8)))]])).
Proof.
  apply (bounds_check_aggregate_count agg_3_of_8
           (mk_carray "BIT_VECTOR" [mk_range 0 7 RANGE_TO] std_bit)
           (mk_range 0 7 RANGE_TO) 0 7 8 bounds_init);
    try reflexivity; try discriminate.
  - repeat constructor.
Defined.




(* ================================================================= *)
(** * Slices, and sequences of statements *)

(** X20. A slice of a constrained array whose bounds and whose own two
    ends fold.  The left end of the slice is compared with the left bound
    of the array and the right end with the right bound, in the direction
    of the array, and with nothing else: for an ascending array the slice is
    reported when its left end is below the left bound or its right end is
    above the right bound.  There is one error and not two when both
    comparisons fail, and it names the left index; a slice whose ends each
    pass their own comparison is not reported, wherever its ends lie
    otherwise. *)
Theorem bounds_check_array_slice_ends t value vtype name b r bl br l rr s :
  t_value t = Some value -> t_type value = Some vtype ->
  t_ident value = Some name ->
  type_is_unconstrained vtype = false ->
  nth_error (ty_dims vtype) 0 = Some b -> t_range t = Some r ->
  r_kind b <> RANGE_EXPR -> r_kind r <> RANGE_EXPR ->
  folded_int (r_left b) = Some bl -> folded_int (r_right b) = Some br ->
  folded_int (r_left r) = Some l -> folded_int (r_right r) = Some rr ->
  bounds_check_array_slice t s
  = Done (tt, if slice_left_out (r_kind b) bl l || slice_right_out (r_kind b) br rr
              then report s [slice_diag t value name (r_kind b) bl br l rr]
              else s).
Proof.
  intros Hv Ht Hn Hu Hb Hr Kb Kr Hbl Hbr Hl Hrr.
  unfold bounds_check_array_slice, tree_value, tree_type, type_dim, tree_range.
  rewrite Hv. erewrite bind_run by reflexivity. cbv beta.
  unfold tree_has_type. rewrite Ht. cbn [negb]. cbv iota.
  erewrite bind_run by reflexivity. cbv beta. rewrite Hu.
  rewrite Hb. erewrite bind_run by reflexivity. cbv beta.
  rewrite Hr. erewrite bind_run by reflexivity. cbv beta.
  rewrite Hbl, Hbr, Hl, Hrr.
  assert (Hname : array_name value s
                  = Done (if is_kind_ref value then Some (istr name) else None, s)).
  { unfold array_name, tree_ident. rewrite Hn.
    destruct (is_kind_ref value); reflexivity. }
  unfold slice_diag.
  destruct (r_kind b) eqn:Eb; try congruence;
    destruct (r_kind r) eqn:Er; try congruence;
    cbn [is_to is_downto andb orb slice_left_out slice_right_out];
    rewrite ?Z.gtb_ltb, ?orb_false_r;
    destruct (l <? bl); destruct (br <? rr);
    destruct (bl <? l); destruct (rr <? br);
    cbn [orb]; try reflexivity;
    (erewrite bind_run by exact Hname); cbv beta;
    destruct (is_kind_ref value); reflexivity.
Qed.

Lemma bounds_check_array_slice_ends_witness :
  bounds_check_array_slice (mk_slice (mk_ref sig_a) (mk_range 9 12 RANGE_TO)) bounds_init
  = Done (tt, if slice_left_out RANGE_TO 0 9 || slice_right_out RANGE_TO 7 12
              then report bounds_init
                     [slice_diag (mk_slice (mk_ref sig_a) (mk_range 9 12 RANGE_TO))
                                 (mk_ref sig_a) "A" RANGE_TO 0 7 9 12]
              else bounds_init).
Proof.
  apply (bounds_check_array_slice_ends
           (mk_slice (mk_ref sig_a) (mk_range 9 12 RANGE_TO)) (mk_ref sig_a)
           (mk_carray "BIT_VECTOR" [mk_range 0 7 RANGE_TO] std_bit) "A"
           (mk_range 0 7 RANGE_TO) (mk_range 9 12 RANGE_TO) 0 7 9 12 bounds_init);
    try reflexivity; discriminate.
Defined.

(** A slice whose ends are the wrong way round, one of them outside the
    array: [a(9 to 5)] for [a : bit_vector(0 to 7)] is not reported, since 9
    is not below 0 and 5 is not above 7. *)
Remark bounds_check_array_slice_crossed_ends :
  bounds_check_array_slice (mk_slice (mk_ref sig_a) (mk_range 9 5 RANGE_TO)) bounds_init
  = Done (tt, bounds_init).
Proof. reflexivity. Qed.

Lemma bind_assoc {S A C D : Type} (m : M S A) (k : A -> M S C) (h : C -> M S D) s :
  bind (bind m k) h s = bind m (fun a => bind (k a) h) s.
Proof. unfold bind. destruct (m s) as [[a s1]| |]; reflexivity. Qed.

Lemma bind_cong {S A C : Type} (m : M S A) (k1 k2 : A -> M S C) s :
  (forall a s1, k1 a s1 = k2 a s1) -> bind m k1 s = bind m k2 s.
Proof. intros H. unfold bind. destruct (m s) as [[a s1]| |]; [apply H | | ]; reflexivity. Qed.

Lemma get_run {S C : Type} (k : S -> M S C) s : bind get k s = k s s.
Proof. reflexivity. Qed.

(** X21. Running a sequence of statements in two parts: the statements of
    the second part are run where the first part has ended, unless the
    first part has ended with a failure, a result or a pending exit, in
    which case none of them is run. *)
Theorem eval_stmts_app (es : tree_t -> E unit) x l1 l2 v :
  eval_stmts es ((x :: l1) ++ l2) v
  = (eval_stmts es (x :: l1) ;;;
     v' <- get ;;
     if failed v' || is_some (result v') || is_some (exit v') then ret tt
     else eval_stmts es l2)%monad v.
Proof.
  revert x v. induction l1 as [|y l1 IH]; intros x v.
  - cbn [app eval_stmts]. rewrite bind_assoc. apply bind_cong. intros [] v1.
    rewrite bind_assoc, !get_run.
    destruct (failed v1 || is_some (result v1) || is_some (exit v1)) eqn:E;
      erewrite bind_run by reflexivity; rewrite get_run, E; reflexivity.
  - change ((x :: y :: l1) ++ l2)%list with (x :: ((y :: l1) ++ l2))%list.
    cbn [eval_stmts]. rewrite bind_assoc. apply bind_cong. intros [] v1.
    rewrite bind_assoc, !get_run.
    destruct (failed v1 || is_some (result v1) || is_some (exit v1)) eqn:E.
    + erewrite bind_run by reflexivity. rewrite get_run, E. reflexivity.
    + rewrite IH. reflexivity.
Qed.
